(** * The cost graph of the auto-parallel solver

    A shallow embedding of [colossalai/auto_parallel/solver/cost_graph.py]
    (class [CostGraph]) and the properties of its simplification pass:
    merge-map selection, extra-cost accrual, edge re-derivation, adjacency
    rewiring, full absorption, the absorption ledger and its compression.

    Conventions of the embedding.
    - A [torch.fx] node is an object with identity; it is modelled by a
      natural number.  The attributes the class attaches to or reads from a
      node ([strategies_vector], [parents], [children]) live in finite maps
      keyed by the node, so that every node owns exactly one [parents] and one
      [children] list and an in-place update is seen by every later read.
    - Python dictionaries are [gmap]s, Python lists are lists; a Python [int]
      used as an index is a [Z], because the merge map can hold [-1].
    - A Python exception is a [Raise] in the [result] monad.
    - Costs are Python floats of which the code uses the order, the addition
      and [math.inf].  The embedding keeps these three on the floats that are
      whole numbers: the addition rounds to 53 significant bits and overflows
      to [math.inf] as the addition of the floats does. *)

From Stdlib Require Import ZArith Lia.
From stdpp Require Import base option list gmap fin_maps fin_sets relations.

Local Open Scope Z_scope.

(** ** Python values *)

Module Cost.

(** A cost is a float: [Fin z] is the float whose value is the whole number
    [z], and [Inf] is [math.inf], which marks an infeasible pair.  The floats
    that are whole numbers are closed under the addition of the floats. *)
Inductive t := Fin (z : Z) | Inf.

(** [0.0] *)
Definition zero : t := Fin 0.

(** The largest finite float, [sys.float_info.max]. *)
Definition max_float : Z := 2 ^ 1024 - 2 ^ 971.

(** The float nearest to the whole number [z], before overflow: a float has
    53 significant bits, and of two floats equally near the one with the even
    significand is taken. *)
Definition round (z : Z) : Z :=
  let a := Z.abs z in
  let e := Z.log2 a - 52 in
  if e <=? 0 then z
  else
    let q := Z.shiftr a e in
    let r := a - Z.shiftl q e in
    let half := Z.shiftl 1 (e - 1) in
    let q' := if (half <? r) || ((r =? half) && Z.odd q) then q + 1 else q in
    Z.sgn z * Z.shiftl q' e.

(** [x + y] on two finite floats: a zero operand leaves the other one as it
    is; otherwise the sum is rounded, and a rounded sum above the largest
    float is [inf].  (A sum below the range of the floats is [-inf] in
    Python; the costs of a registry, which are not negative, have no such
    sum, and [t] has no value for it.) *)
Definition fadd (x y : Z) : t :=
  if x =? 0 then Fin y
  else if y =? 0 then Fin x
  else
    let s := round (x + y) in
    if max_float <? s then Inf else Fin s.
Arguments fadd : simpl never.

(** [a + b] *)
Definition add (a b : t) : t :=
  match a, b with
  | Fin x, Fin y => fadd x y
  | _, _ => Inf
  end.

(** The sum of two costs as numbers, which nothing rounds. *)
Definition plus (a b : t) : t :=
  match a, b with
  | Fin x, Fin y => Fin (x + y)
  | _, _ => Inf
  end.

(** [a < b] *)
Definition ltb (a b : t) : bool :=
  match a, b with
  | Fin x, Fin y => x <? y
  | Fin _, Inf => true
  | Inf, _ => false
  end.

Definition leb (a b : t) : bool := negb (ltb b a).

#[global] Instance eq_dec : EqDecision t.
Proof. solve_decision. Defined.

End Cost.

Inductive exn :=
  | AttributeError
  | IndexError
  | KeyError
  | ValueError
  | RecursionError.

Inductive result (A : Type) :=
  | Ok (a : A)
  | Raise (e : exn).
Arguments Ok {A} a.
Arguments Raise {A} e.

#[global] Instance result_ret : MRet result := @Ok.
#[global] Instance result_bind : MBind result := λ A B f m,
  match m with
  | Ok a => f a
  | Raise e => Raise e
  end.

#[global] Instance result_fmap : FMap result := λ A B f m,
  match m with
  | Ok a => Ok (f a)
  | Raise e => Raise e
  end.

(** A [for] loop whose body may raise: the state is threaded from left to
    right and the first exception leaves the loop. *)
Fixpoint foldM {S A : Type} (f : S → A → result S) (s : S) (l : list A) : result S :=
  match l with
  | [] => Ok s
  | x :: l' => s' ← f s x; foldM f s' l'
  end.

(** [range(n)] *)
Definition range (n : nat) : list nat := seq 0 n.

(** [enumerate(l)] *)
Definition enumerate {A : Type} (l : list A) : list (nat * A) :=
  zip (seq 0 (length l)) l.

Section python.
Context {A : Type} `{EqDecision A}.

(** [d[k]] on a dictionary *)
Definition dict_get `{Countable K} (d : gmap K A) (k : K) : result A :=
  match d !! k with
  | Some v => Ok v
  | None => Raise KeyError
  end.

(** [d.pop(k)], the popped value dropped *)
Definition dict_pop `{Countable K} (d : gmap K A) (k : K) : result (gmap K A) :=
  match d !! k with
  | Some _ => Ok (delete k d)
  | None => Raise KeyError
  end.

(** [node.attr] *)
Definition getattr (store : gmap nat A) (n : nat) : result A :=
  match store !! n with
  | Some v => Ok v
  | None => Raise AttributeError
  end.

(** [l[z]] on a list: a negative index counts from the end. *)
Definition list_getitem (l : list A) (z : Z) : result A :=
  let n := Z.of_nat (length l) in
  let z' := if z <? 0 then z + n else z in
  if (0 <=? z') && (z' <? n)
  then match l !! Z.to_nat z' with
       | Some v => Ok v
       | None => Raise IndexError
       end
  else Raise IndexError.

(** [l.index(x)] *)
Fixpoint list_index (l : list A) (x : A) : result nat :=
  match l with
  | [] => Raise ValueError
  | y :: l' => if decide (y = x) then Ok 0%nat else S <$> list_index l' x
  end.

(** [l.remove(x)]: the first occurrence goes. *)
Fixpoint list_remove (l : list A) (x : A) : result (list A) :=
  match l with
  | [] => Raise ValueError
  | y :: l' => if decide (y = x) then Ok l' else cons y <$> list_remove l' x
  end.

(** [l.append(x)] under the guard [if x not in l] *)
Definition append_if_absent (l : list A) (x : A) : list A :=
  if decide (x ∈ l) then l else l ++ [x].

End python.

(** ** The strategy registry *)

Abbreviation Node := nat (only parsing).

(** Modelled from the spec: the class of one candidate strategy is declared
    outside this file of the repository.  Of a strategy the cost graph reads
    only [resharding_costs]: for each predecessor node, the list of costs
    indexed by the predecessor's own strategy index. *)
Record ShardingStrategy := {
  resharding_costs : gmap Node (list Cost.t);
}.

(** Modelled from the spec: the class [StrategiesVector] is declared outside
    this file of the repository.  It is the ordered list of the candidate
    strategies of [node], with the declared predecessor and successor lists and
    the flag that [check_merge()] returns. *)
Record StrategiesVector := {
  node : Node;
  strategies : list ShardingStrategy;
  predecessor_nodes : list Node;
  successor_nodes : list Node;
  check_merge : bool;
}.

(** ** The cost graph *)

(** The fields of a [CostGraph] object, and the three node attributes it
    works on.  [leaf_strategies] is read by the constructor only, so it is an
    argument of [__init__] and no field here. *)
Record CostGraph := {
  node_lens : gmap Node nat;
  extra_node_costs : gmap Node (list Cost.t);
  following_dict : gmap Node Node;
  simplify : bool;
  edge_costs : gmap (Node * Node) (gmap (Z * Z) Cost.t);
  merge_pair : list (Node * Node);
  strategies_vector : gmap Node (list ShardingStrategy);
  parents : gmap Node (list Node);
  children : gmap Node (list Node);
}.

Definition set_extra_node_costs (X : gmap Node (list Cost.t)) (g : CostGraph) : CostGraph :=
  {| node_lens := node_lens g; extra_node_costs := X;
     following_dict := following_dict g; simplify := simplify g;
     edge_costs := edge_costs g; merge_pair := merge_pair g;
     strategies_vector := strategies_vector g;
     parents := parents g; children := children g |}.

Definition set_following_dict (F : gmap Node Node) (g : CostGraph) : CostGraph :=
  {| node_lens := node_lens g; extra_node_costs := extra_node_costs g;
     following_dict := F; simplify := simplify g;
     edge_costs := edge_costs g; merge_pair := merge_pair g;
     strategies_vector := strategies_vector g;
     parents := parents g; children := children g |}.

Definition set_edge_costs (E : gmap (Node * Node) (gmap (Z * Z) Cost.t)) (g : CostGraph) : CostGraph :=
  {| node_lens := node_lens g; extra_node_costs := extra_node_costs g;
     following_dict := following_dict g; simplify := simplify g;
     edge_costs := E; merge_pair := merge_pair g;
     strategies_vector := strategies_vector g;
     parents := parents g; children := children g |}.

Definition set_merge_pair (q : list (Node * Node)) (g : CostGraph) : CostGraph :=
  {| node_lens := node_lens g; extra_node_costs := extra_node_costs g;
     following_dict := following_dict g; simplify := simplify g;
     edge_costs := edge_costs g; merge_pair := q;
     strategies_vector := strategies_vector g;
     parents := parents g; children := children g |}.

Definition set_parents (P : gmap Node (list Node)) (g : CostGraph) : CostGraph :=
  {| node_lens := node_lens g; extra_node_costs := extra_node_costs g;
     following_dict := following_dict g; simplify := simplify g;
     edge_costs := edge_costs g; merge_pair := merge_pair g;
     strategies_vector := strategies_vector g;
     parents := P; children := children g |}.

Definition set_children (C : gmap Node (list Node)) (g : CostGraph) : CostGraph :=
  {| node_lens := node_lens g; extra_node_costs := extra_node_costs g;
     following_dict := following_dict g; simplify := simplify g;
     edge_costs := edge_costs g; merge_pair := merge_pair g;
     strategies_vector := strategies_vector g;
     parents := parents g; children := C |}.

(** [strategy.resharding_costs[src_node][src_index]] *)
Definition resharding_cost (st : ShardingStrategy) (src : Node) (src_index : nat)
  : result Cost.t :=
  l ← dict_get (resharding_costs st) src;
  list_getitem l (Z.of_nat src_index).

(** *** Construction (lines 20-55) *)

(** Lines 44-47: the matrix of one edge, keyed by
    (predecessor strategy, successor strategy). *)
Definition build_edge_cost (sv_attr : gmap Node (list ShardingStrategy))
    (sv : StrategiesVector) (src : Node) : result (gmap (Z * Z) Cost.t) :=
  foldM (λ edge_cost i,
           src_sv ← getattr sv_attr src;
           foldM (λ edge_cost j,
                    st ← list_getitem (strategies sv) (Z.of_nat i);
                    v ← resharding_cost st src j;
                    Ok (<[(Z.of_nat j, Z.of_nat i) := v]> edge_cost))
                 edge_cost (range (length src_sv)))
        ∅ (range (length (strategies sv))).

(** Lines 38-55: one iteration of the loop over [leaf_strategies]. *)
Definition build_vector (g : CostGraph) (sv : StrategiesVector) : result CostGraph :=
  let dst := node sv in
  E ← foldM (λ E src,
               edge_cost ← build_edge_cost (strategies_vector g) sv src;
               Ok (<[(src, dst) := edge_cost]> E))
            (edge_costs g) (predecessor_nodes sv);
  let g1 := set_children (<[dst := successor_nodes sv]> (children g))
              (set_parents (<[dst := predecessor_nodes sv]> (parents g))
                 (set_edge_costs E g)) in
  if simplify g && check_merge sv
  then Ok (set_merge_pair
             (merge_pair g ++ map (λ followed, (followed, dst)) (predecessor_nodes sv)) g1)
  else Ok g1.

(** Lines 20-28 and 30-37.  [sv_attr] is the [strategies_vector] attribute of
    the nodes, which the caller has set before constructing the graph. *)
Definition __init__ (leaf_strategies : list StrategiesVector) (simplify : bool)
    (sv_attr : gmap Node (list ShardingStrategy)) : result CostGraph :=
  foldM build_vector
    {| node_lens :=
         foldl (λ d sv, <[node sv := length (strategies sv)]> d) ∅ leaf_strategies;
       extra_node_costs := ∅;
       following_dict := ∅;
       simplify := simplify;
       edge_costs := ∅;
       merge_pair := [];
       strategies_vector := sv_attr;
       parents := ∅;
       children := ∅ |}
    leaf_strategies.

(** Lines 57-58. *)
Definition get_edge_cost (g : CostGraph) (src_node dst_node : Node)
  : result (gmap (Z * Z) Cost.t) :=
  dict_get (edge_costs g) (src_node, dst_node).

(** *** [merge_node] (lines 60-140) *)

(** Lines 89-92: the body of the loop over the strategies of [dst_node];
    the accumulator is [(min_cost, lowest_cost_index)]. *)
Definition lowest_cost_step (src : Node) (src_index : nat)
    (acc : Cost.t * Z) (p : nat * ShardingStrategy) : result (Cost.t * Z) :=
  rc ← resharding_cost p.2 src src_index;
  Ok (if Cost.ltb rc acc.1 then (rc, Z.of_nat p.1) else acc).

(** Lines 86-93: the value stored in [merge_map[src_index]]. *)
Definition lowest_cost_index (g : CostGraph) (src dst : Node) (src_index : nat)
  : result Z :=
  dst_sv ← getattr (strategies_vector g) dst;
  r ← foldM (lowest_cost_step src src_index) (Cost.Inf, -1) (enumerate dst_sv);
  Ok r.2.

(** Lines 84-93.  The dictionary [merge_map] has the keys
    [0 .. len(src_node.strategies_vector) - 1]; it is the list of its values. *)
Definition build_merge_map (g : CostGraph) (src dst : Node) : result (list Z) :=
  src_sv ← getattr (strategies_vector g) src;
  mapM (lowest_cost_index g src dst) (range (length src_sv)).

(** [merge_map[i]] *)
Definition merge_map_get (merge_map : list Z) (i : nat) : result Z :=
  match merge_map !! i with
  | Some j => Ok j
  | None => Raise KeyError
  end.

(** [self.extra_node_costs[n][i] += rhs]: the old entry is read before the
    right-hand side is evaluated. *)
Definition extra_iadd (X : gmap Node (list Cost.t)) (n : Node) (i : nat)
    (rhs : result Cost.t) : result (gmap Node (list Cost.t)) :=
  l ← dict_get X n;
  old ← list_getitem l (Z.of_nat i);
  v ← rhs;
  Ok (<[n := <[i := Cost.add old v]> l]> X).

(** Lines 98-102: the body of the second loop over the strategies of
    [src_node]. *)
Definition extra_cost_step (g : CostGraph) (src dst : Node) (merge_map : list Z)
    (X : gmap Node (list Cost.t)) (src_index : nat) : result (gmap Node (list Cost.t)) :=
  target_strate_index ← merge_map_get merge_map src_index;
  dst_sv ← getattr (strategies_vector g) dst;
  target_strategy ← list_getitem dst_sv target_strate_index;
  X1 ← extra_iadd X src src_index (resharding_cost target_strategy src src_index);
  match X1 !! dst with
  | Some dst_extra =>
      extra_iadd X1 src src_index (list_getitem dst_extra target_strate_index)
  | None => Ok X1
  end.

(** Lines 96-102. *)
Definition accrue_extra_costs (g : CostGraph) (src dst : Node) (merge_map : list Z)
  : result (gmap Node (list Cost.t)) :=
  n ← dict_get (node_lens g) src;
  src_sv ← getattr (strategies_vector g) src;
  foldM (extra_cost_step g src dst merge_map)
        (<[src := replicate n Cost.zero]> (extra_node_costs g))
        (range (length src_sv)).

(** Lines 113-115: one entry of the derived matrix. *)
Definition derive_entry (merge_map : list Z)
    (E : gmap (Node * Node) (gmap (Z * Z) Cost.t)) (old_node_pair : Node * Node)
    (i : nat) (edge_cost : gmap (Z * Z) Cost.t) (j : nat)
  : result (gmap (Z * Z) Cost.t) :=
  dst_strate_index ← merge_map_get merge_map i;
  old ← dict_get E old_node_pair;
  v ← dict_get old (dst_strate_index, Z.of_nat j);
  Ok (<[(Z.of_nat i, Z.of_nat j) := v]> edge_cost).

(** Lines 110-115. *)
Definition derive_edge_cost (g : CostGraph) (merge_map : list Z)
    (E : gmap (Node * Node) (gmap (Z * Z) Cost.t))
    (src child : Node) (old_node_pair : Node * Node) : result (gmap (Z * Z) Cost.t) :=
  n_src ← dict_get (node_lens g) src;
  foldM (λ edge_cost i,
           n_child ← dict_get (node_lens g) child;
           foldM (derive_entry merge_map E old_node_pair i) edge_cost (range n_child))
        ∅ (range n_src).

(** Lines 121-122.  Iterating over a dictionary yields its keys, so the
    loop header unpacks each key [(i, j)] into [index_pair = i] and
    [resharding_cost = j]; the body then looks the integer [i] up in
    dictionaries whose keys are pairs, which raises on the first key.  Only an
    empty matrix gets through. *)
Definition accumulate_edge_cost (existing : gmap (Z * Z) Cost.t)
    (E : gmap (Node * Node) (gmap (Z * Z) Cost.t))
  : result (gmap (Node * Node) (gmap (Z * Z) Cost.t)) :=
  if decide (existing = ∅) then Ok E else Raise KeyError.

(** Lines 106-122: the body of the loop over the children of [dst_node]. *)
Definition add_node_pair (g : CostGraph) (merge_map : list Z) (src dst : Node)
    (E : gmap (Node * Node) (gmap (Z * Z) Cost.t)) (child : Node)
  : result (gmap (Node * Node) (gmap (Z * Z) Cost.t)) :=
  let new_node_pair := (src, child) in
  let old_node_pair := (dst, child) in
  match E !! new_node_pair with
  | Some _ => Ok E
  | None =>
      edge_cost ← derive_edge_cost g merge_map E src child old_node_pair;
      match E !! new_node_pair with
      | None => Ok (<[new_node_pair := edge_cost]> E)
      | Some existing => accumulate_edge_cost existing E
      end
  end.

(** Lines 129-137: the body of the second loop over the children of
    [dst_node]. *)
Definition rewire_child (src dst : Node) (g : CostGraph) (child : Node)
  : result CostGraph :=
  src_children ← getattr (children g) src;
  let g1 := set_children (<[src := append_if_absent src_children child]> (children g)) g in
  child_parents ← getattr (parents g1) child;
  let g2 := set_parents (<[child := append_if_absent child_parents src]> (parents g1)) g1 in
  dst_parents ← getattr (parents g2) dst;
  if decide (length dst_parents = 0%nat)
  then
    child_parents ← getattr (parents g2) child;
    child_parents ← list_remove child_parents dst;
    E ← dict_pop (edge_costs g2) (dst, child);
    Ok (set_edge_costs E (set_parents (<[child := child_parents]> (parents g2)) g2))
  else Ok g2.

Definition merge_node (g : CostGraph) (src dst : Node) : result CostGraph :=
  (* line 82 *)
  dst_parents ← getattr (parents g) dst;
  _ ← list_index dst_parents src;
  (* lines 84-93 *)
  merge_map ← build_merge_map g src dst;
  (* lines 96-102 *)
  X ← accrue_extra_costs g src dst merge_map;
  (* lines 105-122 *)
  dst_children ← getattr (children g) dst;
  E ← foldM (add_node_pair g merge_map src dst) (edge_costs g) dst_children;
  (* lines 125-127 *)
  dst_parents ← list_remove dst_parents src;
  let P := <[dst := dst_parents]> (parents g) in
  src_children ← getattr (children g) src;
  src_children ← list_remove src_children dst;
  let C := <[src := src_children]> (children g) in
  E ← dict_pop E (src, dst);
  let g1 := set_children C (set_parents P (set_edge_costs E (set_extra_node_costs X g))) in
  (* lines 128-137 *)
  dst_children ← getattr (children g1) dst;
  g2 ← foldM (rewire_child src dst) g1 dst_children;
  (* lines 138-140 *)
  dst_parents ← getattr (parents g2) dst;
  if decide (length dst_parents = 0%nat)
  then Ok (set_children (<[dst := []]> (children g2))
             (set_following_dict (<[dst := src]> (following_dict g2)) g2))
  else Ok g2.

(** *** The driver (lines 142-157) *)

(** Lines 142-145.  [depth] is the number of frames the interpreter still
    allows; a chain that needs more raises [RecursionError]. *)
Fixpoint _reindexing_src (depth : nat) (F : gmap Node Node) (src : Node) : result Node :=
  match depth with
  | O => Raise RecursionError
  | S depth' =>
      match F !! src with
      | None => Ok src
      | Some src' => _reindexing_src depth' F src'
      end
  end.

(** Lines 154-156.  The keys of a dictionary are distinct, so the order in
    which [items()] is walked does not show in the dictionary built. *)
Definition reindex_following_dict (depth : nat) (F : gmap Node Node)
  : result (gmap Node Node) :=
  foldM (λ reindexing_following_dict p,
           r ← _reindexing_src depth F p.2;
           Ok (<[p.1 := r]> reindexing_following_dict))
        ∅ (map_to_list F).

(** Lines 147-157. *)
Definition simplify_graph (depth : nat) (g : CostGraph) : result CostGraph :=
  if negb (simplify g) then Ok g
  else
    let g1 := set_merge_pair (reverse (merge_pair g)) g in
    g2 ← foldM (λ g p, merge_node g p.1 p.2) g1 (merge_pair g1);
    let g3 := set_merge_pair (reverse (merge_pair g2)) g2 in
    F ← reindex_following_dict depth (following_dict g3);
    Ok (set_following_dict F g3).

(** * Vocabulary of the statements *)

(** The entry the code compares and charges:
    [dst_node.strategies_vector[dst_index].resharding_costs[src_node][src_index]]. *)
Definition cost_entry (g : CostGraph) (src dst : Node) (src_index : nat) (dst_index : Z)
  : result Cost.t :=
  dst_sv ← getattr (strategies_vector g) dst;
  dst_strategy ← list_getitem dst_sv dst_index;
  resharding_cost dst_strategy src src_index.

(** The cost of pairing strategy [src_index] of [src] with strategy [j] of
    the destination. *)
Definition entry (src : Node) (src_index : nat) (dst_sv : list ShardingStrategy)
    (j : nat) : result Cost.t :=
  match dst_sv !! j with
  | Some s => resharding_cost s src src_index
  | None => Raise IndexError
  end.

(** What the inner loop has established after looking at the first [k]
    destination strategies. *)
Definition selected (src : Node) (src_index : nat) (dst_sv : list ShardingStrategy)
    (k : nat) (acc : Cost.t * Z) : Prop :=
  (acc = (Cost.Inf, -1) ∧
   ∀ j, (j < k)%nat → entry src src_index dst_sv j = Ok Cost.Inf) ∨
  (∃ (j : nat) (z : Z),
      acc = (Cost.Fin z, Z.of_nat j) ∧ (j < k)%nat ∧
      entry src src_index dst_sv j = Ok (Cost.Fin z) ∧
      (∀ j' c, (j' < k)%nat → entry src src_index dst_sv j' = Ok c →
               Cost.ltb c (Cost.Fin z) = false) ∧
      (∀ j' c, (j' < j)%nat → entry src src_index dst_sv j' = Ok c →
               Cost.ltb (Cost.Fin z) c = true) ∧
      (∀ j', (j' < k)%nat → ∃ c, entry src src_index dst_sv j' = Ok c)).

(** [j] is the lowest destination strategy index at which row [i] of the
    edge ([src], [dst]) is minimal. *)
Definition lowest_minimiser (g : CostGraph) (src dst : Node) (i : nat) (j : Z) : Prop :=
  ∃ (dst_sv : list ShardingStrategy) (n : nat) (c : Cost.t),
    strategies_vector g !! dst = Some dst_sv ∧
    j = Z.of_nat n ∧ (n < length dst_sv)%nat ∧
    cost_entry g src dst i j = Ok c ∧
    (∀ j' c', (j' < length dst_sv)%nat →
              cost_entry g src dst i (Z.of_nat j') = Ok c' → Cost.leb c c' = true) ∧
    (∀ j' c', (j' < n)%nat →
              cost_entry g src dst i (Z.of_nat j') = Ok c' → Cost.ltb c c' = true).

(** Row [i] has an entry below the infeasible value. *)
Definition feasible_row (g : CostGraph) (src dst : Node) (i : nat) : Prop :=
  ∃ (dst_sv : list ShardingStrategy) (j : nat) (c : Cost.t),
    strategies_vector g !! dst = Some dst_sv ∧ (j < length dst_sv)%nat ∧
    cost_entry g src dst i (Z.of_nat j) = Ok c ∧ Cost.ltb c Cost.Inf = true.

(** The cost charged to strategy [i] of [src]: the entry the merge map
    selects, plus what [dst] had accrued at the selected strategy. *)
Definition accrued (g : CostGraph) (src dst : Node) (mm : list Z)
    (dst_extra : option (list Cost.t)) (i : nat) (v : Cost.t) : Prop :=
  ∃ (j : Z) (c : Cost.t),
    mm !! i = Some j ∧ cost_entry g src dst i j = Ok c ∧
    match dst_extra with
    | None => v = c
    | Some l => ∃ e, list_getitem l j = Ok e ∧ v = Cost.add c e
    end.

(** The graph after lines 125-127. *)
Definition detached (g : CostGraph) (src dst : Node) (X : gmap Node (list Cost.t))
    (E : gmap (Node * Node) (gmap (Z * Z) Cost.t)) (dst_parents src_children : list Node)
  : CostGraph :=
  set_children (<[src := src_children]> (children g))
    (set_parents (<[dst := dst_parents]> (parents g))
       (set_edge_costs E (set_extra_node_costs X g))).

(** The graph after lines 139-140. *)
Definition absorbed (g : CostGraph) (src dst : Node) : CostGraph :=
  set_children (<[dst := []]> (children g))
    (set_following_dict (<[dst := src]> (following_dict g)) g).

(** What no stage of a merge writes. *)
Definition same_registry (g g' : CostGraph) : Prop :=
  node_lens g' = node_lens g ∧ strategies_vector g' = strategies_vector g ∧
  simplify g' = simplify g ∧ merge_pair g' = merge_pair g.

(** Lines 151-152: the replay of a list of merge pairs. *)
Definition replay (g : CostGraph) (pairs : list (Node * Node)) : result CostGraph :=
  foldM (λ g p, merge_node g p.1 p.2) g pairs.

(** A node is live when it has strategies and the ledger does not record it
    as absorbed. *)
Definition live (g : CostGraph) (n : Node) : Prop :=
  is_Some (node_lens g !! n) ∧ following_dict g !! n = None.

(** One record of the ledger: [a] was absorbed into [b]. *)
Definition follows (F : gmap Node Node) (a b : Node) : Prop := F !! a = Some b.

(** No node is absorbed, directly or through a chain, into itself. *)
Definition acyclic (F : gmap Node Node) : Prop := ∀ a, ¬ tc (follows F) a a.

(** [t] is where following the records from [a] ends. *)
Definition terminal (F : gmap Node Node) (a t : Node) : Prop :=
  rtc (follows F) a t ∧ F !! t = None.

(** Entry [(i, j)] of a derived matrix is the entry of the old edge at
    [(merge_map[i], j)]. *)
Definition derived_entry (mm : list Z) (E : gmap (Node * Node) (gmap (Z * Z) Cost.t))
    (old_node_pair : Node * Node) (edge_cost : gmap (Z * Z) Cost.t) (i j : nat) : Prop :=
  ∃ (dst_index : Z) (old : gmap (Z * Z) Cost.t) (v : Cost.t),
    mm !! i = Some dst_index ∧ E !! old_node_pair = Some old ∧
    old !! (dst_index, Z.of_nat j) = Some v ∧
    edge_cost !! (Z.of_nat i, Z.of_nat j) = Some v.

(** What the loop has done to the parents [cp] of a child it has visited:
    [src] is among them, and [dst] is gone when [dst] has no parent left. *)
Definition rewired_parents (src dst : Node) (dst_parents cp cp' : list Node) : Prop :=
  (NoDup cp → NoDup cp') ∧
  (∀ y, y ∈ cp' → y ∈ cp ∨ y = src) ∧
  (∀ y, y ∈ cp ∨ y = src → (dst_parents = [] → y ≠ dst) → y ∈ cp') ∧
  (dst_parents = [] → dst ∈ cp ∧ (NoDup cp → dst ∉ cp')).

(** The state of the loop of lines 128-137 after the children [done]. *)
Definition rewired (src dst : Node) (dst_parents src_children : list Node)
    (g1 : CostGraph) (done : list Node) (s : CostGraph) : Prop :=
  same_registry g1 s ∧
  extra_node_costs s = extra_node_costs g1 ∧
  following_dict s = following_dict g1 ∧
  parents s !! dst = Some dst_parents ∧
  (∃ sc, children s = <[src := sc]> (children g1) ∧
         (∀ x, x ∈ sc ↔ x ∈ src_children ∨ x ∈ done) ∧
         (NoDup src_children → NoDup sc)) ∧
  (∀ n, n ≠ dst → n ∉ done → parents s !! n = parents g1 !! n) ∧
  (∀ n, n ∈ done →
        ∃ cp cp', parents g1 !! n = Some cp ∧ parents s !! n = Some cp' ∧
                  rewired_parents src dst dst_parents cp cp') ∧
  (dst_parents ≠ [] → edge_costs s = edge_costs g1) ∧
  (dst_parents = [] →
   (∀ c, c ∈ done → is_Some (edge_costs g1 !! (dst, c)) ∧ edge_costs s !! (dst, c) = None) ∧
   (∀ k, (∀ c, c ∈ done → k ≠ (dst, c)) → edge_costs s !! k = edge_costs g1 !! k)).

(** The sum of [h] over a list, as a number: the claims speak of sums of
    costs, which no order of summation changes. *)
Definition lsum {A : Type} (h : A → Cost.t) (l : list A) : Cost.t :=
  foldr (λ x acc, Cost.plus (h x) acc) Cost.zero l.

(** The sum of [f] over the items of a dictionary. *)
Definition msum `{Countable K} {V : Type} (f : K → V → Cost.t) (m : gmap K V) : Cost.t :=
  lsum (λ p, f p.1 p.2) (map_to_list m).

(** What an item contributes if it is there. *)
Definition term `{Countable K} {V : Type} (f : K → V → Cost.t) (m : gmap K V) (k : K)
  : Cost.t :=
  from_option (f k) Cost.zero (m !! k).

(** An assignment gives every node the index of one of its strategies. *)
Definition valid_assignment (g : CostGraph) (s : Node → nat) : Prop :=
  map_Forall (λ n k, (s n < k)%nat) (node_lens g).

(** The entry of an edge matrix that the assignment selects; an entry the
    matrix does not hold counts for nothing. *)
Definition edge_term (s : Node → nat) (k : Node * Node) (m : gmap (Z * Z) Cost.t) : Cost.t :=
  default Cost.zero (m !! (Z.of_nat (s k.1), Z.of_nat (s k.2))).

(** The sum of the selected entries over the edges of the table. *)
Definition edge_sum (g : CostGraph) (s : Node → nat) : Cost.t :=
  msum (edge_term s) (edge_costs g).

(** The extra cost of a node under the assignment.  The extra cost of an
    absorbed node has been added to that of the node that absorbed it (line
    102), so only the nodes the ledger does not record are charged. *)
Definition extra_term (F : gmap Node Node) (s : Node → nat) (n : Node) (l : list Cost.t)
  : Cost.t :=
  match F !! n with
  | Some _ => Cost.zero
  | None => default Cost.zero (l !! s n)
  end.

Definition extra_sum (g : CostGraph) (s : Node → nat) : Cost.t :=
  msum (extra_term (following_dict g) s) (extra_node_costs g).

Definition total_cost (g : CostGraph) (s : Node → nat) : Cost.t :=
  Cost.plus (edge_sum g s) (extra_sum g s).

(** The assignment gives [dst] the strategy that the merge map of
    ([src], [dst]) selects for the strategy of [src]. *)
Definition follows_merge_map (g : CostGraph) (s : Node → nat) (src dst : Node) : Prop :=
  ∃ mm, build_merge_map g src dst = Ok mm ∧ mm !! s src = Some (Z.of_nat (s dst)).

#[global] Instance exn_eq_dec : EqDecision exn.
Proof. solve_decision. Defined.

#[global] Instance result_eq_dec {A : Type} `{EqDecision A} : EqDecision (result A).
Proof. solve_decision. Defined.

(** The matrix of the edge ([src], [dst]) holds the costs of the registry. *)
Definition agrees (g : CostGraph) (src dst : Node) : bool :=
  match strategies_vector g !! src, strategies_vector g !! dst, edge_costs g !! (src, dst) with
  | Some src_sv, Some dst_sv, Some m =>
      forallb (λ i,
                 forallb (λ j,
                            bool_decide (cost_entry g src dst i (Z.of_nat j)
                                         = dict_get m (Z.of_nat i, Z.of_nat j)))
                         (range (length dst_sv)))
              (range (length src_sv))
  | _, _, _ => false
  end.

(** The children of [dst] are distinct, [dst] is not among them, and none of
    them has an edge from [src]. *)
Definition unshared_children (g : CostGraph) (src dst : Node) : bool :=
  match children g !! dst with
  | Some dst_children =>
      bool_decide (dst ∉ dst_children) && bool_decide (NoDup dst_children) &&
      forallb (λ c, bool_decide (edge_costs g !! (src, c) = None)) dst_children
  | None => false
  end.

(** The additions of line 102 are exact: for every strategy index of [src],
    the float sum of the entry charged and of what [dst] had accrued at the
    selected strategy is their sum as numbers. *)
Definition exact_accrual (g : CostGraph) (src dst : Node) : bool :=
  match extra_node_costs g !! dst with
  | None => true
  | Some dst_extra =>
      match build_merge_map g src dst with
      | Ok mm =>
          forallb (λ i, match merge_map_get mm i with
                        | Ok j =>
                            match cost_entry g src dst i j, list_getitem dst_extra j with
                            | Ok c, Ok e => bool_decide (Cost.add c e = Cost.plus c e)
                            | _, _ => false
                            end
                        | Raise _ => false
                        end)
                  (range (length mm))
      | Raise _ => false
      end
  end.

(** A merge that keeps the total cost: [src] is the only parent of [dst],
    neither is absorbed, [src] has accrued no extra cost yet (line 96 would
    discard it), [src] and [dst] share no child (line 108 would drop the
    derived entries), [node_lens] and the matrix of the merged edge are those
    of the registry, and the additions of line 102 are exact. *)
Definition clean_merge (g : CostGraph) (src dst : Node) : bool :=
  bool_decide (src ≠ dst) &&
  bool_decide (parents g !! dst = Some [src]) &&
  bool_decide (extra_node_costs g !! src = None) &&
  bool_decide (following_dict g !! src = None) &&
  bool_decide (following_dict g !! dst = None) &&
  unshared_children g src dst &&
  bool_decide (node_lens g !! src = length <$> (strategies_vector g !! src)) &&
  agrees g src dst &&
  exact_accrual g src dst.

(** Every merge of the replay is clean in the graph it is applied to. *)
Fixpoint clean_replay (g : CostGraph) (pairs : list (Node * Node)) : bool :=
  match pairs with
  | [] => true
  | p :: pairs' =>
      clean_merge g p.1 p.2 &&
      match merge_node g p.1 p.2 with
      | Ok g1 => clean_replay g1 pairs'
      | Raise _ => false
      end
  end.

(** [b] is a child of [a] in the current graph. *)
Definition adjacent (g : CostGraph) (a b : Node) : Prop :=
  ∃ l, children g !! a = Some l ∧ b ∈ l.

(** The edge table has a matrix for exactly the adjacent pairs, no node is
    listed twice among the children of another, and [r] numbers the nodes
    along the edges (so the graph is acyclic). *)
Definition well_formed (r : Node → nat) (g : CostGraph) : Prop :=
  (∀ a b, is_Some (edge_costs g !! (a, b)) ↔ adjacent g a b) ∧
  (∀ a l, children g !! a = Some l → NoDup l) ∧
  (∀ a b, adjacent g a b → (r a < r b)%nat).

(** The registry declares each node once, with distinct successors that come
    later in the numbering [r], and its predecessor and successor lists
    describe the same edges. *)
Definition registry_ok (r : Node → nat) (ls : list StrategiesVector) : Prop :=
  NoDup (node <$> ls) ∧
  Forall (λ sv,
            NoDup (successor_nodes sv) ∧
            Forall (λ b, (r (node sv) < r b)%nat ∧
                         Exists (λ sv', node sv' = b ∧ node sv ∈ predecessor_nodes sv') ls)
                   (successor_nodes sv) ∧
            Forall (λ a, Exists (λ sv0, node sv0 = a ∧ node sv ∈ successor_nodes sv0) ls)
                   (predecessor_nodes sv))
         ls.

(** The merge pairs in the order in which the construction discovers them
    (lines 53-55): for each vector that can be merged, one pair per
    predecessor, in the order of the predecessor list. *)
Definition discovered (ls : list StrategiesVector) : list (Node * Node) :=
  concat ((λ sv, if check_merge sv
                 then (λ followed, (followed, node sv)) <$> predecessor_nodes sv
                 else []) <$> ls).

(** The parent lists mirror the child lists, and no node is listed twice
    among the parents of another. *)
Definition mirrored (g : CostGraph) : Prop :=
  (∀ a b, adjacent g a b ↔ ∃ l, parents g !! b = Some l ∧ a ∈ l) ∧
  (∀ b l, parents g !! b = Some l → NoDup l).

(** ** Sample registries

    Small registries on which the statements below are evaluated. *)

Module Samples.

Definition strategy (costs : list (Node * list Cost.t)) : ShardingStrategy :=
  {| resharding_costs := list_to_map costs |}.

(** The [strategies_vector] attribute of each node is its own vector. *)
Definition attributes (l : list StrategiesVector) : gmap Node (list ShardingStrategy) :=
  list_to_map (map (λ sv, (node sv, strategies sv)) l).

Definition no_graph : CostGraph :=
  {| node_lens := ∅; extra_node_costs := ∅; following_dict := ∅; simplify := false;
     edge_costs := ∅; merge_pair := []; strategies_vector := ∅;
     parents := ∅; children := ∅ |}.

Definition the_graph (r : result CostGraph) : CostGraph :=
  match r with
  | Ok g => g
  | Raise _ => no_graph
  end.

Definition construct (l : list StrategiesVector) : CostGraph :=
  the_graph (__init__ l true (attributes l)).

(** The chain 0 -> 1 -> 2 with two strategies per node; node 1 follows
    node 0. *)
Definition chain : list StrategiesVector :=
  [ {| node := 0%nat; strategies := [strategy []; strategy []];
       predecessor_nodes := []; successor_nodes := [1%nat]; check_merge := false |};
    {| node := 1%nat;
       strategies := [strategy [(0%nat, [Cost.Fin 5; Cost.Fin 1])];
                      strategy [(0%nat, [Cost.Fin 2; Cost.Fin 7])]];
       predecessor_nodes := [0%nat]; successor_nodes := [2%nat]; check_merge := true |};
    {| node := 2%nat;
       strategies := [strategy [(1%nat, [Cost.Fin 10; Cost.Fin 20])];
                      strategy [(1%nat, [Cost.Fin 30; Cost.Fin 40])]];
       predecessor_nodes := [1%nat]; successor_nodes := []; check_merge := false |} ].

(** The same chain where node 2 follows node 1 as well. *)
Definition chain2 : list StrategiesVector :=
  [ {| node := 0%nat; strategies := [strategy []; strategy []];
       predecessor_nodes := []; successor_nodes := [1%nat]; check_merge := false |};
    {| node := 1%nat;
       strategies := [strategy [(0%nat, [Cost.Fin 5; Cost.Fin 1])];
                      strategy [(0%nat, [Cost.Fin 2; Cost.Fin 7])]];
       predecessor_nodes := [0%nat]; successor_nodes := [2%nat]; check_merge := true |};
    {| node := 2%nat;
       strategies := [strategy [(1%nat, [Cost.Fin 10; Cost.Fin 20])];
                      strategy [(1%nat, [Cost.Fin 30; Cost.Fin 40])]];
       predecessor_nodes := [1%nat]; successor_nodes := []; check_merge := true |} ].

(** [chain2] after the merge of (1, 2), and then of (0, 1). *)
Definition chain2_merged_12 : CostGraph :=
  the_graph (merge_node (construct chain2) 1 2).
Definition chain2_merged_01 : CostGraph :=
  the_graph (merge_node chain2_merged_12 0 1).

(** The edge 0 -> 1 where strategy 0 of node 0 is infeasible against both
    strategies of node 1. *)
Definition infeasible : list StrategiesVector :=
  [ {| node := 0%nat; strategies := [strategy []; strategy []];
       predecessor_nodes := []; successor_nodes := [1%nat]; check_merge := false |};
    {| node := 1%nat;
       strategies := [strategy [(0%nat, [Cost.Inf; Cost.Fin 4])];
                      strategy [(0%nat, [Cost.Inf; Cost.Fin 3])]];
       predecessor_nodes := [0%nat]; successor_nodes := []; check_merge := true |} ].

(** The triangle 0 -> 1, 0 -> 2, 1 -> 2 with one strategy per node: node 2
    is a child of both ends of the merged edge (0, 1). *)
Definition triangle : list StrategiesVector :=
  [ {| node := 0%nat; strategies := [strategy []];
       predecessor_nodes := []; successor_nodes := [1%nat; 2%nat]; check_merge := false |};
    {| node := 1%nat; strategies := [strategy [(0%nat, [Cost.Fin 1])]];
       predecessor_nodes := [0%nat]; successor_nodes := [2%nat]; check_merge := true |};
    {| node := 2%nat;
       strategies := [strategy [(0%nat, [Cost.Fin 3]); (1%nat, [Cost.Fin 5])]];
       predecessor_nodes := [0%nat; 1%nat]; successor_nodes := []; check_merge := false |} ].

(** The fan-in 0 -> 2, 1 -> 2, 2 -> 3 with one strategy per node: node 2
    follows both of its predecessors. *)
Definition fan_in : list StrategiesVector :=
  [ {| node := 0%nat; strategies := [strategy []];
       predecessor_nodes := []; successor_nodes := [2%nat]; check_merge := false |};
    {| node := 1%nat; strategies := [strategy []];
       predecessor_nodes := []; successor_nodes := [2%nat]; check_merge := false |};
    {| node := 2%nat;
       strategies := [strategy [(0%nat, [Cost.Fin 1]); (1%nat, [Cost.Fin 1])]];
       predecessor_nodes := [0%nat; 1%nat]; successor_nodes := [3%nat]; check_merge := true |};
    {| node := 3%nat; strategies := [strategy [(2%nat, [Cost.Fin 5])]];
       predecessor_nodes := [2%nat]; successor_nodes := []; check_merge := false |} ].

(** The chain 0 -> 1 -> 2 -> 3 with two strategies per node, where nodes 1
    and 2 follow their producers and node 3 stays. *)
Definition chain3 : list StrategiesVector :=
  [ {| node := 0%nat; strategies := [strategy []; strategy []];
       predecessor_nodes := []; successor_nodes := [1%nat]; check_merge := false |};
    {| node := 1%nat;
       strategies := [strategy [(0%nat, [Cost.Fin 5; Cost.Fin 1])];
                      strategy [(0%nat, [Cost.Fin 2; Cost.Fin 7])]];
       predecessor_nodes := [0%nat]; successor_nodes := [2%nat]; check_merge := true |};
    {| node := 2%nat;
       strategies := [strategy [(1%nat, [Cost.Fin 10; Cost.Fin 20])];
                      strategy [(1%nat, [Cost.Fin 30; Cost.Fin 40])]];
       predecessor_nodes := [1%nat]; successor_nodes := [3%nat]; check_merge := true |};
    {| node := 3%nat;
       strategies := [strategy [(2%nat, [Cost.Fin 100; Cost.Fin 200])];
                      strategy [(2%nat, [Cost.Fin 300; Cost.Fin 400])]];
       predecessor_nodes := [2%nat]; successor_nodes := []; check_merge := false |} ].

(** The fan-out 0 -> 1, 0 -> 2 with one strategy per node: both consumers
    follow node 0. *)
Definition fan_out : list StrategiesVector :=
  [ {| node := 0%nat; strategies := [strategy []];
       predecessor_nodes := []; successor_nodes := [1%nat; 2%nat]; check_merge := false |};
    {| node := 1%nat; strategies := [strategy [(0%nat, [Cost.Fin 1])]];
       predecessor_nodes := [0%nat]; successor_nodes := []; check_merge := true |};
    {| node := 2%nat; strategies := [strategy [(0%nat, [Cost.Fin 3])]];
       predecessor_nodes := [0%nat]; successor_nodes := []; check_merge := true |} ].

(** The chain 0 -> 1 -> 2 with one strategy per node and the costs 2^53 and
    1, whose sum is no float. *)
Definition large_chain : list StrategiesVector :=
  [ {| node := 0%nat; strategies := [strategy []];
       predecessor_nodes := []; successor_nodes := [1%nat]; check_merge := false |};
    {| node := 1%nat; strategies := [strategy [(0%nat, [Cost.Fin (2 ^ 53)])]];
       predecessor_nodes := [0%nat]; successor_nodes := [2%nat]; check_merge := true |};
    {| node := 2%nat; strategies := [strategy [(1%nat, [Cost.Fin 1])]];
       predecessor_nodes := [1%nat]; successor_nodes := []; check_merge := true |} ].

(** The graph of a registry after [simplify_graph]. *)
Definition simplified (l : list StrategiesVector) : CostGraph :=
  the_graph (simplify_graph 100 (construct l)).

End Samples.

(** * Properties *)

(** ** The [result] monad and the loops *)

Lemma bind_Ok {A B : Type} (m : result A) (f : A → result B) (b : B) :
  m ≫= f = Ok b ↔ ∃ a, m = Ok a ∧ f a = Ok b.
Proof.
  destruct m as [a|e]; simpl; split.
  - eauto.
  - by intros (a' & [= ->] & ?).
  - done.
  - by intros (a' & ? & ?).
Qed.

Lemma fmap_Ok {A B : Type} (f : A → B) (m : result A) (b : B) :
  f <$> m = Ok b ↔ ∃ a, m = Ok a ∧ b = f a.
Proof.
  destruct m as [a|e]; simpl; split.
  - intros [= <-]. eauto.
  - by intros (a' & [= ->] & ->).
  - done.
  - by intros (a' & ? & ?).
Qed.

Lemma dict_get_Ok `{Countable K} {A : Type} (d : gmap K A) (k : K) (v : A) :
  dict_get d k = Ok v ↔ d !! k = Some v.
Proof. unfold dict_get. destruct (d !! k); naive_solver. Qed.

Lemma dict_pop_Ok `{Countable K} {A : Type} (d d' : gmap K A) (k : K) :
  dict_pop d k = Ok d' ↔ is_Some (d !! k) ∧ d' = delete k d.
Proof.
  unfold dict_pop. destruct (d !! k) eqn:E.
  - split; [intros [= <-]; eauto | by intros [_ ->]].
  - split; [done | by intros [[? ?] _]].
Qed.

Lemma getattr_Ok {A : Type} (store : gmap nat A) (n : nat) (v : A) :
  getattr store n = Ok v ↔ store !! n = Some v.
Proof. unfold getattr. destruct (store !! n); naive_solver. Qed.

Lemma merge_map_get_Ok (merge_map : list Z) (i : nat) (j : Z) :
  merge_map_get merge_map i = Ok j ↔ merge_map !! i = Some j.
Proof. unfold merge_map_get. destruct (merge_map !! i); naive_solver. Qed.

(** Takes a successful computation apart, bind by bind. *)
Ltac inv_ok :=
  repeat match goal with
    | H : Ok _ = Ok _ |- _ => injection H as H; try subst
    | H : Raise _ = Ok _ |- _ => discriminate H
    | H : mret _ = Ok _ |- _ => injection H as H; try subst
    | H : _ ≫= _ = Ok _ |- _ =>
        let a := fresh "a" in
        let Ha := fresh "Ha" in
        apply bind_Ok in H as (a & Ha & H)
    | H : _ <$> _ = Ok _ |- _ =>
        let a := fresh "a" in
        let Ha := fresh "Ha" in
        apply fmap_Ok in H as (a & Ha & H)
    | H : dict_get _ _ = Ok _ |- _ => apply dict_get_Ok in H
    | H : getattr _ _ = Ok _ |- _ => apply getattr_Ok in H
    | H : merge_map_get _ _ = Ok _ |- _ => apply merge_map_get_Ok in H
    | H : dict_pop _ _ = Ok _ |- _ =>
        let Hs := fresh "Hs" in apply dict_pop_Ok in H as [Hs H]
    end.

Section loops.
Context {S A : Type} (f : S → A → result S).

Lemma foldM_app (s : S) (l1 l2 : list A) :
  foldM f s (l1 ++ l2) = s' ← foldM f s l1; foldM f s' l2.
Proof.
  revert s. induction l1 as [|x l1 IH]; intros s; simpl; [done|].
  destruct (f s x) as [s1|e]; simpl; [apply IH | done].
Qed.

(** A property kept by every successful iteration holds after the loop. *)
Lemma foldM_invariant (P : S → Prop) (l : list A) (s s' : S) :
  (∀ s1 s2 x, x ∈ l → P s1 → f s1 x = Ok s2 → P s2) →
  P s → foldM f s l = Ok s' → P s'.
Proof.
  revert s. induction l as [|x l IH]; intros s Hstep Hs Hl; simpl in Hl.
  - by injection Hl as <-.
  - apply bind_Ok in Hl as (s1 & Hx & Hl).
    apply (IH s1); [| |done].
    + intros s2 s3 y Hy. apply Hstep. by right.
    + eapply Hstep; [|done..]. by left.
Qed.

End loops.

Lemma mapM_Ok_length {A B : Type} (f : A → result B) (l : list A) (k : list B) :
  mapM f l = Ok k → length k = length l.
Proof.
  revert k. induction l as [|x l IH]; intros k Hk; simpl in Hk.
  - by injection Hk as <-.
  - inv_ok. simpl. f_equal. by apply IH.
Qed.

Lemma mapM_Ok_lookup {A B : Type} (f : A → result B) (l : list A) (k : list B)
    (i : nat) (x : A) :
  mapM f l = Ok k → l !! i = Some x → ∃ y, k !! i = Some y ∧ f x = Ok y.
Proof.
  revert k i. induction l as [|x' l IH]; intros k i Hk Hi; [done|].
  simpl in Hk. inv_ok. destruct i as [|i]; simpl in *.
  - injection Hi as ->. eauto.
  - by apply IH.
Qed.

Lemma range_lookup (n i : nat) : (i < n)%nat → range n !! i = Some i.
Proof. intros Hi. unfold range. by rewrite lookup_seq_lt. Qed.

Lemma elem_of_range (n i : nat) : i ∈ range n ↔ (i < n)%nat.
Proof. unfold range. rewrite elem_of_seq. lia. Qed.

(** ** Python lists *)

Lemma list_getitem_nat {A : Type} (l : list A) (j : nat) (v : A) :
  list_getitem l (Z.of_nat j) = Ok v ↔ l !! j = Some v.
Proof.
  unfold list_getitem. cbv zeta.
  destruct (Z.ltb_spec (Z.of_nat j) 0) as [?|_]; [lia|].
  rewrite Nat2Z.id.
  destruct (Z.leb_spec 0 (Z.of_nat j)) as [_|?]; [|lia].
  destruct (Z.ltb_spec (Z.of_nat j) (Z.of_nat (length l))) as [Hlt|Hge]; simpl.
  - destruct (l !! j); naive_solver.
  - rewrite (lookup_ge_None_2 l j) by lia. naive_solver.
Qed.

(** Index [-1] reads the last element. *)
Lemma list_getitem_minus_one {A : Type} (l : list A) (v : A) :
  list_getitem l (-1) = Ok v ↔ last l = Some v.
Proof.
  unfold list_getitem. cbv zeta. rewrite last_lookup.
  destruct (Z.ltb_spec (-1) 0) as [_|?]; [|lia].
  destruct l as [|x l]; [done|].
  replace (-1 + Z.of_nat (length (x :: l))) with (Z.of_nat (length l))
    by (simpl length; lia).
  rewrite Nat2Z.id.
  destruct (Z.leb_spec 0 (Z.of_nat (length l))) as [_|?]; [|lia].
  destruct (Z.ltb_spec (Z.of_nat (length l)) (Z.of_nat (length (x :: l)))) as [_|Hge];
    [|simpl length in Hge; lia].
  simpl. destruct ((x :: l) !! length l); naive_solver.
Qed.

(** ** Costs *)

Lemma cost_add_zero_l (c : Cost.t) : Cost.add Cost.zero c = c.
Proof. by destruct c. Qed.

Lemma cost_plus_zero_l (c : Cost.t) : Cost.plus Cost.zero c = c.
Proof. by destruct c. Qed.

Lemma cost_plus_comm (a b : Cost.t) : Cost.plus a b = Cost.plus b a.
Proof. destruct a, b; simpl; f_equal; lia. Qed.

Lemma cost_plus_assoc (a b c : Cost.t) :
  Cost.plus a (Cost.plus b c) = Cost.plus (Cost.plus a b) c.
Proof. destruct a, b, c; simpl; f_equal; lia. Qed.

Lemma cost_ltb_Inf (c : Cost.t) : Cost.ltb c Cost.Inf = true ↔ c ≠ Cost.Inf.
Proof. destruct c; naive_solver. Qed.

(** ** Merge-map selection (lines 84-93) *)

Section selection.
Variables (src : Node) (src_index : nat) (dst_sv : list ShardingStrategy).

Lemma selected_step (k : nat) (s : ShardingStrategy) (acc acc' : Cost.t * Z) :
  dst_sv !! k = Some s →
  selected src src_index dst_sv k acc →
  lowest_cost_step src src_index acc (k, s) = Ok acc' →
  selected src src_index dst_sv (Datatypes.S k) acc'.
Proof.
  intros Hk Hacc Hstep. unfold lowest_cost_step in Hstep. simpl in Hstep. inv_ok.
  assert (Hek : entry src src_index dst_sv k = Ok a) by (unfold entry; by rewrite Hk).
  destruct Hacc as [[-> Hall] | (j & z & -> & Hj & Hej & Hmin & Hfirst & Hdef)]; simpl.
  - destruct a as [y|]; simpl.
    + right. exists k, y. split_and!; [done | lia | done | | | ].
      * intros j' c Hj' Hc. destruct (decide (j' = k)) as [->|].
        -- rewrite Hek in Hc. injection Hc as <-. simpl. apply Z.ltb_irrefl.
        -- rewrite Hall in Hc by lia. by injection Hc as <-.
      * intros j' c Hj' Hc. rewrite Hall in Hc by lia. by injection Hc as <-.
      * intros j' Hj'. destruct (decide (j' = k)) as [->|]; [eauto|].
        exists Cost.Inf. apply Hall. lia.
    + left. split; [done|]. intros j' Hj'.
      destruct (decide (j' = k)) as [->|]; [done | apply Hall; lia].
  - destruct (Cost.ltb a (Cost.Fin z)) eqn:Hlt.
    + destruct a as [y|]; [|done]. simpl in Hlt. apply Z.ltb_lt in Hlt.
      right. exists k, y. split_and!; [done | lia | done | | | ].
      * intros j' c Hj' Hc. destruct (decide (j' = k)) as [->|].
        -- rewrite Hek in Hc. injection Hc as <-. simpl. apply Z.ltb_irrefl.
        -- assert (Hjk : (j' < k)%nat) by lia.
           specialize (Hmin j' c Hjk Hc). destruct c as [x|]; [|done].
           simpl in *. apply Z.ltb_ge in Hmin. apply Z.ltb_ge. lia.
      * intros j' c Hj' Hc. specialize (Hmin j' c Hj' Hc).
        destruct c as [x|]; [|done].
        simpl in *. apply Z.ltb_ge in Hmin. apply Z.ltb_lt. lia.
      * intros j' Hj'. destruct (decide (j' = k)) as [->|]; [eauto|].
        apply Hdef. lia.
    + right. exists j, z. split_and!; [done | lia | done | | done | ].
      * intros j' c Hj' Hc. destruct (decide (j' = k)) as [->|].
        -- rewrite Hek in Hc. by injection Hc as <-.
        -- apply (Hmin j'); [lia | done].
      * intros j' Hj'. destruct (decide (j' = k)) as [->|]; [eauto|].
        apply Hdef. lia.
Qed.

Lemma selected_loop (l1 l2 : list ShardingStrategy) (acc acc' : Cost.t * Z) :
  dst_sv = l1 ++ l2 →
  selected src src_index dst_sv (length l1) acc →
  foldM (lowest_cost_step src src_index) acc (zip (seq (length l1) (length l2)) l2) = Ok acc' →
  selected src src_index dst_sv (length dst_sv) acc'.
Proof.
  revert l1 acc. induction l2 as [|s l2 IH]; intros l1 acc Hsv Hacc Hloop.
  - simpl in Hloop. injection Hloop as <-.
    replace (length dst_sv) with (length l1); [done|].
    rewrite Hsv, length_app. simpl. lia.
  - simpl in Hloop. apply bind_Ok in Hloop as (acc1 & Hstep & Hloop).
    apply (IH (l1 ++ [s]) acc1).
    + by rewrite <- app_assoc.
    + rewrite length_app. simpl. rewrite Nat.add_1_r.
      eapply selected_step; [|done..].
      by rewrite Hsv, lookup_app_r, Nat.sub_diag.
    + rewrite length_app. simpl. by rewrite Nat.add_1_r.
Qed.

Lemma selected_all (acc : Cost.t * Z) :
  foldM (lowest_cost_step src src_index) (Cost.Inf, -1) (enumerate dst_sv) = Ok acc →
  selected src src_index dst_sv (length dst_sv) acc.
Proof.
  intros Hloop. apply (selected_loop [] dst_sv (Cost.Inf, -1)); [done | | done].
  left. split; [done|]. simpl. lia.
Qed.

End selection.

Lemma cost_entry_nat (g : CostGraph) (src dst : Node) (i j : nat)
    (dst_sv : list ShardingStrategy) :
  strategies_vector g !! dst = Some dst_sv →
  (j < length dst_sv)%nat →
  cost_entry g src dst i (Z.of_nat j) = entry src i dst_sv j.
Proof.
  intros Hdst Hj. unfold cost_entry, entry, getattr. rewrite Hdst. simpl.
  destruct (lookup_lt_is_Some_2 dst_sv j Hj) as [s Hs]. rewrite Hs.
  apply list_getitem_nat in Hs. by rewrite Hs.
Qed.

Lemma lowest_cost_index_selected (g : CostGraph) (src dst : Node) (i : nat) (j : Z)
    (dst_sv : list ShardingStrategy) :
  strategies_vector g !! dst = Some dst_sv →
  lowest_cost_index g src dst i = Ok j →
  ∃ m, selected src i dst_sv (length dst_sv) (m, j).
Proof.
  intros Hdst Hj. unfold lowest_cost_index, getattr in Hj. rewrite Hdst in Hj.
  simpl in Hj. inv_ok. destruct a as [m j]. exists m.
  by apply selected_all.
Qed.

Lemma build_merge_map_lookup (g : CostGraph) (src dst : Node) (mm : list Z)
    (src_sv : list ShardingStrategy) (i : nat) :
  build_merge_map g src dst = Ok mm →
  strategies_vector g !! src = Some src_sv →
  (i < length src_sv)%nat →
  ∃ j, mm !! i = Some j ∧ lowest_cost_index g src dst i = Ok j.
Proof.
  intros Hmm Hsrc Hi. unfold build_merge_map, getattr in Hmm. rewrite Hsrc in Hmm.
  simpl in Hmm. eapply mapM_Ok_lookup in Hmm as (j & ? & ?); [|by apply range_lookup].
  eauto.
Qed.

Lemma build_merge_map_length (g : CostGraph) (src dst : Node) (mm : list Z)
    (src_sv : list ShardingStrategy) :
  build_merge_map g src dst = Ok mm →
  strategies_vector g !! src = Some src_sv →
  length mm = length src_sv.
Proof.
  intros Hmm Hsrc. unfold build_merge_map, getattr in Hmm. rewrite Hsrc in Hmm.
  simpl in Hmm. apply mapM_Ok_length in Hmm. unfold range in Hmm.
  by rewrite length_seq in Hmm.
Qed.

(** The merge map is defined on exactly the strategy indices of [src], and
    each value is what the inner loop selected. *)
Lemma merge_map_selected (g : CostGraph) (src dst : Node) (mm : list Z)
    (src_sv dst_sv : list ShardingStrategy) (i : nat) :
  build_merge_map g src dst = Ok mm →
  strategies_vector g !! src = Some src_sv →
  strategies_vector g !! dst = Some dst_sv →
  (i < length src_sv)%nat →
  ∃ m j, mm !! i = Some j ∧ selected src i dst_sv (length dst_sv) (m, j).
Proof.
  intros Hmm Hsrc Hdst Hi.
  destruct (build_merge_map_lookup _ _ _ _ _ _ Hmm Hsrc Hi) as (j & Hj & Hlow).
  destruct (lowest_cost_index_selected _ _ _ _ _ _ Hdst Hlow) as [m Hsel]. eauto.
Qed.

(** C4, as amended: in merge(src, dst), for every strategy index i of src
    whose row holds at least one entry below the infeasible value,
    merge_map[i] is the dst strategy index j that minimises the resharding
    cost entry (i, j), the lowest such j on a tie, and the entry selected is
    not the infeasible value. *)
Theorem merge_map_selects_lowest_minimiser (g : CostGraph) (src dst : Node)
    (mm : list Z) (src_sv : list ShardingStrategy) (i : nat) :
  build_merge_map g src dst = Ok mm →
  strategies_vector g !! src = Some src_sv →
  (i < length src_sv)%nat →
  feasible_row g src dst i →
  ∃ j, mm !! i = Some j ∧ lowest_minimiser g src dst i j ∧
       cost_entry g src dst i j ≠ Ok Cost.Inf.
Proof.
  intros Hmm Hsrc Hi (dst_sv & j0 & c0 & Hdst & Hj0 & Hc0 & Hfin).
  destruct (merge_map_selected _ _ _ _ _ _ _ Hmm Hsrc Hdst Hi) as (m & j & Hj & Hsel).
  exists j. split; [done|].
  rewrite (cost_entry_nat _ _ _ _ _ _ Hdst Hj0) in Hc0.
  destruct Hsel as [[_ Hall] | (n & z & [= -> ->] & Hn & Hen & Hmin & Hfirst & _)].
  { rewrite Hall in Hc0 by done. by injection Hc0 as <-. }
  rewrite <- (cost_entry_nat g src dst) in Hen by done.
  split; [|by rewrite Hen].
  exists dst_sv, n, (Cost.Fin z). split_and!; [done..| |].
  - intros j' c' Hj' Hc'. rewrite (cost_entry_nat _ _ _ _ _ _ Hdst Hj') in Hc'.
    unfold Cost.leb. by rewrite (Hmin j' c').
  - intros j' c' Hj' Hc'.
    rewrite (cost_entry_nat _ _ _ _ _ dst_sv) in Hc' by (done || lia).
    by apply (Hfirst j').
Qed.

Lemma merge_map_selects_lowest_minimiser_witness :
  ∃ j, [1; 0] !! 1%nat = Some j ∧
       lowest_minimiser (Samples.construct Samples.chain) 0 1 1 j ∧
       cost_entry (Samples.construct Samples.chain) 0 1 1 j ≠ Ok Cost.Inf.
Proof.
  apply (merge_map_selects_lowest_minimiser (Samples.construct Samples.chain) 0%nat 1%nat
           [1; 0] [Samples.strategy []; Samples.strategy []] 1%nat).
  - vm_compute. reflexivity.
  - vm_compute. reflexivity.
  - simpl. lia.
  - eexists _, 0%nat, (Cost.Fin 1). split_and!.
    + vm_compute. reflexivity.
    + simpl. lia.
    + vm_compute. reflexivity.
    + reflexivity.
Defined.

(** C4, as stated, fails on a row whose entries are all infeasible: the
    value recorded is [-1], which is no strategy index of [dst], although
    index 0 attains the minimum of the row. *)
Lemma merge_map_infeasible_row_counterexample :
  build_merge_map (Samples.construct Samples.infeasible) 0 1 = Ok [-1; 1] ∧
  cost_entry (Samples.construct Samples.infeasible) 0 1 0 0 = Ok Cost.Inf ∧
  cost_entry (Samples.construct Samples.infeasible) 0 1 0 1 = Ok Cost.Inf ∧
  ¬ lowest_minimiser (Samples.construct Samples.infeasible) 0 1 0 (-1).
Proof.
  split_and!; [by vm_compute..|].
  intros (dst_sv & n & c & _ & Hn & _). lia.
Qed.

Lemma cost_add_Inf_r (c : Cost.t) : Cost.add c Cost.Inf = Cost.Inf.
Proof. by destruct c. Qed.

Lemma list_getitem_lt {A : Type} (l : list A) (i : nat) :
  (i < length l)%nat → ∃ v, l !! i = Some v ∧ list_getitem l (Z.of_nat i) = Ok v.
Proof.
  intros Hi. destruct (lookup_lt_is_Some_2 l i Hi) as [v Hv].
  exists v. split; [done|]. by apply list_getitem_nat.
Qed.

Lemma list_getitem_minus_one_Ok {A : Type} (l : list A) :
  l ≠ [] → ∃ v, list_getitem l (-1) = Ok v.
Proof.
  intros Hl. destruct (last l) as [v|] eqn:Hlast.
  - exists v. by apply list_getitem_minus_one.
  - by apply last_None in Hlast.
Qed.

(** C10: in merge(src, dst), a strategy index i of src whose resharding
    cost against every dst strategy is the infeasible value gets
    merge_map[i] = -1; merge_map[i] is a valid index in [0, dst strategy
    count) exactly when row i has an entry strictly below the infeasible
    value; and with merge_map[i] = -1 the extra-cost step does not fail: it
    reads the last strategy of dst by negative indexing and charges its
    (infeasible) cost. *)
Theorem infeasible_row_selects_minus_one (g : CostGraph) (src dst : Node)
    (mm : list Z) (src_sv dst_sv : list ShardingStrategy) (i : nat) :
  build_merge_map g src dst = Ok mm →
  strategies_vector g !! src = Some src_sv →
  strategies_vector g !! dst = Some dst_sv →
  (i < length src_sv)%nat →
  ∃ j, mm !! i = Some j ∧
    ((∀ j', (j' < length dst_sv)%nat →
            cost_entry g src dst i (Z.of_nat j') = Ok Cost.Inf) → j = -1) ∧
    (0 ≤ j < Z.of_nat (length dst_sv) ↔ feasible_row g src dst i) ∧
    (j = -1 →
     ∀ (s : ShardingStrategy) (X : gmap Node (list Cost.t)) (l : list Cost.t),
       last dst_sv = Some s →
       src ≠ dst →
       X !! src = Some l →
       (i < length l)%nat →
       (∀ dst_extra, X !! dst = Some dst_extra → dst_extra ≠ []) →
       list_getitem dst_sv j = Ok s ∧
       resharding_cost s src i = Ok Cost.Inf ∧
       ∃ X', extra_cost_step g src dst mm X i = Ok X' ∧
             X' !! src = Some (<[i := Cost.Inf]> l)).
Proof.
  intros Hmm Hsrc Hdst Hi.
  destruct (merge_map_selected _ _ _ _ _ _ _ Hmm Hsrc Hdst Hi) as (m & j & Hj & Hsel).
  exists j. split; [done|]. split_and!.
  - intros Hall.
    destruct Hsel as [[[= _ ->] _] | (n & z & [= -> ->] & Hn & Hen & _)]; [done|].
    rewrite <- (cost_entry_nat g src dst) in Hen by done.
    by rewrite Hall in Hen.
  - split.
    + intros Hrange.
      destruct Hsel as [[[= _ ->] _] | (n & z & [= -> ->] & Hn & Hen & _)]; [lia|].
      exists dst_sv, n, (Cost.Fin z). split_and!; [done..| |done].
      by rewrite (cost_entry_nat _ _ _ _ _ dst_sv).
    + intros (dst_sv' & j0 & c0 & Hdst' & Hj0 & Hc0 & Hfin).
      assert (dst_sv' = dst_sv) as -> by congruence.
      rewrite (cost_entry_nat _ _ _ _ _ dst_sv) in Hc0 by done.
      destruct Hsel as [[_ Hall] | (n & z & [= -> ->] & Hn & _)]; [|lia].
      rewrite Hall in Hc0 by done. by injection Hc0 as <-.
  - intros -> s X l Hlast Hne HX Hil Hdx.
    destruct Hsel as [[_ Hall] | (n & z & [= _ Hz] & _)]; [|lia].
    assert (Hs : list_getitem dst_sv (-1) = Ok s) by by apply list_getitem_minus_one.
    assert (Hc : resharding_cost s src i = Ok Cost.Inf).
    { rewrite last_lookup in Hlast.
      assert (Hlt : (Nat.pred (length dst_sv) < length dst_sv)%nat)
        by by eapply lookup_lt_Some.
      specialize (Hall _ Hlt). unfold entry in Hall. by rewrite Hlast in Hall. }
    split_and!; [done..|].
    destruct (list_getitem_lt l i Hil) as (old & Hold & Hget).
    unfold extra_cost_step, merge_map_get, getattr. rewrite Hj, Hdst. simpl.
    rewrite Hs. simpl. unfold extra_iadd at 2, dict_get. rewrite HX. simpl.
    rewrite Hget. simpl. rewrite Hc. simpl.
    rewrite lookup_insert_ne by done. rewrite cost_add_Inf_r.
    destruct (X !! dst) as [dst_extra|] eqn:Hdx'.
    + destruct (list_getitem_minus_one_Ok dst_extra) as [e He]; [by apply Hdx|].
      unfold extra_iadd, dict_get. rewrite lookup_insert_eq. simpl.
      assert (Hget' : list_getitem (<[i := Cost.Inf]> l) (Z.of_nat i) = Ok Cost.Inf).
      { apply list_getitem_nat. by apply list_lookup_insert_eq. }
      rewrite Hget'. simpl. rewrite He. simpl.
      eexists. split; [done|]. rewrite lookup_insert_eq.
      by rewrite list_insert_insert_eq.
    + eexists. split; [done|]. by rewrite lookup_insert_eq.
Qed.

Lemma infeasible_row_selects_minus_one_witness :
  build_merge_map (Samples.construct Samples.infeasible) 0 1 = Ok [-1; 1] ∧
  ¬ feasible_row (Samples.construct Samples.infeasible) 0 1 0 ∧
  ∃ X', extra_cost_step (Samples.construct Samples.infeasible) 0 1 [-1; 1]
          {[ 0%nat := [Cost.zero; Cost.zero] ]} 0 = Ok X' ∧
        X' !! 0%nat = Some [Cost.Inf; Cost.zero].
Proof.
  destruct (infeasible_row_selects_minus_one
              (Samples.construct Samples.infeasible) 0%nat 1%nat [-1; 1]
              [Samples.strategy []; Samples.strategy []]
              [Samples.strategy [(0%nat, [Cost.Inf; Cost.Fin 4])];
               Samples.strategy [(0%nat, [Cost.Inf; Cost.Fin 3])]] 0%nat)
    as (j & Hj & _ & Hiff & Hstep);
    [vm_compute; reflexivity | vm_compute; reflexivity | vm_compute; reflexivity
    | simpl; lia |].
  injection Hj as <-. split_and!.
  - vm_compute. reflexivity.
  - intros Hf. apply Hiff in Hf. lia.
  - destruct (Hstep eq_refl (Samples.strategy [(0%nat, [Cost.Inf; Cost.Fin 3])])
                {[ 0%nat := [Cost.zero; Cost.zero] ]} [Cost.zero; Cost.zero])
      as (_ & _ & X' & HX' & Hl).
    + reflexivity.
    + lia.
    + vm_compute. reflexivity.
    + simpl. lia.
    + intros dst_extra Hd. vm_compute in Hd. discriminate Hd.
    + exists X'. split; [exact HX' | exact Hl].
Defined.

(** ** Loops over a range *)

Lemma foldM_seq_invariant {S : Type} (f : S → nat → result S) (P : nat → S → Prop)
    (start len : nat) (s s' : S) :
  (∀ k s1 s2, (start ≤ k < start + len)%nat → P k s1 → f s1 k = Ok s2 →
              P (Datatypes.S k) s2) →
  P start s →
  foldM f s (seq start len) = Ok s' →
  P (start + len)%nat s'.
Proof.
  revert start s. induction len as [|len IH]; intros start s Hstep Hs Hloop.
  - simpl in Hloop. injection Hloop as <-. by rewrite Nat.add_0_r.
  - simpl in Hloop. apply bind_Ok in Hloop as (s1 & Hk & Hloop).
    rewrite <- Nat.add_succ_comm. apply (IH (Datatypes.S start) s1); [| |done].
    + intros k s2 s3 Hk'. apply Hstep. lia.
    + apply (Hstep start s); [lia | done..].
Qed.

(** ** Extra-cost accrual (lines 95-102) *)

Lemma accrue_extra_costs_spec (g : CostGraph) (src dst : Node) (mm : list Z)
    (X : gmap Node (list Cost.t)) (src_sv : list ShardingStrategy) :
  src ≠ dst →
  strategies_vector g !! src = Some src_sv →
  accrue_extra_costs g src dst mm = Ok X →
  ∃ (n : nat) (l : list Cost.t),
    node_lens g !! src = Some n ∧ length l = n ∧
    X = <[src := l]> (extra_node_costs g) ∧
    (∀ i, (i < length src_sv)%nat →
          ∃ v, l !! i = Some v ∧ accrued g src dst mm (extra_node_costs g !! dst) i v) ∧
    (∀ i, (length src_sv ≤ i < n)%nat → l !! i = Some Cost.zero).
Proof.
  intros Hne Hsrc Hacc. unfold accrue_extra_costs in Hacc.
  apply bind_Ok in Hacc as (n & Hn & Hacc). apply dict_get_Ok in Hn.
  unfold getattr in Hacc. rewrite Hsrc in Hacc. simpl in Hacc.
  exists n.
  set (P := λ (k : nat) (Xk : gmap Node (list Cost.t)),
         ∃ l, length l = n ∧ Xk = <[src := l]> (extra_node_costs g) ∧
              (∀ i, (i < k)%nat →
                    ∃ v, l !! i = Some v ∧
                         accrued g src dst mm (extra_node_costs g !! dst) i v) ∧
              (∀ i, (k ≤ i < n)%nat → l !! i = Some Cost.zero)).
  assert (HP : P (0 + length src_sv)%nat X).
  { eapply (foldM_seq_invariant _ P); [| |exact Hacc].
    - clear Hacc X. intros k X1 X2 Hk (l & Hlen & -> & Hdone & Htodo) Hstep.
      unfold extra_cost_step in Hstep.
      apply bind_Ok in Hstep as (j & Hj & Hstep). apply merge_map_get_Ok in Hj.
      apply bind_Ok in Hstep as (dst_sv & Hdst & Hstep).
      apply bind_Ok in Hstep as (s & Hs & Hstep).
      apply bind_Ok in Hstep as (X1 & Hadd & Hstep).
      unfold extra_iadd, dict_get in Hadd. rewrite lookup_insert_eq in Hadd.
      simpl in Hadd.
      apply bind_Ok in Hadd as (old & Hold & Hadd).
      apply bind_Ok in Hadd as (c & Hc & Hadd). injection Hadd as <-.
      apply list_getitem_nat in Hold.
      assert (Hkn : (k < n)%nat) by (apply lookup_lt_Some in Hold; lia).
      rewrite Htodo in Hold by lia. injection Hold as <-.
      rewrite cost_add_zero_l in Hstep. rewrite insert_insert_eq in Hstep.
      rewrite lookup_insert_ne in Hstep by done.
      assert (Hce : cost_entry g src dst k j = Ok c).
      { unfold cost_entry. rewrite Hdst. simpl. rewrite Hs. done. }
      destruct (extra_node_costs g !! dst) as [dst_extra|] eqn:Hdx.
      + unfold extra_iadd, dict_get in Hstep. rewrite lookup_insert_eq in Hstep.
        simpl in Hstep.
        apply bind_Ok in Hstep as (old & Hold & Hstep).
        apply bind_Ok in Hstep as (e & He & Hstep). injection Hstep as <-.
        apply list_getitem_nat in Hold.
        rewrite list_lookup_insert_eq in Hold by lia. injection Hold as <-.
        rewrite insert_insert_eq, list_insert_insert_eq.
        exists (<[k := Cost.add c e]> l). split_and!.
        * by rewrite length_insert.
        * done.
        * intros i Hi. destruct (decide (i = k)) as [->|Hik].
          -- exists (Cost.add c e). rewrite list_lookup_insert_eq by lia.
             split; [done|]. exists j, c. eauto.
          -- rewrite list_lookup_insert_ne by done. apply Hdone. lia.
        * intros i Hi. rewrite list_lookup_insert_ne by lia. apply Htodo. lia.
      + injection Hstep as <-.
        exists (<[k := c]> l). split_and!.
        * by rewrite length_insert.
        * done.
        * intros i Hi. destruct (decide (i = k)) as [->|Hik].
          -- exists c. rewrite list_lookup_insert_eq by lia.
             split; [done|]. exists j, c. eauto.
          -- rewrite list_lookup_insert_ne by done. apply Hdone. lia.
        * intros i Hi. rewrite list_lookup_insert_ne by lia. apply Htodo. lia.
    - exists (replicate n Cost.zero). split_and!.
      + by rewrite length_replicate.
      + done.
      + intros i Hi. lia.
      + intros i Hi. apply lookup_replicate_2. lia. }
  destruct HP as (l & Hlen & -> & Hdone & Htodo). simpl in *.
  exists l. split_and!; done.
Qed.

(** ** The stages of a merge *)

Lemma list_index_Ok {A : Type} `{EqDecision A} (l : list A) (x : A) (n : nat) :
  list_index l x = Ok n → x ∈ l.
Proof.
  revert n. induction l as [|y l IH]; intros n Hn; simpl in Hn; [done|].
  destruct (decide (y = x)) as [->|]; [by left|].
  apply fmap_Ok in Hn as (m & Hm & _). right. by eapply IH.
Qed.

Lemma merge_node_stages (g : CostGraph) (src dst : Node) (g' : CostGraph) :
  merge_node g src dst = Ok g' →
  ∃ dst_parents mm X dst_children E dst_parents' src_children src_children'
    dst_children' g2 dst_parents2,
    parents g !! dst = Some dst_parents ∧
    src ∈ dst_parents ∧
    build_merge_map g src dst = Ok mm ∧
    accrue_extra_costs g src dst mm = Ok X ∧
    children g !! dst = Some dst_children ∧
    foldM (add_node_pair g mm src dst) (edge_costs g) dst_children = Ok E ∧
    list_remove dst_parents src = Ok dst_parents' ∧
    children g !! src = Some src_children ∧
    list_remove src_children dst = Ok src_children' ∧
    is_Some (E !! (src, dst)) ∧
    <[src := src_children']> (children g) !! dst = Some dst_children' ∧
    foldM (rewire_child src dst)
          (detached g src dst X (delete (src, dst) E) dst_parents' src_children')
          dst_children' = Ok g2 ∧
    parents g2 !! dst = Some dst_parents2 ∧
    g' = if decide (length dst_parents2 = 0%nat) then absorbed g2 src dst else g2.
Proof.
  intros Hm. unfold merge_node in Hm.
  apply bind_Ok in Hm as (dst_parents & Hdp & Hm). apply getattr_Ok in Hdp.
  apply bind_Ok in Hm as (n & Hidx & Hm). apply list_index_Ok in Hidx.
  apply bind_Ok in Hm as (mm & Hmm & Hm).
  apply bind_Ok in Hm as (X & HX & Hm).
  apply bind_Ok in Hm as (dst_children & Hdc & Hm). apply getattr_Ok in Hdc.
  apply bind_Ok in Hm as (E & HE & Hm).
  apply bind_Ok in Hm as (dst_parents' & Hdp' & Hm).
  apply bind_Ok in Hm as (src_children & Hsc & Hm). apply getattr_Ok in Hsc.
  apply bind_Ok in Hm as (src_children' & Hsc' & Hm).
  apply bind_Ok in Hm as (E' & HE' & Hm). apply dict_pop_Ok in HE' as [Hsome ->].
  apply bind_Ok in Hm as (dst_children' & Hdc' & Hm). apply getattr_Ok in Hdc'.
  apply bind_Ok in Hm as (g2 & Hg2 & Hm).
  apply bind_Ok in Hm as (dst_parents2 & Hdp2 & Hm). apply getattr_Ok in Hdp2.
  exists dst_parents, mm, X, dst_children, E, dst_parents', src_children,
    src_children', dst_children', g2, dst_parents2.
  split_and!; try done.
  destruct (decide (length dst_parents2 = 0%nat)); by injection Hm as <-.
Qed.

Lemma rewire_child_frame (src dst : Node) (g g' : CostGraph) (child : Node) :
  rewire_child src dst g child = Ok g' →
  same_registry g g' ∧
  extra_node_costs g' = extra_node_costs g ∧
  following_dict g' = following_dict g.
Proof.
  intros H. unfold rewire_child in H.
  apply bind_Ok in H as (sc & _ & H). apply bind_Ok in H as (cp & _ & H).
  apply bind_Ok in H as (dp & _ & H).
  destruct (decide (length dp = 0%nat)).
  - apply bind_Ok in H as (cp1 & _ & H). apply bind_Ok in H as (cp2 & _ & H).
    apply bind_Ok in H as (E & _ & H). by injection H as <-.
  - by injection H as <-.
Qed.

Lemma rewire_loop_frame (src dst : Node) (g g' : CostGraph) (l : list Node) :
  foldM (rewire_child src dst) g l = Ok g' →
  same_registry g g' ∧
  extra_node_costs g' = extra_node_costs g ∧
  following_dict g' = following_dict g.
Proof.
  apply (foldM_invariant _ (λ s, same_registry g s ∧
                                  extra_node_costs s = extra_node_costs g ∧
                                  following_dict s = following_dict g)).
  - intros s1 s2 x _ ((? & ? & ? & ?) & ? & ?) Hx.
    apply rewire_child_frame in Hx as ((? & ? & ? & ?) & ? & ?).
    unfold same_registry. split_and!; congruence.
  - done.
Qed.

Lemma merge_node_frame (g : CostGraph) (src dst : Node) (g' : CostGraph) :
  merge_node g src dst = Ok g' → same_registry g g'.
Proof.
  intros H. apply merge_node_stages in H
    as (dp & mm & X & dc & E & dp' & sc & sc' & dc' & g2 & dp2 & _ & _ & _ & _ & _ & _
        & _ & _ & _ & _ & _ & Hloop & _ & ->).
  apply rewire_loop_frame in Hloop as ((? & ? & ? & ?) & _).
  by destruct (decide (length dp2 = 0%nat)).
Qed.

Lemma merge_node_extra_node_costs (g : CostGraph) (src dst : Node) (g' : CostGraph) :
  merge_node g src dst = Ok g' →
  ∃ mm, build_merge_map g src dst = Ok mm ∧
        accrue_extra_costs g src dst mm = Ok (extra_node_costs g').
Proof.
  intros H. apply merge_node_stages in H
    as (dp & mm & X & dc & E & dp' & sc & sc' & dc' & g2 & dp2 & _ & _ & Hmm & HX & _ & _
        & _ & _ & _ & _ & _ & Hloop & _ & ->).
  apply rewire_loop_frame in Hloop as (_ & Hx & _).
  exists mm. split; [done|].
  by destruct (decide (length dp2 = 0%nat)); simpl; rewrite Hx.
Qed.

(** C5: after merge(src, dst), for every strategy index i of src, the extra
    node cost recorded for src at i is the resharding cost of (src, dst) at
    (i, merge_map[i]), plus dst's pre-existing extra cost at strategy
    merge_map[i] if dst had accrued extra costs before; when dst had none,
    nothing further is added. *)
Theorem merge_accrues_extra_cost (g : CostGraph) (src dst : Node) (g' : CostGraph)
    (src_sv : list ShardingStrategy) (i : nat) :
  merge_node g src dst = Ok g' →
  src ≠ dst →
  strategies_vector g !! src = Some src_sv →
  (i < length src_sv)%nat →
  ∃ (mm : list Z) (l : list Cost.t) (j : Z) (c : Cost.t),
    build_merge_map g src dst = Ok mm ∧ mm !! i = Some j ∧
    cost_entry g src dst i j = Ok c ∧
    extra_node_costs g' !! src = Some l ∧
    match extra_node_costs g !! dst with
    | None => l !! i = Some c
    | Some dst_extra =>
        ∃ e, list_getitem dst_extra j = Ok e ∧ l !! i = Some (Cost.add c e)
    end.
Proof.
  intros Hm Hne Hsrc Hi.
  apply merge_node_extra_node_costs in Hm as (mm & Hmm & HX).
  destruct (accrue_extra_costs_spec _ _ _ _ _ _ Hne Hsrc HX)
    as (n & l & _ & _ & HX' & Hdone & _).
  destruct (Hdone i Hi) as (v & Hv & j & c & Hj & Hc & Hacc).
  exists mm, l, j, c. split_and!; [done..| |].
  - by rewrite HX', lookup_insert_eq.
  - destruct (extra_node_costs g !! dst) as [dst_extra|].
    + destruct Hacc as (e & He & ->). eauto.
    + by subst v.
Qed.

Lemma merge_accrues_extra_cost_witness :
  ∃ l, extra_node_costs Samples.chain2_merged_01 !! 0%nat = Some l ∧
       l !! 0%nat = Some (Cost.add (Cost.Fin 2) (Cost.Fin 20)).
Proof.
  destruct (merge_accrues_extra_cost Samples.chain2_merged_12 0%nat 1%nat
              Samples.chain2_merged_01 [Samples.strategy []; Samples.strategy []] 0%nat)
    as (mm & l & j & c & Hmm & Hj & Hc & Hl & Hacc).
  - vm_compute. reflexivity.
  - lia.
  - vm_compute. reflexivity.
  - simpl. lia.
  - vm_compute in Hmm. injection Hmm as <-.
    injection Hj as <-.
    vm_compute in Hc. injection Hc as <-.
    exists l. split; [exact Hl|].
    change (extra_node_costs Samples.chain2_merged_12 !! 1%nat)
      with (Some [Cost.Fin 10; Cost.Fin 20]) in Hacc.
    destruct Hacc as (e & He & Hle).
    vm_compute in He. injection He as <-. exact Hle.
Defined.

(** ** The driver (lines 147-157) *)

Lemma replay_frame (g g' : CostGraph) (pairs : list (Node * Node)) :
  replay g pairs = Ok g' → same_registry g g'.
Proof.
  apply (foldM_invariant _ (same_registry g)); [|done].
  intros s1 s2 p _ (? & ? & ? & ?) Hp.
  apply merge_node_frame in Hp as (? & ? & ? & ?).
  unfold same_registry. split_and!; congruence.
Qed.

Lemma simplify_graph_stages (depth : nat) (g g' : CostGraph) :
  simplify g = true →
  simplify_graph depth g = Ok g' ↔
  ∃ g2 F, replay (set_merge_pair (reverse (merge_pair g)) g) (reverse (merge_pair g)) = Ok g2 ∧
          reindex_following_dict depth (following_dict g2) = Ok F ∧
          g' = set_following_dict F (set_merge_pair (reverse (merge_pair g2)) g2).
Proof.
  intros Hs. unfold simplify_graph. rewrite Hs. simpl. rewrite bind_Ok. split.
  - intros (g2 & Hg2 & H). apply bind_Ok in H as (F & HF & H). injection H as <-.
    by exists g2, F.
  - intros (g2 & F & Hg2 & HF & ->). exists g2. split; [done|].
    simpl in *. by rewrite HF.
Qed.

(** C9: simplify_graph applies the queued merge pairs in reverse discovery
    order, and when it completes the queue of merge pairs is back in its
    original discovery order: contents and ordering equal those before the
    call. *)
Theorem simplify_graph_restores_merge_pair (depth : nat) (g g' : CostGraph) :
  simplify_graph depth g = Ok g' →
  merge_pair g' = merge_pair g ∧
  (simplify g = true →
   ∃ g2, replay (set_merge_pair (reverse (merge_pair g)) g) (reverse (merge_pair g)) = Ok g2 ∧
         edge_costs g' = edge_costs g2 ∧
         extra_node_costs g' = extra_node_costs g2 ∧
         parents g' = parents g2 ∧
         children g' = children g2).
Proof.
  intros H. destruct (simplify g) eqn:Hs.
  - apply simplify_graph_stages in H as (g2 & F & Hg2 & _ & ->); [|done].
    split.
    + apply replay_frame in Hg2 as (_ & _ & _ & Hq). simpl in *.
      by rewrite Hq, reverse_involutive.
    + intros _. by exists g2.
  - unfold simplify_graph in H. rewrite Hs in H. simpl in H.
    injection H as <-. by split.
Qed.

Lemma simplify_graph_restores_merge_pair_witness :
  merge_pair (Samples.the_graph (simplify_graph 100 (Samples.construct Samples.chain2)))
  = [(0%nat, 1%nat); (1%nat, 2%nat)].
Proof.
  destruct (simplify_graph_restores_merge_pair 100 (Samples.construct Samples.chain2)
              (Samples.the_graph (simplify_graph 100 (Samples.construct Samples.chain2))))
    as [Hq _].
  - vm_compute. reflexivity.
  - rewrite Hq by reflexivity. vm_compute. reflexivity.
Defined.

(** ** The domain of the extra-cost table *)

Lemma extra_iadd_dom (X X' : gmap Node (list Cost.t)) (n : Node) (i : nat)
    (rhs : result Cost.t) :
  extra_iadd X n i rhs = Ok X' → dom X' = dom X.
Proof.
  intros H. unfold extra_iadd in H.
  apply bind_Ok in H as (l & Hl & H). apply dict_get_Ok in Hl.
  apply bind_Ok in H as (old & _ & H). apply bind_Ok in H as (v & _ & H).
  injection H as <-.
  rewrite dom_insert_L. apply elem_of_dom_2 in Hl.
  apply subseteq_union_1_L. by apply singleton_subseteq_l.
Qed.

Lemma accrue_extra_costs_dom (g : CostGraph) (src dst : Node) (mm : list Z)
    (X : gmap Node (list Cost.t)) :
  accrue_extra_costs g src dst mm = Ok X →
  dom X = {[src]} ∪ dom (extra_node_costs g).
Proof.
  intros H. unfold accrue_extra_costs in H.
  apply bind_Ok in H as (n & _ & H). apply bind_Ok in H as (src_sv & _ & H).
  revert H. apply (foldM_invariant _ (λ X, dom X = {[src]} ∪ dom (extra_node_costs g))).
  - intros X1 X2 i _ HX1 Hstep. unfold extra_cost_step in Hstep.
    apply bind_Ok in Hstep as (j & _ & Hstep).
    apply bind_Ok in Hstep as (dst_sv & _ & Hstep).
    apply bind_Ok in Hstep as (s & _ & Hstep).
    apply bind_Ok in Hstep as (X3 & H3 & Hstep).
    apply extra_iadd_dom in H3.
    destruct (X3 !! dst).
    + apply extra_iadd_dom in Hstep. congruence.
    + injection Hstep as <-. congruence.
  - by rewrite dom_insert_L.
Qed.

Lemma merge_node_extra_dom (g : CostGraph) (src dst : Node) (g' : CostGraph) :
  merge_node g src dst = Ok g' →
  dom (extra_node_costs g') = {[src]} ∪ dom (extra_node_costs g).
Proof.
  intros H. apply merge_node_extra_node_costs in H as (mm & _ & H).
  by apply accrue_extra_costs_dom in H.
Qed.

Lemma replay_extra_dom (g g' : CostGraph) (pairs : list (Node * Node)) (n : Node) :
  replay g pairs = Ok g' →
  n ∈ dom (extra_node_costs g') ↔
  n ∈ dom (extra_node_costs g) ∨ ∃ dst, (n, dst) ∈ pairs.
Proof.
  revert g. induction pairs as [|[s d] pairs IH]; intros g H; simpl in H.
  - injection H as <-. split; [by left|]. intros [?|[dst Hd]]; [done|].
    by apply elem_of_nil in Hd.
  - apply bind_Ok in H as (g1 & H1 & H). simpl in H1.
    apply merge_node_extra_dom in H1. apply IH in H. rewrite H, H1.
    rewrite elem_of_union, elem_of_singleton. split.
    + intros [[->|?]|[dst Hd]].
      * right. exists d. by left.
      * by left.
      * right. exists dst. by right.
    + intros [?|[dst Hd]]; [by left; right|].
      apply elem_of_cons in Hd as [[= -> ->]|Hd]; [by left; left|].
      right. by exists dst.
Qed.

(** C3, as amended: after full simplification the extra-node-cost table has
    an entry for a node exactly when the node had one before or is the src of
    a queued merge pair, that is, the node a merge charges is the one that
    absorbs, and it is still in the live graph unless a later merge absorbs
    it. *)
Theorem simplify_graph_extra_cost_domain (depth : nat) (g g' : CostGraph) (n : Node) :
  simplify g = true →
  simplify_graph depth g = Ok g' →
  is_Some (extra_node_costs g' !! n) ↔
  is_Some (extra_node_costs g !! n) ∨ ∃ dst, (n, dst) ∈ merge_pair g.
Proof.
  intros Hs H. apply simplify_graph_stages in H as (g2 & F & Hg2 & _ & ->); [|done].
  simpl. rewrite <- !elem_of_dom.
  rewrite (replay_extra_dom _ _ _ n Hg2). simpl.
  by setoid_rewrite elem_of_reverse.
Qed.

Lemma simplify_graph_extra_cost_domain_witness :
  is_Some (extra_node_costs
             (Samples.the_graph (simplify_graph 100 (Samples.construct Samples.chain)))
           !! 0%nat).
Proof.
  apply (simplify_graph_extra_cost_domain 100 (Samples.construct Samples.chain)).
  - vm_compute. reflexivity.
  - vm_compute. reflexivity.
  - right. exists 1%nat. vm_compute. left.
Defined.

(** C3, as stated, fails on the chain 0 -> 1 -> 2 in which node 1 follows
    node 0: after simplification node 0 carries the extra costs although it is
    live (it is the representative of node 1 and still has the edge to node
    2), and the absorbed node 1 has no entry. *)
Lemma extra_cost_on_live_node_counterexample :
  simplify_graph 100 (Samples.construct Samples.chain)
  = Ok (Samples.the_graph (simplify_graph 100 (Samples.construct Samples.chain))) ∧
  extra_node_costs (Samples.the_graph (simplify_graph 100 (Samples.construct Samples.chain)))
    !! 0%nat = Some [Cost.Fin 2; Cost.Fin 1] ∧
  live (Samples.the_graph (simplify_graph 100 (Samples.construct Samples.chain))) 0 ∧
  following_dict (Samples.the_graph (simplify_graph 100 (Samples.construct Samples.chain)))
    !! 1%nat = Some 0%nat ∧
  is_Some (edge_costs (Samples.the_graph (simplify_graph 100 (Samples.construct Samples.chain)))
             !! (0%nat, 2%nat)) ∧
  extra_node_costs (Samples.the_graph (simplify_graph 100 (Samples.construct Samples.chain)))
    !! 1%nat = None.
Proof.
  split_and!; try (vm_compute; reflexivity).
  - split; [|vm_compute; reflexivity]. eexists. vm_compute. reflexivity.
  - eexists. vm_compute. reflexivity.
Qed.

(** ** The absorption ledger (lines 142-145 and 154-157) *)

Lemma terminal_unique (F : gmap Node Node) (a t t' : Node) :
  terminal F a t → terminal F a t' → t = t'.
Proof.
  intros [Hrtc Ht]. revert Ht.
  induction Hrtc as [a|a b t Hab Hbt IH]; intros Ht [Hrtc' Ht'].
  - inversion Hrtc' as [|? b ? Hab _]; subst; [done|].
    unfold follows in Hab. congruence.
  - inversion Hrtc' as [|? b' ? Hab' Hbt']; subst.
    + unfold follows in Hab. congruence.
    + unfold follows in Hab, Hab'. assert (b' = b) as -> by congruence.
      by apply IH.
Qed.

Lemma reindexing_src_terminal (depth : nat) (F : gmap Node Node) (src t : Node) :
  _reindexing_src depth F src = Ok t → terminal F src t.
Proof.
  revert src. induction depth as [|depth IH]; intros src H; simpl in H; [done|].
  destruct (F !! src) as [src'|] eqn:Hsrc.
  - apply IH in H as [Hrtc Ht]. split; [|done]. by eapply rtc_l.
  - injection H as <-. by split.
Qed.

(** The recursion returns as soon as the depth allowed exceeds the number of
    records that are still unvisited. *)
Lemma reindexing_src_returns (F : gmap Node Node) (depth : nat) (visited : gset Node)
    (src : Node) :
  acyclic F →
  visited ⊆ dom F →
  (∀ v, v ∈ visited → tc (follows F) v src) →
  (size (dom F) < size visited + depth)%nat →
  ∃ t, _reindexing_src depth F src = Ok t.
Proof.
  intros Hacyc. revert visited src.
  induction depth as [|depth IH]; intros visited src Hsub Hreach Hsize.
  - apply subseteq_size in Hsub. lia.
  - simpl. destruct (F !! src) as [src'|] eqn:Hsrc; [|eauto].
    assert (Hfresh : src ∉ visited).
    { intros Hin. apply (Hacyc src). by apply Hreach. }
    apply (IH ({[src]} ∪ visited)).
    + apply elem_of_dom_2 in Hsrc.
      apply union_least; [by apply singleton_subseteq_l | done].
    + intros v [->%elem_of_singleton | Hv]%elem_of_union.
      * by apply tc_once.
      * eapply tc_r; [by apply Hreach | done].
    + rewrite size_union by set_solver. rewrite size_singleton. lia.
Qed.

Lemma reindexing_src_acyclic (F : gmap Node Node) (depth : nat) (src : Node) :
  acyclic F → (size F < depth)%nat →
  ∃ t, _reindexing_src depth F src = Ok t ∧ terminal F src t.
Proof.
  intros Hacyc Hdepth.
  destruct (reindexing_src_returns F depth ∅ src) as [t Ht]; [done | set_solver | set_solver | |].
  - rewrite size_dom, size_empty. lia.
  - exists t. split; [done|]. by eapply reindexing_src_terminal.
Qed.

(** The loop of lines 155-156 over any list of records with distinct keys. *)
Lemma reindex_loop_spec (h : Node → result Node) (l : list (Node * Node))
    (acc acc' : gmap Node Node) :
  foldM (λ acc p, r ← h p.2; Ok (<[p.1 := r]> acc)) acc l = Ok acc' →
  NoDup l.*1 →
  ∀ k, (k ∉ l.*1 → acc' !! k = acc !! k) ∧
       (∀ v, (k, v) ∈ l → ∃ t, h v = Ok t ∧ acc' !! k = Some t).
Proof.
  revert acc. induction l as [|[k0 v0] l IH]; intros acc H Hnd k; simpl in H.
  - injection H as <-. split; [done|]. intros v Hv. by apply elem_of_nil in Hv.
  - apply bind_Ok in H as (acc1 & H1 & H). simpl in H1.
    apply bind_Ok in H1 as (t0 & Ht0 & H1). injection H1 as <-.
    apply NoDup_cons in Hnd as [Hk0 Hnd].
    destruct (IH _ H Hnd k) as [Hout Hin]. split.
    + intros Hk. simpl in Hk. apply not_elem_of_cons in Hk as [Hne Hk].
      rewrite Hout by done. by rewrite lookup_insert_ne.
    + intros v Hv. apply elem_of_cons in Hv as [[= -> ->]|Hv].
      * exists t0. split; [done|]. destruct (IH _ H Hnd k0) as [Hout0 _].
        rewrite Hout0 by done. by rewrite lookup_insert_eq.
      * by apply Hin.
Qed.

Lemma reindex_loop_returns (h : Node → result Node) (l : list (Node * Node))
    (acc : gmap Node Node) :
  (∀ k v, (k, v) ∈ l → ∃ t, h v = Ok t) →
  ∃ acc', foldM (λ acc p, r ← h p.2; Ok (<[p.1 := r]> acc)) acc l = Ok acc'.
Proof.
  revert acc. induction l as [|[k0 v0] l IH]; intros acc Hh; simpl; [eauto|].
  destruct (Hh k0 v0) as [t0 Ht0]; [by left|]. rewrite Ht0. simpl.
  apply IH. intros k v Hkv. apply (Hh k). by right.
Qed.

Lemma reindex_following_dict_spec (depth : nat) (F F' : gmap Node Node) (a : Node) :
  reindex_following_dict depth F = Ok F' →
  match F !! a with
  | None => F' !! a = None
  | Some s => ∃ t, F' !! a = Some t ∧ _reindexing_src depth F s = Ok t
  end.
Proof.
  intros H. unfold reindex_following_dict in H.
  destruct (reindex_loop_spec _ _ _ _ H (NoDup_fst_map_to_list F) a) as [Hout Hin].
  destruct (F !! a) as [s|] eqn:Ha.
  - destruct (Hin s) as (t & Ht & Hat); [by apply elem_of_map_to_list|]. eauto.
  - rewrite Hout; [done|]. intros Hin'. apply list_elem_of_fmap in Hin' as ([k v] & -> & Hkv).
    apply elem_of_map_to_list in Hkv. simpl in Ha. congruence.
Qed.

Lemma reindex_following_dict_returns (depth : nat) (F : gmap Node Node) :
  acyclic F → (size F < depth)%nat →
  ∃ F', reindex_following_dict depth F = Ok F'.
Proof.
  intros Hacyc Hdepth. apply reindex_loop_returns. intros k v _.
  destruct (reindexing_src_acyclic F depth v Hacyc Hdepth) as (t & Ht & _). eauto.
Qed.

(** C7: when the absorbed-into relation left by the merges is acyclic (and
    the interpreter allows the depth of the chains), simplify_graph completes,
    and afterwards every absorbed node's ledger entry points directly to the
    terminal node reached by following the pre-compression records; that
    terminal node has no ledger entry of its own, so no absorbed node maps to
    another absorbed node; and the ledger has no other entries. *)
Theorem simplify_graph_compresses_ledger (depth : nat) (g g2 : CostGraph) :
  simplify g = true →
  replay (set_merge_pair (reverse (merge_pair g)) g) (reverse (merge_pair g)) = Ok g2 →
  acyclic (following_dict g2) →
  (size (following_dict g2) < depth)%nat →
  ∃ g', simplify_graph depth g = Ok g' ∧
        ∀ a, match following_dict g2 !! a with
             | None => following_dict g' !! a = None
             | Some _ =>
                 ∃ t, following_dict g' !! a = Some t ∧
                      terminal (following_dict g2) a t ∧
                      following_dict g' !! t = None
             end.
Proof.
  intros Hs Hg2 Hacyc Hdepth.
  destruct (reindex_following_dict_returns depth _ Hacyc Hdepth) as [F HF].
  exists (set_following_dict F (set_merge_pair (reverse (merge_pair g2)) g2)).
  split.
  { apply simplify_graph_stages; [done|]. by exists g2, F. }
  intros a. simpl.
  pose proof (reindex_following_dict_spec _ _ _ a HF) as Ha.
  destruct (following_dict g2 !! a) as [s|] eqn:Has; [|done].
  destruct Ha as (t & Hat & Ht). apply reindexing_src_terminal in Ht as [Hrtc Hnone].
  exists t. split_and!; [done | | ].
  - split; [|done]. by eapply rtc_l.
  - pose proof (reindex_following_dict_spec _ _ _ t HF) as Ht. by rewrite Hnone in Ht.
Qed.

(** A ledger whose records all point to a smaller node is acyclic. *)
Lemma acyclic_rank (F : gmap Node Node) :
  map_Forall (λ a b, (b < a)%nat) F → acyclic F.
Proof.
  intros Hrank a Ha.
  assert (Hlt : ∀ x y, tc (follows F) x y → (y < x)%nat).
  { intros x y Hxy. induction Hxy as [x y Hxy|x y z Hxy _ IH].
    - by apply (Hrank x y).
    - apply (Hrank x y) in Hxy. lia. }
  apply Hlt in Ha. lia.
Qed.

Lemma simplify_graph_compresses_ledger_witness :
  ∃ g' t, simplify_graph 100 (Samples.construct Samples.chain2) = Ok g' ∧
          following_dict g' !! 2%nat = Some t ∧
          terminal {[ 2%nat := 1%nat; 1%nat := 0%nat ]} 2 t ∧
          following_dict g' !! t = None.
Proof.
  destruct (simplify_graph_compresses_ledger 100 (Samples.construct Samples.chain2)
              (Samples.the_graph
                 (replay (set_merge_pair
                            (reverse (merge_pair (Samples.construct Samples.chain2)))
                            (Samples.construct Samples.chain2))
                         (reverse (merge_pair (Samples.construct Samples.chain2))))))
    as (g' & Hg' & Hall).
  - vm_compute. reflexivity.
  - vm_compute. reflexivity.
  - apply acyclic_rank. apply (bool_decide_unpack _). vm_compute. exact I.
  - vm_compute. lia.
  - specialize (Hall 2%nat).
    change (following_dict _ !! 2%nat) with (Some 1%nat) in Hall at 1.
    destruct Hall as (t & Ht & Hterm & Hnone).
    exists g', t. split_and!; [exact Hg' | exact Ht | exact Hterm | exact Hnone].
Defined.

(** ** Multi-path accumulation (lines 105-122) *)

(** A child whose edge from [src] is already in the table is skipped by the
    [continue] of line 109: the table is left as it is. *)
Lemma add_node_pair_existing (g : CostGraph) (mm : list Z) (src dst child : Node)
    (E : gmap (Node * Node) (gmap (Z * Z) Cost.t)) :
  is_Some (E !! (src, child)) → add_node_pair g mm src dst E child = Ok E.
Proof. intros [m Hm]. unfold add_node_pair. by rewrite Hm. Qed.

(** The accumulation of lines 121-122 is never reached: the second test of
    line 116 is evaluated only when the first one, at line 108, has failed. *)
Lemma add_node_pair_new (g : CostGraph) (mm : list Z) (src dst child : Node)
    (E E' : gmap (Node * Node) (gmap (Z * Z) Cost.t)) :
  E !! (src, child) = None →
  add_node_pair g mm src dst E child = Ok E' ↔
  ∃ edge_cost, derive_edge_cost g mm E src child (dst, child) = Ok edge_cost ∧
               E' = <[(src, child) := edge_cost]> E.
Proof.
  intros HE. unfold add_node_pair. rewrite HE. rewrite bind_Ok. split.
  - intros (ec & Hec & H). injection H as <-. eauto.
  - intros (ec & Hec & ->). eauto.
Qed.

(** C2 on the triangle 0 -> 1, 0 -> 2, 1 -> 2: node 2 is a child of node 1
    and the edge (0, 2) exists when (0, 1) is merged.  The entry of (0, 2)
    keeps its value 3; the value 5 derived from the edge (1, 2) is not added,
    and the edge (1, 2) that carried it is gone. *)
Lemma merge_keeps_shared_edge_unchanged :
  get_edge_cost (Samples.construct Samples.triangle) 0 2 = Ok {[ (0, 0) := Cost.Fin 3 ]} ∧
  get_edge_cost (Samples.construct Samples.triangle) 1 2 = Ok {[ (0, 0) := Cost.Fin 5 ]} ∧
  children (Samples.construct Samples.triangle) !! 1%nat = Some [2%nat] ∧
  build_merge_map (Samples.construct Samples.triangle) 0 1 = Ok [0] ∧
  ∃ g', merge_node (Samples.construct Samples.triangle) 0 1 = Ok g' ∧
        get_edge_cost g' 0 2 = Ok {[ (0, 0) := Cost.Fin 3 ]} ∧
        get_edge_cost g' 0 2 ≠ Ok {[ (0, 0) := Cost.add (Cost.Fin 3) (Cost.Fin 5) ]} ∧
        get_edge_cost g' 1 2 = Raise KeyError.
Proof.
  split_and!; try (vm_compute; reflexivity).
  eexists. split_and!; try (vm_compute; reflexivity).
  vm_compute. intros H. discriminate H.
Qed.

(** ** [list.remove] and the guarded [append] *)

Section list_remove.
Context {A : Type} `{EqDecision A}.

Lemma list_remove_elem_of (l l' : list A) (x : A) :
  list_remove l x = Ok l' → x ∈ l.
Proof.
  revert l'. induction l as [|y l IH]; intros l' H; simpl in H; [done|].
  destruct (decide (y = x)) as [->|]; [by left|].
  apply fmap_Ok in H as (l1 & H1 & _). right. by eapply IH.
Qed.

Lemma list_remove_returns (l : list A) (x : A) :
  x ∈ l → ∃ l', list_remove l x = Ok l'.
Proof.
  induction l as [|y l IH]; intros Hx; [by apply elem_of_nil in Hx|].
  simpl. destruct (decide (y = x)) as [->|Hne]; [eauto|].
  apply elem_of_cons in Hx as [->|Hx]; [done|].
  destruct (IH Hx) as [l' ->]. simpl. eauto.
Qed.

Lemma list_remove_other (l l' : list A) (x y : A) :
  list_remove l x = Ok l' → y ≠ x → y ∈ l' ↔ y ∈ l.
Proof.
  revert l'. induction l as [|z l IH]; intros l' H Hne; simpl in H; [done|].
  destruct (decide (z = x)) as [->|Hzx].
  - injection H as <-. rewrite elem_of_cons. split; [by right|]. by intros [->|?].
  - apply fmap_Ok in H as (l1 & H1 & ->). rewrite !elem_of_cons.
    by rewrite (IH l1).
Qed.

Lemma list_remove_subseteq (l l' : list A) (x y : A) :
  list_remove l x = Ok l' → y ∈ l' → y ∈ l.
Proof.
  revert l'. induction l as [|z l IH]; intros l' H Hy; simpl in H; [done|].
  destruct (decide (z = x)) as [->|Hzx].
  - injection H as <-. by right.
  - apply fmap_Ok in H as (l1 & H1 & ->).
    apply elem_of_cons in Hy as [->|Hy]; [by left|]. right. by eapply IH.
Qed.

Lemma list_remove_NoDup (l l' : list A) (x : A) :
  list_remove l x = Ok l' → NoDup l → NoDup l' ∧ x ∉ l'.
Proof.
  revert l'. induction l as [|z l IH]; intros l' H Hnd; simpl in H; [done|].
  apply NoDup_cons in Hnd as [Hz Hnd].
  destruct (decide (z = x)) as [->|Hzx].
  - injection H as <-. by split.
  - apply fmap_Ok in H as (l1 & H1 & ->).
    destruct (IH l1 H1 Hnd) as [Hnd1 Hx1]. split.
    + apply NoDup_cons. split; [|done]. intros Hz1. apply Hz.
      by eapply list_remove_subseteq.
    + apply not_elem_of_cons. by split.
Qed.

Lemma list_remove_length (l l' : list A) (x : A) :
  list_remove l x = Ok l' → length l = Datatypes.S (length l').
Proof.
  revert l'. induction l as [|z l IH]; intros l' H; simpl in H; [done|].
  destruct (decide (z = x)) as [->|Hzx].
  - by injection H as <-.
  - apply fmap_Ok in H as (l1 & H1 & ->). simpl. f_equal. by apply IH.
Qed.

Lemma elem_of_append_if_absent (l : list A) (x y : A) :
  y ∈ append_if_absent l x ↔ y ∈ l ∨ y = x.
Proof.
  unfold append_if_absent. destruct (decide (x ∈ l)) as [Hx|Hx].
  - split; [by left | by intros [?| ->]].
  - rewrite elem_of_app, list_elem_of_singleton. done.
Qed.

Lemma NoDup_append_if_absent (l : list A) (x : A) :
  NoDup l → NoDup (append_if_absent l x).
Proof.
  intros Hnd. unfold append_if_absent. destruct (decide (x ∈ l)) as [Hx|Hx]; [done|].
  apply NoDup_app. split_and!; [done | | apply NoDup_singleton].
  intros y Hy ->%list_elem_of_singleton. done.
Qed.

End list_remove.

(** ** Edge re-derivation (lines 110-115) *)

Lemma derive_row_spec (mm : list Z) (E : gmap (Node * Node) (gmap (Z * Z) Cost.t))
    (old_node_pair : Node * Node) (i n : nat) (ec0 ec : gmap (Z * Z) Cost.t) :
  foldM (derive_entry mm E old_node_pair i) ec0 (range n) = Ok ec →
  (∀ j, (j < n)%nat → derived_entry mm E old_node_pair ec i j) ∧
  (∀ key, (∀ j, (j < n)%nat → key ≠ (Z.of_nat i, Z.of_nat j)) → ec !! key = ec0 !! key).
Proof.
  intros H. unfold range in H.
  refine (foldM_seq_invariant _
            (λ k ec, (∀ j, (j < k)%nat → derived_entry mm E old_node_pair ec i j) ∧
                     (∀ key, (∀ j, (j < k)%nat → key ≠ (Z.of_nat i, Z.of_nat j)) →
                             ec !! key = ec0 !! key)) 0 n ec0 ec _ _ H).
  - clear H ec. intros k ec1 ec2 _ [Hdone Hrest] Hstep.
    unfold derive_entry in Hstep.
    apply bind_Ok in Hstep as (jj & Hjj & Hstep). apply merge_map_get_Ok in Hjj.
    apply bind_Ok in Hstep as (old & Hold & Hstep). apply dict_get_Ok in Hold.
    apply bind_Ok in Hstep as (v & Hv & Hstep). apply dict_get_Ok in Hv.
    injection Hstep as <-. split.
    + intros j Hj. destruct (decide (j = k)) as [->|Hjk].
      * exists jj, old, v. by rewrite lookup_insert_eq.
      * destruct (Hdone j) as (jj' & old' & v' & ? & ? & ? & ?); [lia|].
        exists jj', old', v'. split_and!; [done..|].
        rewrite lookup_insert_ne; [done|]. intros [= Heq]. lia.
    + intros key Hkey. rewrite lookup_insert_ne.
      * apply Hrest. intros j Hj. apply Hkey. lia.
      * intros <-. by apply (Hkey k); [lia|].
  - split; [intros j Hj; lia | done].
Qed.

Lemma derive_edge_cost_spec (g : CostGraph) (mm : list Z)
    (E : gmap (Node * Node) (gmap (Z * Z) Cost.t)) (src child : Node)
    (old_node_pair : Node * Node) (ec : gmap (Z * Z) Cost.t) :
  derive_edge_cost g mm E src child old_node_pair = Ok ec →
  ∃ n_src, node_lens g !! src = Some n_src ∧
    ∀ i, (i < n_src)%nat →
      ∃ n_child, node_lens g !! child = Some n_child ∧
        ∀ j, (j < n_child)%nat → derived_entry mm E old_node_pair ec i j.
Proof.
  intros H. unfold derive_edge_cost in H.
  apply bind_Ok in H as (n_src & Hn & H). apply dict_get_Ok in Hn.
  exists n_src. split; [done|]. unfold range in H at 2.
  refine (foldM_seq_invariant _
            (λ k ec, ∀ i, (i < k)%nat →
               ∃ n_child, node_lens g !! child = Some n_child ∧
                 ∀ j, (j < n_child)%nat → derived_entry mm E old_node_pair ec i j)
            0 n_src ∅ ec _ _ H).
  - clear H ec. intros k ec1 ec2 _ Hdone Hstep.
    apply bind_Ok in Hstep as (n_child & Hc & Hstep). apply dict_get_Ok in Hc.
    apply derive_row_spec in Hstep as [Hrow Hrest].
    intros i Hi. exists n_child. split; [done|]. intros j Hj.
    destruct (decide (i = k)) as [->|Hik]; [by apply Hrow|].
    destruct (Hdone i) as (n_child' & Hc' & Hd); [lia|].
    assert (n_child' = n_child) as -> by congruence.
    destruct (Hd j Hj) as (jj & old & v & ? & ? & ? & Hv).
    exists jj, old, v. split_and!; [done..|].
    rewrite Hrest; [done|]. intros j' _ Heq. injection Heq as Heq. lia.
  - intros i Hi. lia.
Qed.

(** The derivation reads the table at the old node pair only. *)
Lemma derive_edge_cost_ext (g : CostGraph) (mm : list Z)
    (E1 E2 : gmap (Node * Node) (gmap (Z * Z) Cost.t)) (src child : Node)
    (old_node_pair : Node * Node) :
  E1 !! old_node_pair = E2 !! old_node_pair →
  derive_edge_cost g mm E1 src child old_node_pair
  = derive_edge_cost g mm E2 src child old_node_pair.
Proof.
  intros HE. unfold derive_edge_cost.
  destruct (dict_get (node_lens g) src) as [n_src|]; [simpl|done].
  assert (Hentry : ∀ i ec j, derive_entry mm E1 old_node_pair i ec j
                             = derive_entry mm E2 old_node_pair i ec j).
  { intros i ec j. unfold derive_entry.
    destruct (merge_map_get mm i) as [jj|]; simpl; [|done].
    unfold dict_get. by rewrite HE. }
  assert (Hrow : ∀ i l ec, foldM (derive_entry mm E1 old_node_pair i) ec l
                           = foldM (derive_entry mm E2 old_node_pair i) ec l).
  { intros i l. induction l as [|j l IH]; intros ec; simpl; [done|].
    rewrite Hentry. destruct (derive_entry mm E2 old_node_pair i ec j); simpl; [apply IH|done]. }
  generalize (∅ : gmap (Z * Z) Cost.t).
  induction (range n_src) as [|i l IH]; intros ec; simpl; [done|].
  destruct (dict_get (node_lens g) child) as [n_child|]; simpl; [|done].
  rewrite Hrow.
  destruct (foldM (derive_entry mm E2 old_node_pair i) ec (range n_child)); simpl; [apply IH|done].
Qed.

(** The table after the loop of lines 105-122: the entries it had are kept
    as they are, and each child of [dst] without an edge from [src] gets the
    derived matrix. *)
Lemma add_node_pairs_spec (g : CostGraph) (mm : list Z) (src dst : Node)
    (l : list Node) (E0 E1 : gmap (Node * Node) (gmap (Z * Z) Cost.t)) :
  src ≠ dst →
  foldM (add_node_pair g mm src dst) E0 l = Ok E1 →
  ∀ k, match E0 !! k with
       | Some m => E1 !! k = Some m
       | None =>
           (∀ c, c ∈ l → k = (src, c) →
                 ∃ ec, derive_edge_cost g mm E0 src c (dst, c) = Ok ec ∧ E1 !! k = Some ec) ∧
           ((∀ c, c ∈ l → k ≠ (src, c)) → E1 !! k = None)
       end.
Proof.
  intros Hne. revert E0. induction l as [|c0 l IH]; intros E0 H k; simpl in H.
  { injection H as <-. destruct (E0 !! k) eqn:Hk; [done|]. split; [|done].
    intros c Hc. by apply elem_of_nil in Hc. }
  apply bind_Ok in H as (Ea & Hstep & H). specialize (IH Ea H).
  destruct (E0 !! (src, c0)) as [m0|] eqn:Hc0.
  - rewrite add_node_pair_existing in Hstep by eauto. injection Hstep as <-.
    specialize (IH k). destruct (E0 !! k) eqn:Hk; [done|].
    destruct IH as [IH1 IH2]. split.
    + intros c Hc ->. apply elem_of_cons in Hc as [->|Hc]; [congruence|].
      by apply IH1.
    + intros Hk'. apply IH2. intros c Hc. apply Hk'. by right.
  - apply add_node_pair_new in Hstep as (ec0 & Hec0 & ->); [|done].
    pose proof (IH k) as IHk. destruct (E0 !! k) as [m|] eqn:Hk.
    + rewrite lookup_insert_ne in IHk by congruence. by rewrite Hk in IHk.
    + destruct (decide (k = (src, c0))) as [->|Hkc0].
      * rewrite lookup_insert_eq in IHk. split.
        -- intros c _ [= <-]. eauto.
        -- intros Hk'. exfalso. by apply (Hk' c0); [left|].
      * rewrite lookup_insert_ne in IHk by done. rewrite Hk in IHk.
        destruct IHk as [IH1 IH2]. split.
        -- intros c Hc ->. apply elem_of_cons in Hc as [->|Hc]; [done|].
           destruct (IH1 c Hc eq_refl) as (ec & Hec & HE1). exists ec. split; [|done].
           rewrite <- Hec. apply derive_edge_cost_ext.
           rewrite lookup_insert_ne; [done|]. intros [= ? _]. done.
        -- intros Hk'. apply IH2. intros c Hc. apply Hk'. by right.
Qed.

(** ** Adjacency rewiring (lines 128-137) *)

Lemma foldM_prefix_invariant {S A : Type} (f : S → A → result S)
    (P : list A → S → Prop) (l : list A) (s s' : S) :
  P [] s →
  (∀ done x rest s1 s2, l = done ++ x :: rest → P done s1 → f s1 x = Ok s2 →
                        P (done ++ [x]) s2) →
  foldM f s l = Ok s' →
  P l s'.
Proof.
  intros Hinit Hstep.
  assert (Hgen : ∀ rest done s1, l = done ++ rest → P done s1 →
                                 foldM f s1 rest = Ok s' → P l s').
  { induction rest as [|x rest IH]; intros done s1 Hl Hdone Hloop; simpl in Hloop.
    - injection Hloop as <-. by rewrite Hl, app_nil_r.
    - apply bind_Ok in Hloop as (s2 & Hx & Hloop).
      apply (IH (done ++ [x]) s2); [by rewrite <- app_assoc | | done].
      by eapply Hstep. }
  by apply (Hgen l [] s).
Qed.

Lemma rewired_parents_step (src dst : Node) (dst_parents cp cp' : list Node) :
  (if decide (length dst_parents = 0%nat)
   then list_remove (append_if_absent cp src) dst = Ok cp'
   else cp' = append_if_absent cp src) →
  src ≠ dst →
  rewired_parents src dst dst_parents cp cp'.
Proof.
  intros Hcp Hne. destruct (decide (length dst_parents = 0%nat)) as [Hlen|Hlen].
  - assert (Hin : dst ∈ cp).
    { apply list_remove_elem_of in Hcp as Hin.
      apply elem_of_append_if_absent in Hin as [?|?]; [done|congruence]. }
    split_and!.
    + intros Hnd. eapply list_remove_NoDup; [done|]. by apply NoDup_append_if_absent.
    + intros y Hy. apply elem_of_append_if_absent. by eapply list_remove_subseteq.
    + intros y Hy Hyd. apply length_zero_iff_nil in Hlen.
      apply (list_remove_other _ _ _ y Hcp); [by apply Hyd|].
      by apply elem_of_append_if_absent.
    + intros _. split; [done|]. intros Hnd.
      eapply list_remove_NoDup; [done|]. by apply NoDup_append_if_absent.
  - subst cp'. split_and!.
    + apply NoDup_append_if_absent.
    + intros y. by rewrite elem_of_append_if_absent.
    + intros y Hy _. by apply elem_of_append_if_absent.
    + intros ->. done.
Qed.

Lemma rewire_child_step (src dst : Node) (dst_parents src_children : list Node)
    (g1 : CostGraph) (done : list Node) (x : Node) (s1 s2 : CostGraph) :
  src ≠ dst → x ≠ dst → x ∉ done →
  rewired src dst dst_parents src_children g1 done s1 →
  rewire_child src dst s1 x = Ok s2 →
  rewired src dst dst_parents src_children g1 (done ++ [x]) s2.
Proof.
  intros Hne Hxd Hxdone
    (Hreg & Hextra & Hfol & Hdp & (sc & Hch & Hsc & Hscnd) & Hout & Hin & Hkeep & Hpop) H.
  unfold rewire_child in H.
  apply bind_Ok in H as (sc0 & Hsc0 & H). apply getattr_Ok in Hsc0.
  rewrite Hch, lookup_insert_eq in Hsc0. injection Hsc0 as <-.
  apply bind_Ok in H as (cp & Hcp & H). apply getattr_Ok in Hcp. simpl in Hcp.
  apply bind_Ok in H as (dp & Hdp' & H). apply getattr_Ok in Hdp'. simpl in Hdp'.
  rewrite lookup_insert_ne in Hdp' by done. rewrite Hdp in Hdp'. injection Hdp' as <-.
  assert (Hcp1 : parents g1 !! x = Some cp) by (by rewrite <- Hout).
  assert (∃ cp' E',
    (if decide (length dst_parents = 0%nat)
     then list_remove (append_if_absent cp src) dst = Ok cp' ∧
          is_Some (edge_costs s1 !! (dst, x)) ∧ E' = delete (dst, x) (edge_costs s1)
     else cp' = append_if_absent cp src ∧ E' = edge_costs s1) ∧
    parents s2 = <[x := cp']> (parents s1) ∧
    children s2 = <[src := append_if_absent sc x]> (children g1) ∧
    edge_costs s2 = E' ∧
    same_registry s1 s2 ∧ extra_node_costs s2 = extra_node_costs s1 ∧
    following_dict s2 = following_dict s1) as (cp' & E' & Hbranch & Hp2 & Hc2 & HE2 & Hreg2 & Hx2 & Hf2).
  { destruct (decide (length dst_parents = 0%nat)) as [Hlen|Hlen].
    - apply bind_Ok in H as (cp2 & Hcp2 & H). apply getattr_Ok in Hcp2. simpl in Hcp2.
      rewrite lookup_insert_eq in Hcp2. injection Hcp2 as <-.
      apply bind_Ok in H as (cp3 & Hcp3 & H).
      apply bind_Ok in H as (E' & HE' & H). apply dict_pop_Ok in HE' as [Hsome ->].
      injection H as <-. simpl. exists cp3, (delete (dst, x) (edge_costs s1)).
      split_and!; try done.
      + by rewrite insert_insert_eq.
      + by rewrite Hch, insert_insert_eq.
    - injection H as <-. simpl. exists (append_if_absent cp src), (edge_costs s1).
      split_and!; try done. by rewrite Hch, insert_insert_eq. }
  assert (Hrp : rewired_parents src dst dst_parents cp cp').
  { apply rewired_parents_step; [|done].
    destruct (decide (length dst_parents = 0%nat));
      [by destruct Hbranch as (? & _) | by destruct Hbranch as [? _]]. }
  unfold rewired. split_and!.
  - destruct Hreg as (? & ? & ? & ?), Hreg2 as (? & ? & ? & ?).
    unfold same_registry. split_and!; congruence.
  - congruence.
  - congruence.
  - rewrite Hp2, lookup_insert_ne by done. done.
  - exists (append_if_absent sc x). split_and!; [done| |].
    + intros y. rewrite elem_of_append_if_absent, elem_of_app, list_elem_of_singleton, Hsc.
      tauto.
    + intros Hnd. apply NoDup_append_if_absent. by apply Hscnd.
  - intros n Hnd Hn. apply not_elem_of_app in Hn as [Hn Hnx].
    apply not_elem_of_cons in Hnx as [Hnx _].
    rewrite Hp2, lookup_insert_ne by done. by apply Hout.
  - intros n Hn. apply elem_of_app in Hn as [Hn|Hn].
    + assert (n ≠ x) by (intros ->; done).
      rewrite Hp2, lookup_insert_ne by done. by apply Hin.
    + apply list_elem_of_singleton in Hn as ->.
      exists cp, cp'. rewrite Hp2, lookup_insert_eq. done.
  - intros Hnil. rewrite HE2.
    destruct (decide (length dst_parents = 0%nat)) as [Hlen|Hlen].
    + by apply length_zero_iff_nil in Hlen.
    + destruct Hbranch as [_ ->]. by apply Hkeep.
  - intros Hnil. destruct (Hpop Hnil) as [Hgone Hrest]. rewrite HE2.
    destruct (decide (length dst_parents = 0%nat)) as [Hlen|Hlen];
      [|by rewrite Hnil in Hlen].
    destruct Hbranch as (_ & Hsome & ->).
    rewrite Hrest in Hsome by (intros c Hc [= ->]; done).
    split.
    + intros c Hc. apply elem_of_app in Hc as [Hc|Hc].
      * destruct (Hgone c Hc) as [? Hnone]. split; [done|].
        rewrite lookup_delete_ne by (intros [= ->]; done). done.
      * apply list_elem_of_singleton in Hc as ->. split; [done|].
        by rewrite lookup_delete_eq.
    + intros k Hk. rewrite lookup_delete_ne.
      * apply Hrest. intros c Hc. apply Hk. apply elem_of_app. by left.
      * intros <-. apply (Hk x); [|done]. apply elem_of_app. right. by left.
Qed.

Lemma rewire_loop_spec (src dst : Node) (dst_parents src_children : list Node)
    (g1 g2 : CostGraph) (l : list Node) :
  src ≠ dst → dst ∉ l → NoDup l →
  parents g1 !! dst = Some dst_parents →
  children g1 !! src = Some src_children →
  foldM (rewire_child src dst) g1 l = Ok g2 →
  rewired src dst dst_parents src_children g1 l g2.
Proof.
  intros Hne Hdl Hnd Hdp Hsc.
  apply (foldM_prefix_invariant _ (rewired src dst dst_parents src_children g1)).
  - unfold rewired. split_and!; try done.
    + exists src_children. split_and!; [by rewrite insert_id | | done].
      intros x. rewrite elem_of_nil. tauto.
    + intros n Hn. by apply elem_of_nil in Hn.
    + intros _. split; [|done]. intros c Hc. by apply elem_of_nil in Hc.
  - intros done x rest s1 s2 Hl Hs1 Hx. subst l.
    apply NoDup_app in Hnd as (_ & Hdisj & _).
    eapply rewire_child_step; [done | | | done | done].
    + intros ->. apply Hdl. apply elem_of_app. right. by left.
    + intros Hxd. apply (Hdisj x Hxd). by left.
Qed.

(** ** The effect of a merge *)

Lemma merge_node_effect (g : CostGraph) (src dst : Node) (g' : CostGraph)
    (dst_parents dst_children : list Node) :
  merge_node g src dst = Ok g' →
  src ≠ dst →
  parents g !! dst = Some dst_parents →
  children g !! dst = Some dst_children →
  dst ∉ dst_children →
  NoDup dst_children →
  ∃ mm X E1 dst_parents' src_children src_children' g2,
    build_merge_map g src dst = Ok mm ∧
    accrue_extra_costs g src dst mm = Ok X ∧
    foldM (add_node_pair g mm src dst) (edge_costs g) dst_children = Ok E1 ∧
    list_remove dst_parents src = Ok dst_parents' ∧
    children g !! src = Some src_children ∧
    list_remove src_children dst = Ok src_children' ∧
    is_Some (E1 !! (src, dst)) ∧
    rewired src dst dst_parents' src_children'
      (detached g src dst X (delete (src, dst) E1) dst_parents' src_children')
      dst_children g2 ∧
    g' = if decide (dst_parents' = []) then absorbed g2 src dst else g2.
Proof.
  intros Hm Hne Hdp Hdc Hself Hnd.
  apply merge_node_stages in Hm
    as (dp & mm & X & dc & E1 & dp' & sc & sc' & dc' & g2 & dp2 & Hdp0 & _ & Hmm & HX & Hdc0
        & HE1 & Hdp' & Hsc & Hsc' & Hsome & Hdc' & Hloop & Hdp2 & ->).
  assert (dp = dst_parents) as -> by congruence.
  assert (dc = dst_children) as -> by congruence.
  rewrite lookup_insert_ne in Hdc' by done.
  assert (dc' = dst_children) as -> by congruence.
  apply rewire_loop_spec with (dst_parents := dp') (src_children := sc') in Hloop;
    [|done..| |].
  - exists mm, X, E1, dp', sc, sc', g2. split_and!; try done.
    destruct Hloop as (_ & _ & _ & Hdpg2 & _).
    assert (dp2 = dp') as -> by congruence.
    destruct (decide (length dp' = 0%nat)) as [Hlen|Hlen];
      destruct (decide (dp' = [])) as [Hnil|Hnil]; try done.
    + by apply length_zero_iff_nil in Hlen.
    + by rewrite Hnil in Hlen.
  - simpl. by rewrite lookup_insert_eq.
  - simpl. by rewrite lookup_insert_eq.
Qed.

(** C6: once merge(src, dst) has removed src from dst's parents, if dst has
    no parents left then at the end of the merge dst's children list is empty,
    no former child of dst lists dst among its parents, no edge (dst, child)
    can be queried any more, and the ledger records dst as absorbed into src;
    if dst keeps other parents, its children, their parent lists, its edges
    and the ledger stay as they were. *)
Theorem full_absorption_cleanup (g : CostGraph) (src dst : Node) (g' : CostGraph)
    (dst_parents dst_children : list Node) :
  merge_node g src dst = Ok g' →
  src ≠ dst →
  parents g !! dst = Some dst_parents →
  children g !! dst = Some dst_children →
  dst ∉ dst_children →
  NoDup dst_children →
  (∀ c cp, c ∈ dst_children → parents g !! c = Some cp → NoDup cp) →
  ∃ dst_parents',
    list_remove dst_parents src = Ok dst_parents' ∧
    parents g' !! dst = Some dst_parents' ∧
    (dst_parents' = [] →
     children g' !! dst = Some [] ∧
     following_dict g' !! dst = Some src ∧
     ∀ c, c ∈ dst_children →
          (∃ cp, parents g' !! c = Some cp ∧ dst ∉ cp) ∧
          get_edge_cost g' dst c = Raise KeyError) ∧
    (dst_parents' ≠ [] →
     children g' !! dst = Some dst_children ∧
     following_dict g' = following_dict g ∧
     ∀ c, c ∈ dst_children →
          (∀ cp, parents g !! c = Some cp → dst ∈ cp →
                 ∃ cp', parents g' !! c = Some cp' ∧ dst ∈ cp') ∧
          get_edge_cost g' dst c = get_edge_cost g dst c).
Proof.
  intros Hm Hne Hdp Hdc Hself Hnd Hcnd.
  destruct (merge_node_effect _ _ _ _ _ _ Hm Hne Hdp Hdc Hself Hnd)
    as (mm & X & E1 & dp' & sc & sc' & g2 & _ & _ & HE1 & Hdp' & _ & _ & _ & Hrew & ->).
  destruct Hrew as (_ & _ & Hfol & Hdp2 & (sc2 & Hch & _) & _ & Hin & Hkeep & Hpop).
  exists dp'. split; [done|].
  assert (Hcp1 : ∀ c, c ∈ dst_children →
            parents (detached g src dst X (delete (src, dst) E1) dp' sc') !! c
            = parents g !! c).
  { intros c Hc. simpl. rewrite lookup_insert_ne; [done|]. by intros ->. }
  destruct (decide (dp' = [])) as [Hnil|Hnil]; (split; [done|]); split; try done.
  - intros _. simpl. rewrite lookup_insert_eq. rewrite lookup_insert_eq.
    split_and!; [done..|]. intros c Hc.
    destruct (Hin c Hc) as (cp & cp' & Hcp & Hcp' & _ & _ & _ & Hgone).
    rewrite Hcp1 in Hcp by done. split.
    + exists cp'. split; [done|]. apply Hgone; [done|]. by eapply Hcnd.
    + unfold get_edge_cost, dict_get. simpl.
      destruct (Hpop Hnil) as [Hgone' _]. destruct (Hgone' c Hc) as [_ ->]. done.
  - intros _. rewrite Hch, Hfol. simpl. rewrite !lookup_insert_ne by done.
    split_and!; [done..|]. intros c Hc. split.
    + intros cp Hcp Hdcp.
      destruct (Hin c Hc) as (cp0 & cp' & Hcp0 & Hcp' & _ & _ & Hadd & _).
      rewrite Hcp1 in Hcp0 by done. assert (cp0 = cp) as -> by congruence.
      exists cp'. split; [done|]. apply Hadd; [by left|done].
    + unfold get_edge_cost, dict_get. rewrite (Hkeep Hnil). simpl.
      rewrite lookup_delete_ne by (intros [= ? _]; done).
      pose proof (add_node_pairs_spec _ _ _ _ _ _ _ Hne HE1 (dst, c)) as Hk.
      destruct (edge_costs g !! (dst, c)) as [m|]; [by rewrite Hk|].
      destruct Hk as [_ ->]; [done|]. intros c' _ [= ? _]. done.
Qed.

(** C6 on the chain 0 -> 1 -> 2: node 0 is the only parent of node 1. *)
Lemma full_absorption_cleanup_witness :
  children (Samples.the_graph (merge_node (Samples.construct Samples.chain) 0 1)) !! 1%nat
  = Some [] ∧
  following_dict (Samples.the_graph (merge_node (Samples.construct Samples.chain) 0 1))
    !! 1%nat = Some 0%nat ∧
  get_edge_cost (Samples.the_graph (merge_node (Samples.construct Samples.chain) 0 1)) 1 2
  = Raise KeyError.
Proof.
  destruct (full_absorption_cleanup (Samples.construct Samples.chain) 0%nat 1%nat
              (Samples.the_graph (merge_node (Samples.construct Samples.chain) 0 1))
              [0%nat] [2%nat])
    as (dp' & Hdp' & _ & Habs & _).
  - vm_compute. reflexivity.
  - lia.
  - vm_compute. reflexivity.
  - vm_compute. reflexivity.
  - intros H. apply list_elem_of_singleton in H. lia.
  - apply NoDup_singleton.
  - intros c cp Hc Hcp. apply list_elem_of_singleton in Hc. subst c.
    vm_compute in Hcp. injection Hcp as <-. apply NoDup_singleton.
  - vm_compute in Hdp'. injection Hdp' as <-.
    destruct (Habs eq_refl) as (Hch & Hfol & Hc).
    destruct (Hc 2%nat) as [_ Hedge]; [by left|].
    split_and!; [exact Hch | exact Hfol | exact Hedge].
Defined.

(** ** Total cost of an assignment *)

Lemma lsum_nil {A : Type} (h : A → Cost.t) : lsum h [] = Cost.zero.
Proof. done. Qed.

Lemma lsum_cons {A : Type} (h : A → Cost.t) (x : A) (l : list A) :
  lsum h (x :: l) = Cost.plus (h x) (lsum h l).
Proof. done. Qed.

Lemma lsum_permutation {A : Type} (h : A → Cost.t) (l1 l2 : list A) :
  l1 ≡ₚ l2 → lsum h l1 = lsum h l2.
Proof.
  induction 1 as [|x l1 l2 _ IH|x y l|l1 l2 l3 _ IH1 _ IH2]; simpl.
  - done.
  - by rewrite IH.
  - rewrite !cost_plus_assoc. by rewrite (cost_plus_comm (h y)).
  - congruence.
Qed.

Lemma lsum_ext {A : Type} (h1 h2 : A → Cost.t) (l : list A) :
  (∀ x, x ∈ l → h1 x = h2 x) → lsum h1 l = lsum h2 l.
Proof.
  induction l as [|x l IH]; intros Hh; simpl; [done|].
  rewrite Hh by (by left). rewrite IH; [done|]. intros y Hy. apply Hh. by right.
Qed.

Lemma lsum_fmap {A B : Type} (h : B → Cost.t) (f : A → B) (l : list A) :
  lsum h (f <$> l) = lsum (h ∘ f) l.
Proof.
  induction l as [|x l IH]; [done|]. unfold lsum in *. csimpl. by rewrite IH.
Qed.

Section msum.
Context `{Countable K} {V : Type} (f : K → V → Cost.t).

Lemma msum_delete (m : gmap K V) (k : K) :
  msum f m = Cost.plus (term f m k) (msum f (delete k m)).
Proof.
  unfold term. destruct (m !! k) as [v|] eqn:Hk.
  - unfold msum. by rewrite <- (lsum_permutation _ _ _ (map_to_list_delete m k v Hk)).
  - unfold from_option. rewrite cost_plus_zero_l. by rewrite delete_id.
Qed.

Lemma msum_insert (m : gmap K V) (k : K) (v : V) :
  m !! k = None → msum f (<[k := v]> m) = Cost.plus (f k v) (msum f m).
Proof.
  intros Hk. unfold msum. by rewrite (lsum_permutation _ _ _ (map_to_list_insert m k v Hk)).
Qed.

Lemma msum_ext (g : K → V → Cost.t) (m : gmap K V) :
  (∀ k v, m !! k = Some v → f k v = g k v) → msum f m = msum g m.
Proof.
  intros Hfg. unfold msum. apply lsum_ext. intros [k v] Hkv.
  apply elem_of_map_to_list in Hkv. by apply Hfg.
Qed.

(** Taking the items at the keys [ks] out of the sum. *)
Lemma msum_split (m m' : gmap K V) (ks : list K) :
  NoDup ks →
  (∀ k, k ∈ ks → m' !! k = None) →
  (∀ k, k ∉ ks → m' !! k = m !! k) →
  msum f m = Cost.plus (lsum (term f m) ks) (msum f m').
Proof.
  revert m. induction ks as [|k ks IH]; intros m Hnd Hin Hout.
  - rewrite lsum_nil, cost_plus_zero_l. f_equal. apply map_eq. intros k. symmetry. apply Hout.
    apply not_elem_of_nil.
  - apply NoDup_cons in Hnd as [Hk Hnd].
    rewrite lsum_cons, (msum_delete m k), <- cost_plus_assoc. f_equal.
    rewrite (IH (delete k m)); [|done| |].
    + f_equal. apply lsum_ext. intros k' Hk'. unfold term.
      rewrite lookup_delete_ne; [done|]. by intros ->.
    + intros k' Hk'. apply Hin. by right.
    + intros k' Hk'. destruct (decide (k' = k)) as [->|Hne].
      * rewrite lookup_delete_eq. apply Hin. by left.
      * rewrite lookup_delete_ne by done. apply Hout.
        apply not_elem_of_cons. by split.
Qed.

End msum.

Lemma cost_plus_zero_r (c : Cost.t) : Cost.plus c Cost.zero = c.
Proof. by rewrite cost_plus_comm, cost_plus_zero_l. Qed.

Lemma agrees_spec (g : CostGraph) (src dst : Node) (src_sv dst_sv : list ShardingStrategy)
    (i j : nat) :
  agrees g src dst = true →
  strategies_vector g !! src = Some src_sv →
  strategies_vector g !! dst = Some dst_sv →
  (i < length src_sv)%nat → (j < length dst_sv)%nat →
  ∃ m, edge_costs g !! (src, dst) = Some m ∧
       cost_entry g src dst i (Z.of_nat j) = dict_get m (Z.of_nat i, Z.of_nat j).
Proof.
  intros Hag Hsrc Hdst Hi Hj. unfold agrees in Hag. rewrite Hsrc, Hdst in Hag.
  destruct (edge_costs g !! (src, dst)) as [m|]; [|done].
  exists m. split; [done|].
  rewrite forallb_forall in Hag. specialize (Hag i).
  rewrite <- list_elem_of_In, elem_of_range in Hag. specialize (Hag Hi).
  rewrite forallb_forall in Hag. specialize (Hag j).
  rewrite <- list_elem_of_In, elem_of_range in Hag. specialize (Hag Hj).
  by apply bool_decide_eq_true in Hag.
Qed.

Lemma exact_accrual_spec (g : CostGraph) (src dst : Node) (mm : list Z)
    (dst_extra : list Cost.t) (i : nat) (j : Z) (c e : Cost.t) :
  exact_accrual g src dst = true →
  build_merge_map g src dst = Ok mm →
  extra_node_costs g !! dst = Some dst_extra →
  mm !! i = Some j →
  cost_entry g src dst i j = Ok c →
  list_getitem dst_extra j = Ok e →
  Cost.add c e = Cost.plus c e.
Proof.
  intros Hex Hmm Hdx Hj Hc He. unfold exact_accrual in Hex. rewrite Hdx, Hmm in Hex.
  rewrite forallb_forall in Hex. specialize (Hex i).
  rewrite <- list_elem_of_In, elem_of_range in Hex.
  specialize (Hex (lookup_lt_Some _ _ _ Hj)).
  unfold merge_map_get in Hex. rewrite Hj, Hc, He in Hex.
  by apply bool_decide_eq_true in Hex.
Qed.

Lemma unshared_children_spec (g : CostGraph) (src dst : Node) :
  unshared_children g src dst = true →
  ∃ dst_children, children g !! dst = Some dst_children ∧
                  (dst ∉ dst_children) ∧ NoDup dst_children ∧
                  ∀ c, c ∈ dst_children → edge_costs g !! (src, c) = None.
Proof.
  unfold unshared_children. destruct (children g !! dst) as [dc|]; [|done].
  rewrite !andb_true_iff, !bool_decide_eq_true. intros [[Hself Hnd] Hall].
  exists dc. split_and!; [done..|]. intros c Hc.
  rewrite forallb_forall in Hall. specialize (Hall c).
  rewrite <- list_elem_of_In in Hall. specialize (Hall Hc).
  by apply bool_decide_eq_true in Hall.
Qed.

(** ** Cost preservation by a clean merge *)

Lemma build_merge_map_registry (g1 g2 : CostGraph) (src dst : Node) :
  strategies_vector g2 = strategies_vector g1 →
  build_merge_map g2 src dst = build_merge_map g1 src dst.
Proof.
  intros Hsv. unfold build_merge_map. rewrite Hsv.
  destruct (getattr (strategies_vector g1) src) as [src_sv|]; [simpl|done].
  assert (Hlow : ∀ i, lowest_cost_index g2 src dst i = lowest_cost_index g1 src dst i).
  { intros i. unfold lowest_cost_index. by rewrite Hsv. }
  induction (range (length src_sv)) as [|i l IH]; [done|]. simpl.
  by rewrite Hlow, IH.
Qed.

(** The extra costs after a clean merge: what was charged before, plus the
    entry of the merged edge that the assignment selects. *)
Lemma clean_merge_extra_sum (g g' : CostGraph) (src dst : Node) (s : Node → nat)
    (src_sv : list ShardingStrategy) (mm : list Z) :
  src ≠ dst →
  strategies_vector g !! src = Some src_sv →
  (s src < length src_sv)%nat →
  extra_node_costs g !! src = None →
  following_dict g !! src = None →
  following_dict g !! dst = None →
  mm !! s src = Some (Z.of_nat (s dst)) →
  accrue_extra_costs g src dst mm = Ok (extra_node_costs g') →
  following_dict g' = <[dst := src]> (following_dict g) →
  (∀ dst_extra c e, extra_node_costs g !! dst = Some dst_extra →
                    cost_entry g src dst (s src) (Z.of_nat (s dst)) = Ok c →
                    list_getitem dst_extra (Z.of_nat (s dst)) = Ok e →
                    Cost.add c e = Cost.plus c e) →
  ∃ c, cost_entry g src dst (s src) (Z.of_nat (s dst)) = Ok c ∧
       extra_sum g' s = Cost.plus c (extra_sum g s).
Proof.
  intros Hne Hsrc Hs HXsrc HFsrc HFdst Hmm HX HF Hexact.
  destruct (accrue_extra_costs_spec _ _ _ _ _ _ Hne Hsrc HX)
    as (n & l & _ & _ & HX' & Hdone & _).
  destruct (Hdone _ Hs) as (v & Hv & j & c & Hj & Hc & Hacc).
  assert (j = Z.of_nat (s dst)) as -> by congruence.
  exists c. split; [done|].
  unfold extra_sum. rewrite HX', HF. rewrite msum_insert by done.
  assert (Hsrc_term : extra_term (<[dst := src]> (following_dict g)) s src l = v).
  { unfold extra_term. rewrite lookup_insert_ne by done. by rewrite HFsrc, Hv. }
  rewrite Hsrc_term.
  rewrite (msum_delete _ (extra_node_costs g) dst).
  rewrite (msum_delete (extra_term (following_dict g) s) (extra_node_costs g) dst).
  assert (Hrest : msum (extra_term (<[dst := src]> (following_dict g)) s)
                       (delete dst (extra_node_costs g))
                  = msum (extra_term (following_dict g) s) (delete dst (extra_node_costs g))).
  { apply msum_ext. intros k lk Hk. unfold extra_term.
    rewrite lookup_insert_ne; [done|]. intros <-. by rewrite lookup_delete_eq in Hk. }
  rewrite Hrest. unfold term.
  destruct (extra_node_costs g !! dst) as [dst_extra|] eqn:Hdx; cbn [from_option].
  - destruct Hacc as (e & He & ->). rewrite (Hexact dst_extra c e) by done.
    apply list_getitem_nat in He.
    assert (H1 : extra_term (<[dst := src]> (following_dict g)) s dst dst_extra = Cost.zero).
    { unfold extra_term. by rewrite lookup_insert_eq. }
    assert (H2 : extra_term (following_dict g) s dst dst_extra = e).
    { unfold extra_term. by rewrite HFdst, He. }
    by rewrite H1, H2, cost_plus_zero_l, cost_plus_assoc.
  - subst v. by rewrite !cost_plus_zero_l.
Qed.

(** The edge table after a clean merge sums to what it summed to before,
    less the selected entry of the merged edge. *)
Lemma clean_merge_edge_sum (g : CostGraph) (src dst : Node) (s : Node → nat)
    (mm : list Z) (dst_children : list Node)
    (E1 E' : gmap (Node * Node) (gmap (Z * Z) Cost.t)) :
  src ≠ dst →
  dst ∉ dst_children →
  NoDup dst_children →
  (∀ c, c ∈ dst_children → edge_costs g !! (src, c) = None) →
  valid_assignment g s →
  mm !! s src = Some (Z.of_nat (s dst)) →
  foldM (add_node_pair g mm src dst) (edge_costs g) dst_children = Ok E1 →
  (∀ c, c ∈ dst_children → E' !! (dst, c) = None) →
  (∀ k, (∀ c, c ∈ dst_children → k ≠ (dst, c)) → E' !! k = delete (src, dst) E1 !! k) →
  edge_sum g s = Cost.plus (term (edge_term s) (edge_costs g) (src, dst))
                          (msum (edge_term s) E').
Proof.
  intros Hne Hself Hnd Hfresh Hvalid Hmm HE1 Hgone Hkept.
  pose proof (add_node_pairs_spec _ _ _ _ _ _ _ Hne HE1) as Hadd.
  set (olds := (λ c : Node, (dst, c)) <$> dst_children).
  set (news := (λ c : Node, (src, c)) <$> dst_children).
  set (Erest := foldr delete (edge_costs g) ((src, dst) :: olds)).
  assert (Hin_olds : ∀ k, k ∈ olds ↔ ∃ c, k = (dst, c) ∧ c ∈ dst_children).
  { intros k. unfold olds. by rewrite list_elem_of_fmap. }
  assert (Hin_news : ∀ k, k ∈ news ↔ ∃ c, k = (src, c) ∧ c ∈ dst_children).
  { intros k. unfold news. by rewrite list_elem_of_fmap. }
  assert (Hnd_olds : NoDup ((src, dst) :: olds)).
  { apply NoDup_cons. split.
    - intros (c & Heq & _)%Hin_olds. congruence.
    - apply NoDup_fmap_2; [|done]. by intros c1 c2 [= ->]. }
  assert (Hnd_news : NoDup news).
  { apply NoDup_fmap_2; [|done]. by intros c1 c2 [= ->]. }
  assert (Hold : edge_sum g s
                 = Cost.plus (lsum (term (edge_term s) (edge_costs g)) ((src, dst) :: olds))
                            (msum (edge_term s) Erest)).
  { apply msum_split; [done| |].
    - intros k Hk. by apply lookup_foldr_delete.
    - intros k Hk. by apply lookup_foldr_delete_not_elem_of. }
  assert (Hnew : msum (edge_term s) E'
                 = Cost.plus (lsum (term (edge_term s) E') news) (msum (edge_term s) Erest)).
  { apply msum_split; [done| |].
    - intros k (c & -> & Hc)%Hin_news. unfold Erest.
      rewrite lookup_foldr_delete_not_elem_of; [by apply Hfresh|].
      intros [Heq|(c' & Heq & _)%Hin_olds]%elem_of_cons; congruence.
    - intros k Hk. unfold Erest.
      destruct (decide (k ∈ (src, dst) :: olds)) as [Hko|Hko].
      + rewrite lookup_foldr_delete by done. symmetry.
        apply elem_of_cons in Hko as [->|(c & -> & Hc)%Hin_olds]; [|by apply Hgone].
        rewrite Hkept by (intros c _ Heq; congruence). apply lookup_delete_eq.
      + rewrite lookup_foldr_delete_not_elem_of by done.
        apply not_elem_of_cons in Hko as [Hk1 Hk2].
        rewrite Hkept; [|intros c Hc ->; apply Hk2, Hin_olds; eauto].
        rewrite lookup_delete_ne by done.
        specialize (Hadd k). destruct (edge_costs g !! k) as [m|]; [done|].
        destruct Hadd as [_ ->]; [done|]. intros c Hc ->. apply Hk, Hin_news. eauto. }
  assert (Hterms : lsum (term (edge_term s) E') news
                   = lsum (term (edge_term s) (edge_costs g)) olds).
  { unfold news, olds. rewrite !lsum_fmap. apply lsum_ext. intros c Hc. simpl.
    assert (Hcd : c ≠ dst) by (by intros ->).
    unfold term. rewrite Hkept by (intros c' _ Heq; congruence).
    rewrite lookup_delete_ne by congruence.
    pose proof (Hadd (src, c)) as Hsc. rewrite Hfresh in Hsc by done.
    destruct Hsc as [Hsc _]. destruct (Hsc c Hc eq_refl) as (ec & Hec & ->).
    apply derive_edge_cost_spec in Hec as (n_src & Hn_src & Hec).
    destruct (Hec (s src)) as (n_child & Hn_child & Hrow); [by apply Hvalid|].
    destruct (Hrow (s c)) as (j & old & v & Hj & Hold' & Hv & Hecv); [by apply Hvalid|].
    assert (j = Z.of_nat (s dst)) as -> by congruence.
    rewrite Hold'. simpl. unfold edge_term. simpl. by rewrite Hecv, Hv. }
  rewrite Hold, Hnew, Hterms, lsum_cons. by rewrite cost_plus_assoc.
Qed.

Lemma clean_merge_total_cost (g g' : CostGraph) (src dst : Node) (s : Node → nat) :
  clean_merge g src dst = true →
  merge_node g src dst = Ok g' →
  valid_assignment g s →
  follows_merge_map g s src dst →
  total_cost g' s = total_cost g s.
Proof.
  intros Hclean Hm Hvalid (mm & Hmm & Hsel).
  unfold clean_merge in Hclean. rewrite !andb_true_iff, !bool_decide_eq_true in Hclean.
  destruct Hclean as [[[[[[[[Hne Hpar] HXsrc] HFsrc] HFdst] Hun] Hlens] Hag] Hex].
  apply unshared_children_spec in Hun as (dc & Hdc & Hself & Hnd & Hfresh).
  destruct (merge_node_effect _ _ _ _ _ _ Hm Hne Hpar Hdc Hself Hnd)
    as (mm' & X & E1 & dp' & sc & sc' & g2 & Hmm' & HX & HE1 & Hdp' & _ & _ & _ & Hrew & ->).
  assert (mm' = mm) as -> by congruence.
  simpl in Hdp'. rewrite decide_True in Hdp' by done. injection Hdp' as <-.
  rewrite decide_True by done.
  destruct Hrew as (_ & Hextra & Hfol & _ & _ & _ & _ & _ & Hpop).
  destruct (Hpop eq_refl) as [Hgone Hkept]. simpl in *.
  (* the strategies of src and dst *)
  pose proof HX as HX'. unfold accrue_extra_costs in HX'.
  apply bind_Ok in HX' as (n & Hn & HX'). apply dict_get_Ok in Hn.
  apply bind_Ok in HX' as (src_sv & Hsrc & _). apply getattr_Ok in Hsrc.
  rewrite Hn, Hsrc in Hlens. injection Hlens as ->.
  assert (Hs : (s src < length src_sv)%nat) by (by apply Hvalid).
  (* the extra costs *)
  destruct (clean_merge_extra_sum g (absorbed g2 src dst) src dst s src_sv mm)
    as (c & Hc & Hxs); try done.
  { simpl. by rewrite Hextra. }
  { simpl. by rewrite Hfol. }
  { intros dst_extra c e Hdx Hc He. by eapply exact_accrual_spec. }
  (* the edges *)
  pose proof (clean_merge_edge_sum g src dst s mm dc E1 (edge_costs g2)
                Hne Hself Hnd Hfresh Hvalid Hsel HE1) as Hes.
  unfold total_cost. rewrite Hes; [|intros c' Hc'; by apply Hgone|done].
  (* the merged edge holds the registry entry *)
  pose proof Hc as Hc'. unfold cost_entry in Hc'.
  apply bind_Ok in Hc' as (dst_sv & Hdst & _). apply getattr_Ok in Hdst.
  destruct (merge_map_selected _ _ _ _ _ _ _ Hmm Hsrc Hdst Hs) as (m & j & Hj & Hsel').
  assert (j = Z.of_nat (s dst)) as -> by congruence.
  assert (Hsd : (s dst < length dst_sv)%nat).
  { destruct Hsel' as [[[= _ Hneg] _] | (k & z & [= _ Hk] & Hlt & _)]; [lia|].
    apply Nat2Z.inj in Hk. by subst k. }
  destruct (agrees_spec _ _ _ _ _ _ _ Hag Hsrc Hdst Hs Hsd) as (m0 & Hm0 & Hentry).
  rewrite Hc in Hentry. symmetry in Hentry. apply dict_get_Ok in Hentry.
  assert (Hterm : term (edge_term s) (edge_costs g) (src, dst) = c).
  { unfold term. rewrite Hm0. simpl. unfold edge_term. simpl. by rewrite Hentry. }
  rewrite Hxs, Hterm.
  change (edge_sum (absorbed g2 src dst) s) with (msum (edge_term s) (edge_costs g2)).
  rewrite !cost_plus_assoc. f_equal. apply cost_plus_comm.
Qed.

Lemma clean_replay_total_cost (g g' : CostGraph) (pairs : list (Node * Node))
    (s : Node → nat) :
  clean_replay g pairs = true →
  replay g pairs = Ok g' →
  valid_assignment g s →
  (∀ p, p ∈ pairs → follows_merge_map g s p.1 p.2) →
  total_cost g' s = total_cost g s.
Proof.
  revert g. induction pairs as [|p pairs IH]; intros g Hclean Hrep Hvalid Hfollow.
  - simpl in Hrep. by injection Hrep as <-.
  - simpl in Hrep. apply bind_Ok in Hrep as (g1 & Hg1 & Hrep).
    simpl in Hclean. apply andb_true_iff in Hclean as [Hc Hclean].
    rewrite Hg1 in Hclean.
    pose proof (merge_node_frame g p.1 p.2 g1 Hg1) as (Hlens & Hsv & _).
    rewrite (IH g1); [| done | done | |].
    + apply (clean_merge_total_cost g g1 p.1 p.2 s); [done..|]. apply Hfollow. by left.
    + intros n k Hk. apply Hvalid. by rewrite <- Hlens.
    + intros q Hq. destruct (Hfollow q) as (mm & Hmm & Hsel); [by right|].
      exists mm. split; [|done]. by rewrite (build_merge_map_registry g).
Qed.

Lemma extra_sum_ledger (X : gmap Node (list Cost.t)) (F F' : gmap Node Node)
    (s : Node → nat) :
  (∀ n, is_Some (F' !! n) ↔ is_Some (F !! n)) →
  msum (extra_term F' s) X = msum (extra_term F s) X.
Proof.
  intros HF. apply msum_ext. intros n l _. unfold extra_term.
  specialize (HF n). destruct (F' !! n), (F !! n); try done.
  - destruct HF as [HF _]. by destruct HF.
  - destruct HF as [_ HF]. by destruct HF.
Qed.

Lemma reindex_following_dict_dom (depth : nat) (F F' : gmap Node Node) (n : Node) :
  reindex_following_dict depth F = Ok F' → is_Some (F' !! n) ↔ is_Some (F !! n).
Proof.
  intros H. pose proof (reindex_following_dict_spec _ _ _ n H) as Hn.
  destruct (F !! n) as [t|].
  - destruct Hn as (t' & -> & _). by split.
  - by rewrite Hn.
Qed.

(** C1, as amended: take a graph without extra costs, as the construction
    leaves it, and let every merge(src, dst) that the driver replays be applied
    to a graph in which src is the only parent of dst, src and dst share no
    child, neither is absorbed, src has accrued no extra cost yet, node_lens
    and the matrix of the edge (src, dst) are those of the registry, and the
    float additions of line 102 are exact.  Then for every assignment that
    gives each node of the original graph one of its strategies and each
    merged dst the merge_map image of the strategy of its src, the sum of the
    live edge-cost entries selected plus the extra-node-cost entries of the
    nodes that are not absorbed equals the sum of the edge-cost entries
    selected over every edge of the original graph. *)
Theorem clean_simplification_preserves_cost (depth : nat) (g g' : CostGraph)
    (s : Node → nat) :
  simplify g = true →
  extra_node_costs g = ∅ →
  clean_replay (set_merge_pair (reverse (merge_pair g)) g) (reverse (merge_pair g)) = true →
  simplify_graph depth g = Ok g' →
  valid_assignment g s →
  Forall (λ p, follows_merge_map g s p.1 p.2) (merge_pair g) →
  Cost.plus (edge_sum g' s) (extra_sum g' s) = edge_sum g s.
Proof.
  intros Hs HX Hclean Hg' Hvalid Hfollow.
  apply simplify_graph_stages in Hg' as (g2 & F & Hg2 & HF & ->); [|done].
  pose proof (clean_replay_total_cost _ _ _ s Hclean Hg2) as Hcost.
  assert (Hsame : total_cost (set_following_dict F
                                (set_merge_pair (reverse (merge_pair g2)) g2)) s
                  = total_cost g2 s).
  { unfold total_cost, edge_sum, extra_sum. simpl. f_equal.
    apply extra_sum_ledger. intros n. by eapply reindex_following_dict_dom. }
  fold (total_cost (set_following_dict F (set_merge_pair (reverse (merge_pair g2)) g2)) s).
  rewrite Hsame, Hcost.
  - unfold total_cost, edge_sum, extra_sum. simpl. rewrite HX.
    unfold msum at 2. rewrite map_to_list_empty, lsum_nil. apply cost_plus_zero_r.
  - done.
  - intros p Hp. rewrite elem_of_reverse in Hp.
    rewrite Forall_forall in Hfollow. destruct (Hfollow p Hp) as (mm & Hmm & Hsel).
    exists mm. split; [|done]. by rewrite (build_merge_map_registry g).
Qed.

Lemma clean_simplification_preserves_cost_witness :
  Cost.plus
    (edge_sum (Samples.simplified Samples.chain3)
              (λ n, match n with 1%nat | 3%nat => 1%nat | _ => 0%nat end))
    (extra_sum (Samples.simplified Samples.chain3)
               (λ n, match n with 1%nat | 3%nat => 1%nat | _ => 0%nat end))
  = edge_sum (Samples.construct Samples.chain3)
             (λ n, match n with 1%nat | 3%nat => 1%nat | _ => 0%nat end) ∧
  edge_sum (Samples.simplified Samples.chain3)
           (λ n, match n with 1%nat | 3%nat => 1%nat | _ => 0%nat end) = Cost.Fin 300 ∧
  extra_sum (Samples.simplified Samples.chain3)
            (λ n, match n with 1%nat | 3%nat => 1%nat | _ => 0%nat end) = Cost.Fin 22.
Proof.
  split_and!; [|vm_compute; reflexivity..].
  apply (clean_simplification_preserves_cost 100 (Samples.construct Samples.chain3)).
  - vm_compute. reflexivity.
  - vm_compute. reflexivity.
  - vm_compute. reflexivity.
  - vm_compute. reflexivity.
  - apply (bool_decide_unpack _). vm_compute. exact I.
  - change (merge_pair (Samples.construct Samples.chain3))
      with [(0%nat, 1%nat); (1%nat, 2%nat)].
    apply Forall_cons_2; [|apply Forall_cons_2; [|apply Forall_nil_2]].
    + exists [1; 0]. split; vm_compute; reflexivity.
    + exists [0; 0]. split; vm_compute; reflexivity.
Defined.

(** C1, as stated, fails in three ways, each with one strategy per node and
    the only assignment there is.

    On the fan-in 0 -> 2, 1 -> 2, 2 -> 3, where node 2 follows both of its
    parents, the original graph costs 1 + 1 + 5 = 7.  After simplification the
    edge 2 -> 3 is carried by both (0, 3) and (1, 3), so the live edges alone
    sum to 10, and the extra costs of nodes 0 and 1 add 2.

    On the fan-out 0 -> 1, 0 -> 2, where both consumers follow node 0, the
    original graph costs 1 + 3 = 4.  The merge of (0, 2) charges 3 to node 0,
    and the merge of (0, 1) then starts the extra costs of node 0 afresh at
    line 96: the simplified graph costs 1.

    On the chain 0 -> 1 -> 2 with the costs 2^53 and 1 the original graph
    costs 2^53 + 1.  The merge of (0, 1) adds the two floats at line 102, and
    their float sum is 2^53. *)
Lemma cost_preservation_counterexample :
  (simplify_graph 100 (Samples.construct Samples.fan_in)
   = Ok (Samples.simplified Samples.fan_in) ∧
   valid_assignment (Samples.construct Samples.fan_in) (λ _, 0%nat) ∧
   Forall (λ p, follows_merge_map (Samples.construct Samples.fan_in) (λ _, 0%nat) p.1 p.2)
          (merge_pair (Samples.construct Samples.fan_in)) ∧
   edge_sum (Samples.construct Samples.fan_in) (λ _, 0%nat) = Cost.Fin 7 ∧
   edge_sum (Samples.simplified Samples.fan_in) (λ _, 0%nat) = Cost.Fin 10 ∧
   extra_sum (Samples.simplified Samples.fan_in) (λ _, 0%nat) = Cost.Fin 2 ∧
   Cost.plus (edge_sum (Samples.simplified Samples.fan_in) (λ _, 0%nat))
             (extra_sum (Samples.simplified Samples.fan_in) (λ _, 0%nat))
   ≠ edge_sum (Samples.construct Samples.fan_in) (λ _, 0%nat)) ∧
  (simplify_graph 100 (Samples.construct Samples.fan_out)
   = Ok (Samples.simplified Samples.fan_out) ∧
   valid_assignment (Samples.construct Samples.fan_out) (λ _, 0%nat) ∧
   Forall (λ p, follows_merge_map (Samples.construct Samples.fan_out) (λ _, 0%nat) p.1 p.2)
          (merge_pair (Samples.construct Samples.fan_out)) ∧
   edge_sum (Samples.construct Samples.fan_out) (λ _, 0%nat) = Cost.Fin 4 ∧
   edge_sum (Samples.simplified Samples.fan_out) (λ _, 0%nat) = Cost.Fin 0 ∧
   extra_sum (Samples.simplified Samples.fan_out) (λ _, 0%nat) = Cost.Fin 1 ∧
   Cost.plus (edge_sum (Samples.simplified Samples.fan_out) (λ _, 0%nat))
             (extra_sum (Samples.simplified Samples.fan_out) (λ _, 0%nat))
   ≠ edge_sum (Samples.construct Samples.fan_out) (λ _, 0%nat)) ∧
  (simplify_graph 100 (Samples.construct Samples.large_chain)
   = Ok (Samples.simplified Samples.large_chain) ∧
   valid_assignment (Samples.construct Samples.large_chain) (λ _, 0%nat) ∧
   Forall (λ p, follows_merge_map (Samples.construct Samples.large_chain) (λ _, 0%nat)
                  p.1 p.2)
          (merge_pair (Samples.construct Samples.large_chain)) ∧
   edge_sum (Samples.construct Samples.large_chain) (λ _, 0%nat) = Cost.Fin (2 ^ 53 + 1) ∧
   edge_sum (Samples.simplified Samples.large_chain) (λ _, 0%nat) = Cost.Fin 0 ∧
   extra_sum (Samples.simplified Samples.large_chain) (λ _, 0%nat) = Cost.Fin (2 ^ 53) ∧
   Cost.plus (edge_sum (Samples.simplified Samples.large_chain) (λ _, 0%nat))
             (extra_sum (Samples.simplified Samples.large_chain) (λ _, 0%nat))
   ≠ edge_sum (Samples.construct Samples.large_chain) (λ _, 0%nat)).
Proof.
  split_and!; try (vm_compute; reflexivity);
    try (vm_compute; intros H; discriminate H).
  - apply (bool_decide_unpack _). vm_compute. exact I.
  - change (merge_pair (Samples.construct Samples.fan_in))
      with [(0%nat, 2%nat); (1%nat, 2%nat)].
    apply Forall_cons_2; [|apply Forall_cons_2; [|apply Forall_nil_2]];
      exists [0]; split; vm_compute; reflexivity.
  - apply (bool_decide_unpack _). vm_compute. exact I.
  - change (merge_pair (Samples.construct Samples.fan_out))
      with [(0%nat, 1%nat); (0%nat, 2%nat)].
    apply Forall_cons_2; [|apply Forall_cons_2; [|apply Forall_nil_2]];
      exists [0]; split; vm_compute; reflexivity.
  - apply (bool_decide_unpack _). vm_compute. exact I.
  - change (merge_pair (Samples.construct Samples.large_chain))
      with [(0%nat, 1%nat); (1%nat, 2%nat)].
    apply Forall_cons_2; [|apply Forall_cons_2; [|apply Forall_nil_2]];
      exists [0]; split; vm_compute; reflexivity.
Qed.

(** ** Adjacency and the edge table *)

Lemma add_node_pairs_dom (g : CostGraph) (mm : list Z) (src dst : Node)
    (l : list Node) (E0 E1 : gmap (Node * Node) (gmap (Z * Z) Cost.t)) (a b : Node) :
  src ≠ dst →
  foldM (add_node_pair g mm src dst) E0 l = Ok E1 →
  is_Some (E1 !! (a, b)) ↔ is_Some (E0 !! (a, b)) ∨ (a = src ∧ b ∈ l).
Proof.
  intros Hne HE1. pose proof (add_node_pairs_spec _ _ _ _ _ _ _ Hne HE1 (a, b)) as Hk.
  destruct (E0 !! (a, b)) as [m|] eqn:Hab.
  - rewrite Hk. split; [by left | by eauto].
  - destruct Hk as [Hnew Hnone].
    destruct (decide (a = src ∧ b ∈ l)) as [[-> Hb]|Hno].
    + destruct (Hnew b Hb eq_refl) as (ec & _ & ->). split; [by right | by eauto].
    + rewrite Hnone.
      * split; [by intros [? ?] | intros [[? ?]|?]; done].
      * intros c Hc [= -> ->]. by apply Hno.
Qed.

Lemma merge_node_well_formed (r : Node → nat) (g g' : CostGraph) (src dst : Node) :
  well_formed r g →
  merge_node g src dst = Ok g' →
  well_formed r g' ∧ ¬ adjacent g' src dst ∧
  (parents g' !! dst = Some [] → ∀ c, ¬ adjacent g' dst c).
Proof.
  intros (Hcons & Hnodup & Hrank) Hm.
  pose proof Hm as Hst. apply merge_node_stages in Hst
    as (dp & _ & _ & dc & _ & _ & sc & sc' & _ & _ & _ & Hdp & _ & _ & _ & Hdc & _ & _
        & Hsc & Hsc' & _).
  assert (Hsd : adjacent g src dst).
  { exists sc. split; [done|]. by eapply list_remove_elem_of. }
  assert (Hne : src ≠ dst).
  { intros ->. apply Hrank in Hsd. lia. }
  assert (Hself : dst ∉ dc).
  { intros Hin. assert (adjacent g dst dst) as Hdd by (by exists dc).
    apply Hrank in Hdd. lia. }
  assert (Hnd : NoDup dc) by (by eapply Hnodup).
  destruct (merge_node_effect _ _ _ _ _ _ Hm Hne Hdp Hdc Hself Hnd)
    as (mm & X & E1 & dp' & sc0 & sc0' & g2 & _ & _ & HE1 & _ & Hsc0 & Hsc0' & _ & Hrew & ->).
  assert (sc0 = sc) as -> by congruence.
  assert (sc0' = sc') as -> by congruence.
  destruct Hrew as (_ & _ & _ & Hdp2 & (sc2 & Hch & Hsc2 & Hsc2nd) & _ & _ & Hkeep & Hpop).
  simpl in Hch, Hkeep, Hpop. rewrite insert_insert_eq in Hch.
  assert (Hndsc : NoDup sc) by (by eapply Hnodup).
  destruct (list_remove_NoDup _ _ _ Hsc' Hndsc) as [Hndsc' Hdsc'].
  assert (Hsc2' : ∀ x, x ∈ sc2 ↔ (x ∈ sc ∧ x ≠ dst) ∨ x ∈ dc).
  { intros x. rewrite Hsc2. split.
    - intros [Hx|Hx]; [|by right]. left. split; [by eapply list_remove_subseteq|].
      by intros ->.
    - intros [[Hx Hxd]|Hx]; [|by right]. left.
      by apply (list_remove_other _ _ _ x Hsc'). }
  (* the children and the table of the result *)
  set (gone := bool_decide (dp' = [])).
  assert (Hchildren : ∀ a, children (if decide (dp' = []) then absorbed g2 src dst else g2) !! a
                           = if decide (a = dst) then (if gone then Some [] else Some dc)
                             else if decide (a = src) then Some sc2
                             else children g !! a).
  { intros a. unfold gone. destruct (decide (dp' = [])) as [Hnil|Hnil]; simpl.
    - rewrite bool_decide_eq_true_2 by done. rewrite Hch.
      destruct (decide (a = dst)) as [->|Had].
      + by rewrite lookup_insert_eq.
      + rewrite lookup_insert_ne by done.
        destruct (decide (a = src)) as [->|Has].
        * by rewrite lookup_insert_eq.
        * by rewrite lookup_insert_ne.
    - rewrite bool_decide_eq_false_2 by done. rewrite Hch.
      destruct (decide (a = dst)) as [->|Had].
      + by rewrite lookup_insert_ne.
      + destruct (decide (a = src)) as [->|Has].
        * by rewrite lookup_insert_eq.
        * by rewrite lookup_insert_ne. }
  assert (Hedges : ∀ a b,
            is_Some (edge_costs (if decide (dp' = []) then absorbed g2 src dst else g2)
                       !! (a, b))
            ↔ (if decide (a = dst) then gone = false ∧ b ∈ dc
               else if decide (a = src) then b ∈ sc2
               else adjacent g a b)).
  { intros a b.
    assert (HE1ab : is_Some (E1 !! (a, b)) ↔ adjacent g a b ∨ (a = src ∧ b ∈ dc)).
    { rewrite (add_node_pairs_dom _ _ _ _ _ _ _ a b Hne HE1). by rewrite Hcons. }
    assert (Hdst_adj : ∀ x, adjacent g dst x ↔ x ∈ dc).
    { intros x. split; [intros (l & Hl & Hx); congruence | intros Hx; by exists dc]. }
    assert (Hsrc_adj : ∀ x, adjacent g src x ↔ x ∈ sc).
    { intros x. split; [intros (l & Hl & Hx); congruence | intros Hx; by exists sc]. }
    assert (HE2 : edge_costs (if decide (dp' = []) then absorbed g2 src dst else g2)
                  = edge_costs g2) by (by destruct (decide (dp' = []))).
    rewrite HE2. unfold gone.
    destruct (decide (a = dst)) as [->|Had].
    - destruct (decide (dp' = [])) as [Hnil|Hnil].
      + rewrite bool_decide_eq_true_2 by done.
        destruct (Hpop Hnil) as [Hgone Hkept].
        destruct (decide (b ∈ dc)) as [Hb|Hb].
        * destruct (Hgone b Hb) as [_ ->]. split; [by intros [? ?] | by intros [? _]].
        * rewrite Hkept by (intros c Hc [= ->]; done).
          rewrite lookup_delete_ne by congruence. rewrite HE1ab, Hdst_adj.
          split; [intros [?|[? _]]; done | by intros [? _]].
      + rewrite bool_decide_eq_false_2 by done. rewrite (Hkeep Hnil).
        rewrite lookup_delete_ne by congruence. rewrite HE1ab, Hdst_adj.
        split; [intros [?|[? _]]; done | intros [_ ?]; by left].
    - assert (HE2ab : edge_costs g2 !! (a, b) = delete (src, dst) E1 !! (a, b)).
      { destruct (decide (dp' = [])) as [Hnil|Hnil].
        - destruct (Hpop Hnil) as [_ Hkept]. apply Hkept. intros c _ [= ? _]. done.
        - by rewrite (Hkeep Hnil). }
      rewrite HE2ab. destruct (decide (a = src)) as [->|Has].
      + rewrite Hsc2'. destruct (decide (b = dst)) as [->|Hbd].
        * rewrite lookup_delete_eq. split; [by intros [? ?] | intros [[_ ?]|?]; done].
        * rewrite lookup_delete_ne by congruence. rewrite HE1ab, Hsrc_adj.
          split; [intros [?|[_ ?]]; [by left | by right]
                 | intros [[? _]|?]; [by left | by right]].
      + rewrite lookup_delete_ne by congruence. rewrite HE1ab.
        split; [intros [?|[? _]]; done | by left]. }
  assert (Hadj : ∀ a b,
            adjacent (if decide (dp' = []) then absorbed g2 src dst else g2) a b
            ↔ (if decide (a = dst) then gone = false ∧ b ∈ dc
               else if decide (a = src) then b ∈ sc2
               else adjacent g a b)).
  { intros a b. unfold adjacent at 1. setoid_rewrite Hchildren.
    destruct (decide (a = dst)) as [->|Had].
    - destruct gone.
      + split; [intros (l & [= <-] & Hb); by apply elem_of_nil in Hb | by intros [? _]].
      + split; [intros (l & [= <-] & Hb); done | intros [_ Hb]; by exists dc].
    - destruct (decide (a = src)) as [->|Has].
      + split; [intros (l & [= <-] & Hb); done | intros Hb; by exists sc2].
      + done. }
  split_and!.
  - split_and!.
    + intros a b. by rewrite Hedges, Hadj.
    + intros a l. rewrite Hchildren.
      destruct (decide (a = dst)) as [->|Had].
      * destruct gone; intros [= <-]; [apply NoDup_nil_2 | done].
      * destruct (decide (a = src)) as [->|Has].
        -- intros [= <-]. by apply Hsc2nd.
        -- apply Hnodup.
    + intros a b. rewrite Hadj.
      destruct (decide (a = dst)) as [->|Had].
      * intros [_ Hb]. apply Hrank. by exists dc.
      * destruct (decide (a = src)) as [->|Has]; [|apply Hrank].
        intros [[Hb _]|Hb]%Hsc2'.
        -- apply Hrank. by exists sc.
        -- assert ((r dst < r b)%nat) by (apply Hrank; by exists dc).
           apply Hrank in Hsd. lia.
  - rewrite Hadj. rewrite decide_False by done. rewrite decide_True by done.
    intros [[_ ?]|?]%Hsc2'; done.
  - intros Hnil c. rewrite Hadj. rewrite decide_True by done. intros [Hgone _].
    assert (Hdpg : parents (if decide (dp' = []) then absorbed g2 src dst else g2) !! dst
                   = Some dp') by (by destruct (decide (dp' = []))).
    rewrite Hdpg in Hnil. injection Hnil as ->. unfold gone in Hgone.
    by rewrite bool_decide_eq_true_2 in Hgone.
Qed.

(** ** The graph after construction *)

Lemma build_edges_dom (h : Node → result (gmap (Z * Z) Cost.t)) (dst : Node)
    (l : list Node) (E0 E1 : gmap (Node * Node) (gmap (Z * Z) Cost.t)) (a b : Node) :
  foldM (λ E src, edge_cost ← h src; Ok (<[(src, dst) := edge_cost]> E)) E0 l = Ok E1 →
  is_Some (E1 !! (a, b)) ↔ is_Some (E0 !! (a, b)) ∨ (b = dst ∧ a ∈ l).
Proof.
  revert E0. induction l as [|src l IH]; intros E0 H; simpl in H.
  - injection H as <-. split; [by left|]. intros [?|[_ Ha]]; [done|].
    by apply elem_of_nil in Ha.
  - apply bind_Ok in H as (Ea & Hstep & H).
    apply bind_Ok in Hstep as (ec & _ & Hstep). injection Hstep as <-.
    rewrite (IH _ H). rewrite elem_of_cons.
    destruct (decide ((src, dst) = (a, b))) as [[= -> ->]|Hne].
    + rewrite lookup_insert_eq. split; [intros _; right; by eauto | intros _; left; by eauto].
    + rewrite lookup_insert_ne by done. split.
      * intros [?|[-> ?]]; [by left | right; by eauto].
      * intros [?|[-> [->|?]]]; [by left | done | right; by eauto].
Qed.

Lemma build_vector_spec (g g' : CostGraph) (sv : StrategiesVector) :
  build_vector g sv = Ok g' →
  (∀ a b, is_Some (edge_costs g' !! (a, b)) ↔
          is_Some (edge_costs g !! (a, b)) ∨ (b = node sv ∧ a ∈ predecessor_nodes sv)) ∧
  children g' = <[node sv := successor_nodes sv]> (children g) ∧
  parents g' = <[node sv := predecessor_nodes sv]> (parents g).
Proof.
  intros H. unfold build_vector in H. apply bind_Ok in H as (E & HE & H).
  assert (Hdom : ∀ a b, is_Some (E !! (a, b)) ↔
                        is_Some (edge_costs g !! (a, b))
                        ∨ (b = node sv ∧ a ∈ predecessor_nodes sv)).
  { intros a b. by eapply build_edges_dom. }
  destruct (simplify g && check_merge sv); by injection H as <-.
Qed.

Lemma init_spec (ls : list StrategiesVector) (simp : bool)
    (sv_attr : gmap Node (list ShardingStrategy)) (g : CostGraph) :
  __init__ ls simp sv_attr = Ok g →
  NoDup (node <$> ls) →
  (∀ a b, is_Some (edge_costs g !! (a, b)) ↔
          ∃ sv, sv ∈ ls ∧ node sv = b ∧ a ∈ predecessor_nodes sv) ∧
  (∀ a l, children g !! a = Some l ↔
          ∃ sv, sv ∈ ls ∧ node sv = a ∧ l = successor_nodes sv).
Proof.
  intros H Hnd. unfold __init__ in H. revert H.
  apply (foldM_prefix_invariant _
           (λ done g,
              (∀ a b, is_Some (edge_costs g !! (a, b)) ↔
                      ∃ sv, sv ∈ done ∧ node sv = b ∧ a ∈ predecessor_nodes sv) ∧
              (∀ a l, children g !! a = Some l ↔
                      ∃ sv, sv ∈ done ∧ node sv = a ∧ l = successor_nodes sv))).
  - simpl. split.
    + intros a b. rewrite lookup_empty. split; [by intros [? ?]|].
      intros (sv & Hsv & _). by apply elem_of_nil in Hsv.
    + intros a l. rewrite lookup_empty. split; [done|].
      intros (sv & Hsv & _). by apply elem_of_nil in Hsv.
  - intros done sv rest g1 g2 Hls [HE Hch] Hstep.
    apply build_vector_spec in Hstep as (HE2 & Hch2 & _).
    assert (Hfresh : ∀ sv', sv' ∈ done → node sv' ≠ node sv).
    { intros sv' Hsv' Heq. rewrite Hls, fmap_app in Hnd.
      apply NoDup_app in Hnd as (_ & Hdisj & _).
      apply (Hdisj (node sv')); [by apply list_elem_of_fmap_2|].
      rewrite Heq. csimpl. by left. }
    split.
    + intros a b. rewrite HE2, HE. setoid_rewrite elem_of_app.
      setoid_rewrite list_elem_of_singleton. split.
      * intros [(sv' & ? & ? & ?)|[-> ?]]; [exists sv'; by eauto | exists sv; by eauto].
      * intros (sv' & [?| ->] & ? & ?); [left; exists sv'; by eauto | right; by eauto].
    + intros a l. rewrite Hch2. setoid_rewrite elem_of_app.
      setoid_rewrite list_elem_of_singleton.
      destruct (decide (a = node sv)) as [->|Ha].
      * rewrite lookup_insert_eq. split.
        -- intros [= <-]. exists sv. by eauto.
        -- intros (sv' & [Hsv'| ->] & Hn & ->); [by apply Hfresh in Hsv'|done].
      * rewrite lookup_insert_ne by done. rewrite Hch. split.
        -- intros (sv' & ? & ? & ?). exists sv'. by eauto.
        -- intros (sv' & [?| ->] & ? & ?); [exists sv'; by eauto | done].
Qed.

Lemma init_well_formed (r : Node → nat) (ls : list StrategiesVector) (simp : bool)
    (sv_attr : gmap Node (list ShardingStrategy)) (g : CostGraph) :
  registry_ok r ls →
  __init__ ls simp sv_attr = Ok g →
  well_formed r g.
Proof.
  intros [Hnd Hreg] H. destruct (init_spec _ _ _ _ H Hnd) as [HE Hch].
  rewrite Forall_forall in Hreg.
  assert (Hadj : ∀ a b, adjacent g a b ↔
                        ∃ sv, sv ∈ ls ∧ node sv = a ∧ b ∈ successor_nodes sv).
  { intros a b. unfold adjacent. split.
    - intros (l & Hl & Hb). apply Hch in Hl as (sv & ? & ? & ->). by exists sv.
    - intros (sv & ? & ? & ?). exists (successor_nodes sv). split; [|done].
      apply Hch. by exists sv. }
  split_and!.
  - intros a b. rewrite HE, Hadj. split.
    + intros (sv & Hsv & <- & Ha). destruct (Hreg sv Hsv) as (_ & _ & Hpred).
      rewrite Forall_forall in Hpred. specialize (Hpred a Ha).
      apply Exists_exists in Hpred as (sv0 & ? & ? & ?). by exists sv0.
    + intros (sv & Hsv & <- & Hb). destruct (Hreg sv Hsv) as (_ & Hsucc & _).
      rewrite Forall_forall in Hsucc. destruct (Hsucc b Hb) as [_ Hex].
      apply Exists_exists in Hex as (sv' & ? & ? & ?). by exists sv'.
  - intros a l Hl. apply Hch in Hl as (sv & Hsv & _ & ->).
    by destruct (Hreg sv Hsv) as (? & _).
  - intros a b (sv & Hsv & <- & Hb)%Hadj. destruct (Hreg sv Hsv) as (_ & Hsucc & _).
    rewrite Forall_forall in Hsucc. by destruct (Hsucc b Hb) as [? _].
Qed.

Lemma replay_well_formed (r : Node → nat) (g g' : CostGraph) (pairs : list (Node * Node)) :
  well_formed r g → replay g pairs = Ok g' → well_formed r g'.
Proof.
  intros Hwf. apply (foldM_invariant _ (well_formed r)); [|done].
  intros g1 g2 p _ Hg1 Hp. by apply (merge_node_well_formed r) in Hp as [? _].
Qed.

(** C8: on a graph constructed from a registry and simplified by any replay
    of merges, get_edge_cost(a, b) returns the live cost matrix when b is a
    child of a in the current graph and fails with KeyError for every pair
    that is not adjacent; in particular it fails on the constructed graph for
    a pair never declared adjacent, and after a further merge(src, dst) it
    fails for the discarded edge (src, dst) and, when dst is fully absorbed,
    for every edge (dst, child). *)
Theorem get_edge_cost_fails_off_the_graph (r : Node → nat) (ls : list StrategiesVector)
    (simp : bool) (sv_attr : gmap Node (list ShardingStrategy))
    (g0 g : CostGraph) (pairs : list (Node * Node)) :
  registry_ok r ls →
  __init__ ls simp sv_attr = Ok g0 →
  replay g0 pairs = Ok g →
  (∀ a b, (adjacent g a b →
           ∃ m, edge_costs g !! (a, b) = Some m ∧ get_edge_cost g a b = Ok m) ∧
          (¬ adjacent g a b → get_edge_cost g a b = Raise KeyError)) ∧
  (∀ a b, (¬ ∃ sv, sv ∈ ls ∧ node sv = b ∧ a ∈ predecessor_nodes sv) →
          get_edge_cost g0 a b = Raise KeyError) ∧
  (∀ src dst g', merge_node g src dst = Ok g' →
                 get_edge_cost g' src dst = Raise KeyError ∧
                 (parents g' !! dst = Some [] →
                  ∀ c, get_edge_cost g' dst c = Raise KeyError)).
Proof.
  intros Hreg Hg0 Hg.
  pose proof (init_well_formed _ _ _ _ _ Hreg Hg0) as Hwf0.
  pose proof (replay_well_formed _ _ _ _ Hwf0 Hg) as Hwf.
  assert (Hlookup : ∀ g1 a b, well_formed r g1 → ¬ adjacent g1 a b →
                              get_edge_cost g1 a b = Raise KeyError).
  { intros g1 a b (Hcons & _) Hab. unfold get_edge_cost, dict_get.
    destruct (edge_costs g1 !! (a, b)) as [m|] eqn:Hm; [|done].
    exfalso. apply Hab, Hcons. by eauto. }
  split_and!.
  - intros a b. split; [|by apply Hlookup].
    intros Hab. destruct Hwf as (Hcons & _). apply Hcons in Hab as [m Hm].
    exists m. split; [done|]. unfold get_edge_cost, dict_get. by rewrite Hm.
  - intros a b Hno. apply Hlookup; [done|]. destruct Hwf0 as (Hcons & _).
    rewrite <- Hcons. destruct Hreg as [Hnd _].
    destruct (init_spec _ _ _ _ Hg0 Hnd) as [HE _]. by rewrite HE.
  - intros src dst g' Hm.
    destruct (merge_node_well_formed r _ _ _ _ Hwf Hm) as (Hwf' & Hsd & Hdc).
    split; [by apply Hlookup|]. intros Hnil c. apply Hlookup; [done|]. by apply Hdc.
Qed.

Lemma get_edge_cost_fails_off_the_graph_witness :
  get_edge_cost (Samples.the_graph (merge_node (Samples.construct Samples.chain) 0 1)) 0 1
  = Raise KeyError ∧
  get_edge_cost (Samples.the_graph (merge_node (Samples.construct Samples.chain) 0 1)) 1 2
  = Raise KeyError ∧
  get_edge_cost (Samples.construct Samples.chain) 0 2 = Raise KeyError ∧
  ∃ m, get_edge_cost (Samples.the_graph (merge_node (Samples.construct Samples.chain) 0 1)) 0 2
       = Ok m.
Proof.
  destruct (get_edge_cost_fails_off_the_graph (λ n, n) Samples.chain true
              (Samples.attributes Samples.chain) (Samples.construct Samples.chain)
              (Samples.construct Samples.chain) [])
    as (Hedge & Hundeclared & Hmerge).
  - unfold registry_ok. apply (bool_decide_unpack _). vm_compute. exact I.
  - vm_compute. reflexivity.
  - reflexivity.
  - destruct (Hmerge 0%nat 1%nat
                (Samples.the_graph (merge_node (Samples.construct Samples.chain) 0 1)))
      as [Hsd Hdc]; [vm_compute; reflexivity|].
    split_and!.
    + exact Hsd.
    + apply Hdc. vm_compute. reflexivity.
    + apply Hundeclared. intros (sv & Hsv & Hn & Hp).
      unfold Samples.chain in Hsv.
      repeat (apply elem_of_cons in Hsv as [->|Hsv]); simpl in *;
        [lia | lia | apply list_elem_of_singleton in Hp; lia | by apply elem_of_nil in Hsv].
    + eexists. vm_compute. reflexivity.
Defined.

(** * Further properties of the code *)

(** ** Construction (lines 20-55) *)

(** The inner loop of lines 46-47 for the strategy [st] at index [i]. *)
Lemma build_row_spec (sv : StrategiesVector) (src : Node) (i n : nat)
    (ec0 ec : gmap (Z * Z) Cost.t) :
  foldM (λ edge_cost j,
           st ← list_getitem (strategies sv) (Z.of_nat i);
           v ← resharding_cost st src j;
           Ok (<[(Z.of_nat j, Z.of_nat i) := v]> edge_cost))
        ec0 (range n) = Ok ec →
  (∀ j, ec0 !! (Z.of_nat j, Z.of_nat i) = None) →
  (∀ j, (j < n)%nat →
        ∃ st v, strategies sv !! i = Some st ∧ resharding_cost st src j = Ok v) ∧
  (∀ key v, ec !! key = Some v ↔
            ec0 !! key = Some v ∨
            ∃ j st, key = (Z.of_nat j, Z.of_nat i) ∧ (j < n)%nat ∧
                    strategies sv !! i = Some st ∧ resharding_cost st src j = Ok v).
Proof.
  intros H Hfresh. unfold range in H.
  refine (foldM_seq_invariant _
            (λ k ec,
               (∀ j, (j < k)%nat →
                     ∃ st v, strategies sv !! i = Some st ∧ resharding_cost st src j = Ok v) ∧
               (∀ key v, ec !! key = Some v ↔
                         ec0 !! key = Some v ∨
                         ∃ j st, key = (Z.of_nat j, Z.of_nat i) ∧ (j < k)%nat ∧
                                 strategies sv !! i = Some st ∧
                                 resharding_cost st src j = Ok v))
            0 n ec0 ec _ _ H).
  - clear H ec. intros k ec1 ec2 _ [Hdef Hkeys] Hstep.
    apply bind_Ok in Hstep as (st & Hst & Hstep). apply list_getitem_nat in Hst.
    apply bind_Ok in Hstep as (v & Hv & Hstep). injection Hstep as <-. split.
    + intros j Hj. destruct (decide (j = k)) as [->|Hjk]; [by eauto|].
      apply Hdef. lia.
    + intros key w. rewrite lookup_insert_Some, Hkeys. split.
      * intros [[<- <-]|[Hne [Hold|(j & st' & -> & Hj & Hst' & Hw)]]].
        -- right. exists k, st. split_and!; [done | lia | done..].
        -- by left.
        -- right. exists j, st'. split_and!; [done | lia | done..].
      * intros [Hold|(j & st' & -> & Hj & Hst' & Hw)].
        -- right. split; [|by left]. intros <-. by rewrite Hfresh in Hold.
        -- destruct (decide (j = k)) as [->|Hjk].
           ++ left. split; [done|]. congruence.
           ++ right. split; [intros [= Heq]; lia|]. right.
              exists j, st'. split_and!; [done | lia | done..].
  - split; [intros j Hj; lia|]. intros key v. split; [by left|].
    intros [?|(j & _ & _ & Hj & _)]; [done | lia].
Qed.

(** Lines 44-47: the keys and the entries of the matrix built for one
    predecessor. *)
Lemma build_edge_cost_spec (sv_attr : gmap Node (list ShardingStrategy))
    (sv : StrategiesVector) (src : Node) (m : gmap (Z * Z) Cost.t) :
  build_edge_cost sv_attr sv src = Ok m →
  (strategies sv = [] → m = ∅) ∧
  (strategies sv ≠ [] → is_Some (sv_attr !! src)) ∧
  (∀ src_sv, sv_attr !! src = Some src_sv →
     (∀ i j, (i < length (strategies sv))%nat → (j < length src_sv)%nat →
             ∃ st v, strategies sv !! i = Some st ∧ resharding_cost st src j = Ok v) ∧
     (∀ key v, m !! key = Some v ↔
               ∃ i j st, key = (Z.of_nat j, Z.of_nat i) ∧ (j < length src_sv)%nat ∧
                         strategies sv !! i = Some st ∧ resharding_cost st src j = Ok v)).
Proof.
  intros H. unfold build_edge_cost in H. split_and!.
  - intros Hnil. rewrite Hnil in H. simpl in H. by injection H as <-.
  - intros Hne. destruct (strategies sv) as [|st l] eqn:Hsv; [done|].
    simpl in H. apply bind_Ok in H as (ec & Hec & _).
    apply bind_Ok in Hec as (src_sv & Hsrc & _). apply getattr_Ok in Hsrc. by eauto.
  - intros src_sv Hsrc. unfold range in H at 2.
    set (P := λ (k : nat) (ec : gmap (Z * Z) Cost.t),
           (∀ i j, (i < k)%nat → (j < length src_sv)%nat →
                   ∃ st v, strategies sv !! i = Some st ∧
                           resharding_cost st src j = Ok v) ∧
           (∀ key v, ec !! key = Some v ↔
                     ∃ i j st, key = (Z.of_nat j, Z.of_nat i) ∧ (i < k)%nat ∧
                               (j < length src_sv)%nat ∧
                               strategies sv !! i = Some st ∧
                               resharding_cost st src j = Ok v)).
    assert (Hinv : P (0 + length (strategies sv))%nat m).
    { eapply (foldM_seq_invariant _ P); [| |exact H].
      - clear H m. intros k ec1 ec2 Hk [Hdef Hkeys] Hstep.
        unfold getattr in Hstep. rewrite Hsrc in Hstep. simpl in Hstep.
        apply build_row_spec in Hstep as [Hrow Hkeys2].
        + split.
          * intros i j Hi Hj. destruct (decide (i = k)) as [->|Hik]; [by apply Hrow|].
            apply Hdef; [lia|done].
          * intros key v. rewrite Hkeys2, Hkeys. split.
            -- intros [(i & j & st & -> & Hi & Hj & Hst & Hv)|(j & st & -> & Hj & Hst & Hv)].
               ++ exists i, j, st. split_and!; [done | lia | done..].
               ++ exists k, j, st. split_and!; [done | lia | done..].
            -- intros (i & j & st & -> & Hi & Hj & Hst & Hv).
               destruct (decide (i = k)) as [->|Hik].
               ++ right. by exists j, st.
               ++ left. exists i, j, st. split_and!; [done | lia | done..].
        + intros j. destruct (ec1 !! (Z.of_nat j, Z.of_nat k)) as [v|] eqn:Hv; [|done].
          apply Hkeys in Hv as (i & j' & _ & Heq & Hi & _). injection Heq as _ Heq. lia.
      - split; [intros i j Hi; lia|]. intros key v. rewrite lookup_empty. split; [done|].
        intros (i & _ & _ & _ & Hi & _). lia. }
    destruct Hinv as [Hdef Hkeys]. simpl in *. split; [done|].
    intros key v. rewrite Hkeys. split.
    + intros (i & j & st & ? & _ & ? & ? & ?). by exists i, j, st.
    + intros (i & j & st & ? & ? & Hst & ?). exists i, j, st.
      split_and!; try done. by eapply lookup_lt_Some.
Qed.

Lemma build_edges_lookup (h : Node → result (gmap (Z * Z) Cost.t)) (dst : Node)
    (l : list Node) (E0 E1 : gmap (Node * Node) (gmap (Z * Z) Cost.t)) :
  foldM (λ E src, edge_cost ← h src; Ok (<[(src, dst) := edge_cost]> E)) E0 l = Ok E1 →
  (∀ src, src ∈ l → ∃ ec, h src = Ok ec ∧ E1 !! (src, dst) = Some ec) ∧
  (∀ k, (∀ src, src ∈ l → k ≠ (src, dst)) → E1 !! k = E0 !! k).
Proof.
  revert E0. induction l as [|x l IH]; intros E0 H; simpl in H.
  - injection H as <-. split; [|done]. intros src Hsrc. by apply elem_of_nil in Hsrc.
  - apply bind_Ok in H as (Ea & Hstep & H).
    apply bind_Ok in Hstep as (ec & Hec & Hstep). injection Hstep as <-.
    destruct (IH _ H) as [Hin Hout]. split.
    + intros src Hsrc. destruct (decide (src ∈ l)) as [Hl|Hl]; [by apply Hin|].
      apply elem_of_cons in Hsrc as [->|Hsrc]; [|done].
      exists ec. split; [done|]. rewrite Hout.
      * by rewrite lookup_insert_eq.
      * intros src Hsrc [= <-]. done.
    + intros k Hk. rewrite Hout.
      * rewrite lookup_insert_ne; [done|]. intros <-. by apply (Hk x); [left|].
      * intros src Hsrc. apply Hk. by right.
Qed.

Lemma node_lens_lookup (ls : list StrategiesVector) (acc : gmap Node nat) (n : Node)
    (k : nat) :
  NoDup (node <$> ls) →
  foldl (λ d sv, <[node sv := length (strategies sv)]> d) acc ls !! n = Some k ↔
  (∃ sv, sv ∈ ls ∧ node sv = n ∧ k = length (strategies sv)) ∨
  ((n ∉ node <$> ls) ∧ acc !! n = Some k).
Proof.
  revert acc. induction ls as [|sv ls IH]; intros acc Hnd; simpl.
  - split; [intros ?; right; split; [apply not_elem_of_nil | done]|].
    intros [(sv & Hsv & _)|[_ ?]]; [by apply elem_of_nil in Hsv | done].
  - csimpl in Hnd. apply NoDup_cons in Hnd as [Hsv Hnd]. rewrite (IH _ Hnd). split.
    + intros [(sv' & ? & ? & ?)|[Hn Hk]].
      * left. exists sv'. split; [by right | done].
      * apply lookup_insert_Some in Hk as [[<- <-]|[Hne Hk]].
        -- left. exists sv. split; [by left | done].
        -- right. split; [|done]. csimpl. apply not_elem_of_cons. by split.
    + intros [(sv' & [->|Hsv']%elem_of_cons & Hn & ->)|[Hn Hk]].
      * right. split; [by rewrite <- Hn|]. rewrite <- Hn. by rewrite lookup_insert_eq.
      * left. by exists sv'.
      * csimpl in Hn. apply not_elem_of_cons in Hn as [Hne Hn].
        right. split; [done|]. by rewrite lookup_insert_ne.
Qed.

(** What the construction loop never writes, and the queue it builds. *)
Lemma init_frame (ls : list StrategiesVector) (simp : bool)
    (sv_attr : gmap Node (list ShardingStrategy)) (g : CostGraph) :
  __init__ ls simp sv_attr = Ok g →
  strategies_vector g = sv_attr ∧ simplify g = simp ∧
  extra_node_costs g = ∅ ∧ following_dict g = ∅ ∧
  node_lens g = foldl (λ d sv, <[node sv := length (strategies sv)]> d) ∅ ls ∧
  merge_pair g = if simp then discovered ls else [].
Proof.
  unfold __init__.
  apply (foldM_prefix_invariant _
           (λ done g,
              strategies_vector g = sv_attr ∧ simplify g = simp ∧
              extra_node_costs g = ∅ ∧ following_dict g = ∅ ∧
              node_lens g = foldl (λ d sv, <[node sv := length (strategies sv)]> d) ∅ ls ∧
              merge_pair g = if simp then discovered done else [])).
  - simpl. split_and!; try done. by destruct simp.
  - intros done sv rest g1 g2 _ (Hsv & Hsimp & HX & HF & HL & Hq) Hstep.
    unfold build_vector in Hstep. apply bind_Ok in Hstep as (E & _ & Hstep).
    rewrite Hsimp in Hstep.
    assert (Hd : discovered (done ++ [sv])
                 = discovered done ++
                   (if check_merge sv
                    then (λ followed, (followed, node sv)) <$> predecessor_nodes sv
                    else [])).
    { unfold discovered. rewrite fmap_app, concat_app. simpl. by rewrite app_nil_r. }
    destruct simp; simpl in Hstep.
    + destruct (check_merge sv); injection Hstep as <-; simpl;
        rewrite Hd, Hq; split_and!; try done. by rewrite app_nil_r.
    + injection Hstep as <-. simpl. done.
Qed.

(** The adjacency attributes and the matrices after construction, when every
    node has one vector. *)
Lemma init_tables (ls : list StrategiesVector) (simp : bool)
    (sv_attr : gmap Node (list ShardingStrategy)) (g : CostGraph) :
  __init__ ls simp sv_attr = Ok g →
  NoDup (node <$> ls) →
  (∀ sv, sv ∈ ls →
         parents g !! node sv = Some (predecessor_nodes sv) ∧
         children g !! node sv = Some (successor_nodes sv) ∧
         ∀ src, src ∈ predecessor_nodes sv →
                ∃ m, edge_costs g !! (src, node sv) = Some m ∧
                     build_edge_cost sv_attr sv src = Ok m) ∧
  (∀ n, n ∉ node <$> ls → parents g !! n = None ∧ children g !! n = None).
Proof.
  intros H Hnd. revert H. unfold __init__.
  apply (foldM_prefix_invariant _
           (λ done g,
              strategies_vector g = sv_attr ∧
              (∀ sv, sv ∈ done →
                     parents g !! node sv = Some (predecessor_nodes sv) ∧
                     children g !! node sv = Some (successor_nodes sv) ∧
                     ∀ src, src ∈ predecessor_nodes sv →
                            ∃ m, edge_costs g !! (src, node sv) = Some m ∧
                                 build_edge_cost sv_attr sv src = Ok m) ∧
              (∀ n, n ∉ node <$> done → parents g !! n = None ∧ children g !! n = None))).
  - simpl. split_and!; [done| |done]. intros sv Hsv. by apply elem_of_nil in Hsv.
  - intros done sv rest g1 g2 Hls (Hattr & Hin & Hout) Hstep.
    assert (Hfresh : ∀ sv', sv' ∈ done → node sv' ≠ node sv).
    { intros sv' Hsv' Heq. rewrite Hls, fmap_app in Hnd.
      apply NoDup_app in Hnd as (_ & Hdisj & _).
      apply (Hdisj (node sv')); [by apply list_elem_of_fmap_2|].
      rewrite Heq. csimpl. by left. }
    pose proof (build_vector_spec _ _ _ Hstep) as (_ & Hch & Hpa).
    unfold build_vector in Hstep. apply bind_Ok in Hstep as (E & HE & Hstep).
    rewrite Hattr in HE. apply build_edges_lookup in HE as [HEin HEout].
    assert (HE2 : edge_costs g2 = E ∧ strategies_vector g2 = sv_attr).
    { destruct (simplify g1 && check_merge sv); by injection Hstep as <-. }
    destruct HE2 as [HE2 Hattr2]. split_and!; [done| |].
    + intros sv' [Hsv'|Hsv']%elem_of_app.
      * pose proof (Hfresh sv' Hsv') as Hne. destruct (Hin sv' Hsv') as (Hp & Hc & He).
        rewrite Hpa, Hch, !lookup_insert_ne by done. split_and!; [done..|].
        intros src Hsrc. destruct (He src Hsrc) as (m & Hm & Hb). exists m.
        split; [|done]. rewrite HE2, HEout; [done|]. intros src' _ [= _ Heq]. done.
      * apply list_elem_of_singleton in Hsv' as ->.
        rewrite Hpa, Hch, !lookup_insert_eq. split_and!; [done..|].
        intros src Hsrc. destruct (HEin src Hsrc) as (m & Hm & HEm).
        exists m. by rewrite HE2.
    + intros n Hn. rewrite fmap_app in Hn. apply not_elem_of_app in Hn as [Hn Hnsv].
      csimpl in Hnsv. apply not_elem_of_cons in Hnsv as [Hnsv _].
      rewrite Hpa, Hch, !lookup_insert_ne by done. by apply Hout.
Qed.

(** X1: after construction the matrix of a declared edge (src, dst) holds,
    at every key (j, i) with j a strategy index of src and i a strategy index
    of dst, the resharding cost that strategy i of dst declares for strategy j
    of src, and it has no other key. *)
Theorem constructed_edge_matrix (ls : list StrategiesVector) (simp : bool)
    (sv_attr : gmap Node (list ShardingStrategy)) (g : CostGraph)
    (sv : StrategiesVector) (src : Node) (src_sv : list ShardingStrategy) :
  __init__ ls simp sv_attr = Ok g →
  NoDup (node <$> ls) →
  sv ∈ ls →
  src ∈ predecessor_nodes sv →
  sv_attr !! src = Some src_sv →
  ∃ m, get_edge_cost g src (node sv) = Ok m ∧
       (∀ i j, (i < length (strategies sv))%nat → (j < length src_sv)%nat →
               ∃ st v, strategies sv !! i = Some st ∧ resharding_cost st src j = Ok v ∧
                       m !! (Z.of_nat j, Z.of_nat i) = Some v) ∧
       (∀ key v, m !! key = Some v →
                 ∃ i j, key = (Z.of_nat j, Z.of_nat i) ∧
                        (i < length (strategies sv))%nat ∧ (j < length src_sv)%nat).
Proof.
  intros Hg Hnd Hsv Hsrc Hattr.
  destruct (init_tables _ _ _ _ Hg Hnd) as [Hin _].
  destruct (Hin sv Hsv) as (_ & _ & He). destruct (He src Hsrc) as (m & Hm & Hb).
  apply build_edge_cost_spec in Hb as (_ & _ & Hspec).
  destruct (Hspec src_sv Hattr) as [Hdef Hkeys].
  exists m. split_and!.
  - unfold get_edge_cost, dict_get. by rewrite Hm.
  - intros i j Hi Hj. destruct (Hdef i j Hi Hj) as (st & v & Hst & Hv).
    exists st, v. split_and!; [done..|]. apply Hkeys. by exists i, j, st.
  - intros key v Hv. apply Hkeys in Hv as (i & j & st & -> & Hj & Hst & _).
    exists i, j. split_and!; [done| |done]. by eapply lookup_lt_Some.
Qed.

Lemma constructed_edge_matrix_witness :
  ∃ m, get_edge_cost (Samples.construct Samples.chain) 0 1 = Ok m ∧
       m !! (1, 0) = Some (Cost.Fin 1).
Proof.
  destruct (constructed_edge_matrix Samples.chain true (Samples.attributes Samples.chain)
              (Samples.construct Samples.chain)
              {| node := 1%nat;
                 strategies := [Samples.strategy [(0%nat, [Cost.Fin 5; Cost.Fin 1])];
                                Samples.strategy [(0%nat, [Cost.Fin 2; Cost.Fin 7])]];
                 predecessor_nodes := [0%nat]; successor_nodes := [2%nat];
                 check_merge := true |}
              0%nat [Samples.strategy []; Samples.strategy []])
    as (m & Hm & Hentries & _).
  - vm_compute. reflexivity.
  - apply (bool_decide_unpack _). vm_compute. exact I.
  - right. left.
  - left.
  - vm_compute. reflexivity.
  - exists m. split; [exact Hm|].
    destruct (Hentries 0%nat 1%nat) as (st & v & Hst & Hv & Hmv); [simpl; lia..|].
    injection Hst as <-. vm_compute in Hv. injection Hv as <-. exact Hmv.
Defined.

(** X2: after the construction of a graph in which every node has one
    vector, the parents and the children of a node are the predecessor and the
    successor list of its vector, node_lens holds its number of strategies,
    and a node without a vector has neither attribute nor an entry in
    node_lens. *)
Theorem constructed_adjacency (ls : list StrategiesVector) (simp : bool)
    (sv_attr : gmap Node (list ShardingStrategy)) (g : CostGraph) :
  __init__ ls simp sv_attr = Ok g →
  NoDup (node <$> ls) →
  (∀ sv, sv ∈ ls →
         parents g !! node sv = Some (predecessor_nodes sv) ∧
         children g !! node sv = Some (successor_nodes sv) ∧
         node_lens g !! node sv = Some (length (strategies sv))) ∧
  (∀ n, n ∉ node <$> ls →
        parents g !! n = None ∧ children g !! n = None ∧ node_lens g !! n = None).
Proof.
  intros Hg Hnd. destruct (init_tables _ _ _ _ Hg Hnd) as [Hin Hout].
  destruct (init_frame _ _ _ _ Hg) as (_ & _ & _ & _ & HL & _). split.
  - intros sv Hsv. destruct (Hin sv Hsv) as (? & ? & _). split_and!; [done..|].
    rewrite HL. apply node_lens_lookup; [done|]. left. by exists sv.
  - intros n Hn. destruct (Hout n Hn) as [? ?]. split_and!; [done..|].
    destruct (node_lens g !! n) as [k|] eqn:Hk; [|done].
    rewrite HL in Hk. apply node_lens_lookup in Hk as [(sv & Hsv & <- & _)|[_ Hk]]; [|done..].
    exfalso. apply Hn. by apply list_elem_of_fmap_2.
Qed.

Lemma constructed_adjacency_witness :
  parents (Samples.construct Samples.chain) !! 1%nat = Some [0%nat] ∧
  children (Samples.construct Samples.chain) !! 1%nat = Some [2%nat] ∧
  node_lens (Samples.construct Samples.chain) !! 1%nat = Some 2%nat ∧
  parents (Samples.construct Samples.chain) !! 7%nat = None.
Proof.
  destruct (constructed_adjacency Samples.chain true (Samples.attributes Samples.chain)
              (Samples.construct Samples.chain)) as [Hin Hout].
  - vm_compute. reflexivity.
  - apply (bool_decide_unpack _). vm_compute. exact I.
  - destruct (Hin {| node := 1%nat;
                     strategies := [Samples.strategy [(0%nat, [Cost.Fin 5; Cost.Fin 1])];
                                    Samples.strategy [(0%nat, [Cost.Fin 2; Cost.Fin 7])]];
                     predecessor_nodes := [0%nat]; successor_nodes := [2%nat];
                     check_merge := true |}) as (Hp & Hc & Hl); [right; left|].
    destruct (Hout 7%nat) as (Hp7 & _).
    + apply (bool_decide_unpack _). vm_compute. exact I.
    + split_and!; [exact Hp | exact Hc | exact Hl | exact Hp7].
Defined.

(** X3: a construction with simplify = True queues the merge pairs in
    discovery order: for each vector that can be merged, in the order of
    leaf_strategies, one pair (predecessor, node) per predecessor in the order
    of its predecessor list.  Every construction starts with no extra cost and
    no ledger record, and a graph built with simplify = False (for which line
    37 sets up no queue at all) is returned as it is by simplify_graph. *)
Theorem constructed_merge_queue (ls : list StrategiesVector) (simp : bool)
    (sv_attr : gmap Node (list ShardingStrategy)) (g : CostGraph) (depth : nat) :
  __init__ ls simp sv_attr = Ok g →
  (simp = true → merge_pair g = discovered ls) ∧
  extra_node_costs g = ∅ ∧ following_dict g = ∅ ∧
  (simp = false → simplify_graph depth g = Ok g).
Proof.
  intros Hg. destruct (init_frame _ _ _ _ Hg) as (_ & Hs & HX & HF & _ & Hq).
  split_and!; [|done..|].
  - intros ->. exact Hq.
  - intros ->. unfold simplify_graph. by rewrite Hs.
Qed.

Lemma constructed_merge_queue_witness :
  merge_pair (Samples.construct Samples.fan_in) = [(0%nat, 2%nat); (1%nat, 2%nat)].
Proof.
  destruct (constructed_merge_queue Samples.fan_in true (Samples.attributes Samples.fan_in)
              (Samples.construct Samples.fan_in) 0) as (Hq & _).
  - vm_compute. reflexivity.
  - rewrite Hq by reflexivity. vm_compute. reflexivity.
Defined.

(** ** Preconditions of a merge (line 82) *)

Lemma list_index_absent {A : Type} `{EqDecision A} (l : list A) (x : A) :
  x ∉ l → list_index l x = Raise ValueError.
Proof.
  induction l as [|y l IH]; intros Hx; simpl; [done|].
  apply not_elem_of_cons in Hx as [Hne Hx].
  rewrite decide_False by done. by rewrite IH.
Qed.

Lemma merge_node_not_parent (g : CostGraph) (src dst : Node) (l : list Node) :
  parents g !! dst = Some l → src ∉ l → merge_node g src dst = Raise ValueError.
Proof.
  intros Hl Hsrc. unfold merge_node, getattr. rewrite Hl. simpl.
  by rewrite list_index_absent.
Qed.

(** X4: merge_node(src, dst) stops at line 82 when src is not among the
    parents of dst: with ValueError when dst has a parents list without src,
    with AttributeError when dst has no parents attribute. *)
Theorem merge_node_requires_parent (g : CostGraph) (src dst : Node) :
  (parents g !! dst = None → merge_node g src dst = Raise AttributeError) ∧
  (∀ l, parents g !! dst = Some l → src ∉ l → merge_node g src dst = Raise ValueError).
Proof.
  split.
  - intros Hnone. unfold merge_node, getattr. by rewrite Hnone.
  - apply merge_node_not_parent.
Qed.

Lemma merge_node_requires_parent_witness :
  merge_node (Samples.construct Samples.chain) 0 2 = Raise ValueError ∧
  merge_node (Samples.construct Samples.chain) 0 7 = Raise AttributeError.
Proof.
  destruct (merge_node_requires_parent (Samples.construct Samples.chain) 0%nat 2%nat)
    as [_ Hvalue].
  destruct (merge_node_requires_parent (Samples.construct Samples.chain) 0%nat 7%nat)
    as [Hattr _].
  split.
  - apply (Hvalue [1%nat]); [vm_compute; reflexivity|].
    apply (bool_decide_unpack _). vm_compute. exact I.
  - apply Hattr. vm_compute. reflexivity.
Defined.

(** X5: a merge cannot be replayed twice: after merge_node(src, dst) has
    returned, src is no parent of dst any more and a second
    merge_node(src, dst) raises ValueError. *)
Theorem merge_node_not_repeatable (g g' : CostGraph) (src dst : Node)
    (dst_parents dst_children : list Node) :
  merge_node g src dst = Ok g' →
  src ≠ dst →
  parents g !! dst = Some dst_parents →
  NoDup dst_parents →
  children g !! dst = Some dst_children →
  dst ∉ dst_children →
  NoDup dst_children →
  merge_node g' src dst = Raise ValueError.
Proof.
  intros Hm Hne Hdp Hnd Hdc Hself Hndc.
  destruct (merge_node_effect _ _ _ _ _ _ Hm Hne Hdp Hdc Hself Hndc)
    as (mm & X & E1 & dp' & sc & sc' & g2 & _ & _ & _ & Hdp' & _ & _ & _ & Hrew & ->).
  destruct Hrew as (_ & _ & _ & Hdp2 & _).
  apply (merge_node_not_parent _ _ _ dp').
  - by destruct (decide (dp' = [])).
  - by eapply list_remove_NoDup.
Qed.

Lemma merge_node_not_repeatable_witness :
  merge_node (Samples.the_graph (merge_node (Samples.construct Samples.fan_in) 1 2)) 1 2
  = Raise ValueError.
Proof.
  apply (merge_node_not_repeatable (Samples.construct Samples.fan_in) _ 1%nat 2%nat
           [0%nat; 1%nat] [3%nat]).
  - vm_compute. reflexivity.
  - lia.
  - vm_compute. reflexivity.
  - apply (bool_decide_unpack _). vm_compute. exact I.
  - vm_compute. reflexivity.
  - apply (bool_decide_unpack _). vm_compute. exact I.
  - apply NoDup_singleton.
Defined.

(** ** Edge re-derivation and rewiring (lines 105-137) *)

(** The derived matrix has no key outside the strategy indices of [src] and
    of the child. *)
Lemma derive_edge_cost_keys (g : CostGraph) (mm : list Z)
    (E : gmap (Node * Node) (gmap (Z * Z) Cost.t)) (src child : Node)
    (old_node_pair : Node * Node) (ec : gmap (Z * Z) Cost.t) (key : Z * Z) (v : Cost.t) :
  derive_edge_cost g mm E src child old_node_pair = Ok ec →
  ec !! key = Some v →
  ∃ i j n_src n_child,
    key = (Z.of_nat i, Z.of_nat j) ∧
    node_lens g !! src = Some n_src ∧ (i < n_src)%nat ∧
    node_lens g !! child = Some n_child ∧ (j < n_child)%nat.
Proof.
  intros H. unfold derive_edge_cost in H.
  apply bind_Ok in H as (n_src & Hn & H). apply dict_get_Ok in Hn.
  unfold range in H at 2. revert key v.
  set (P := λ (k : nat) (ec : gmap (Z * Z) Cost.t),
         ∀ key v, ec !! key = Some v →
                  ∃ i j n_child, key = (Z.of_nat i, Z.of_nat j) ∧ (i < k)%nat ∧
                                 node_lens g !! child = Some n_child ∧ (j < n_child)%nat).
  assert (HP : P (0 + n_src)%nat ec).
  { eapply (foldM_seq_invariant _ P); [| |exact H].
    - clear H ec. intros k ec1 ec2 _ Hinv Hstep.
      apply bind_Ok in Hstep as (n_child & Hc & Hstep). apply dict_get_Ok in Hc.
      apply derive_row_spec in Hstep as [_ Hrest].
      intros [a b] v Hv.
      destruct (decide (a = Z.of_nat k ∧ 0 ≤ b < Z.of_nat n_child)) as [[-> Hb]|Hno].
      + exists k, (Z.to_nat b), n_child. split_and!; [|lia|done|lia].
        f_equal. lia.
      + rewrite Hrest in Hv.
        * destruct (Hinv _ _ Hv) as (i & j & n' & ? & ? & ? & ?).
          exists i, j, n'. split_and!; [done|lia|done..].
        * intros j Hj [= -> ->]. apply Hno. split; [done|lia].
    - intros key v Hv. by rewrite lookup_empty in Hv. }
  intros key v Hv. destruct (HP key v Hv) as (i & j & n_child & ? & ? & ? & ?).
  exists i, j, n_src, n_child. split_and!; [done..|lia|done|done].
Qed.

(** X6: for a child c of dst that has no edge from src yet, merge_node(src,
    dst) creates the edge (src, c), and its matrix has exactly the keys (i, j)
    with i a strategy index of src and j one of c, the entry at (i, j) being
    the entry of the edge (dst, c) at (merge_map[i], j). *)
Theorem merge_derives_child_edge (g g' : CostGraph) (src dst c : Node)
    (dst_children : list Node) :
  merge_node g src dst = Ok g' →
  src ≠ dst →
  children g !! dst = Some dst_children →
  dst ∉ dst_children →
  NoDup dst_children →
  c ∈ dst_children →
  edge_costs g !! (src, c) = None →
  ∃ mm m,
    build_merge_map g src dst = Ok mm ∧
    get_edge_cost g' src c = Ok m ∧
    (∀ i j n_src n_c,
       node_lens g !! src = Some n_src → node_lens g !! c = Some n_c →
       (i < n_src)%nat → (j < n_c)%nat →
       ∃ dst_index old v,
         mm !! i = Some dst_index ∧ edge_costs g !! (dst, c) = Some old ∧
         old !! (dst_index, Z.of_nat j) = Some v ∧
         m !! (Z.of_nat i, Z.of_nat j) = Some v) ∧
    (∀ key v, m !! key = Some v →
              ∃ i j n_src n_c,
                key = (Z.of_nat i, Z.of_nat j) ∧
                node_lens g !! src = Some n_src ∧ (i < n_src)%nat ∧
                node_lens g !! c = Some n_c ∧ (j < n_c)%nat).
Proof.
  intros Hm Hne Hdc Hself Hnd Hc Hfresh.
  pose proof Hm as Hst. apply merge_node_stages in Hst as (dp & _ & _ & _ & _ & _ & _ & _
    & _ & _ & _ & Hdp & _).
  destruct (merge_node_effect _ _ _ _ _ _ Hm Hne Hdp Hdc Hself Hnd)
    as (mm & X & E1 & dp' & sc & sc' & g2 & Hmm & _ & HE1 & _ & _ & _ & _ & Hrew & ->).
  destruct Hrew as (_ & _ & _ & _ & _ & _ & _ & Hkeep & Hpop). simpl in Hkeep, Hpop.
  pose proof (add_node_pairs_spec _ _ _ _ _ _ _ Hne HE1 (src, c)) as Hk.
  rewrite Hfresh in Hk. destruct Hk as [Hk _].
  destruct (Hk c Hc eq_refl) as (ec & Hec & HE1c).
  assert (Hcd : c ≠ dst) by (by intros ->).
  assert (HE' : edge_costs (if decide (dp' = []) then absorbed g2 src dst else g2)
                !! (src, c) = Some ec).
  { assert (Hg2 : edge_costs g2 !! (src, c) = Some ec).
    { destruct (decide (dp' = [])) as [Hnil|Hnil].
      - destruct (Hpop Hnil) as [_ Hkept]. rewrite Hkept by (intros c' _ Heq; congruence).
        by rewrite lookup_delete_ne by congruence.
      - rewrite (Hkeep Hnil). by rewrite lookup_delete_ne by congruence. }
    by destruct (decide (dp' = [])). }
  exists mm, ec. split_and!.
  - done.
  - unfold get_edge_cost, dict_get. by rewrite HE'.
  - intros i j n_src n_c Hns Hnc Hi Hj.
    apply derive_edge_cost_spec in Hec as (n_src' & Hns' & Hrows).
    assert (n_src' = n_src) as -> by congruence.
    destruct (Hrows i Hi) as (n_c' & Hnc' & Hrow).
    assert (n_c' = n_c) as -> by congruence.
    destruct (Hrow j Hj) as (jj & old & v & ? & ? & ? & ?). by exists jj, old, v.
  - intros key v Hv. by eapply derive_edge_cost_keys.
Qed.

Lemma merge_derives_child_edge_witness :
  ∃ m, get_edge_cost (Samples.the_graph (merge_node (Samples.construct Samples.chain) 0 1))
         0 2 = Ok m ∧
       m !! (0, 1) = Some (Cost.Fin 40).
Proof.
  destruct (merge_derives_child_edge (Samples.construct Samples.chain)
              (Samples.the_graph (merge_node (Samples.construct Samples.chain) 0 1))
              0%nat 1%nat 2%nat [2%nat])
    as (mm & m & Hmm & Hm & Hentries & _).
  - vm_compute. reflexivity.
  - lia.
  - vm_compute. reflexivity.
  - apply (bool_decide_unpack _). vm_compute. exact I.
  - apply NoDup_singleton.
  - left.
  - vm_compute. reflexivity.
  - exists m. split; [exact Hm|].
    destruct (Hentries 0%nat 1%nat 2%nat 2%nat) as (jj & old & v & Hjj & Hold & Hv & Hmv);
      [vm_compute; reflexivity | vm_compute; reflexivity | lia | lia |].
    vm_compute in Hmm. injection Hmm as <-. injection Hjj as <-.
    vm_compute in Hold. injection Hold as <-.
    vm_compute in Hv. injection Hv as <-. exact Hmv.
Defined.

(** X7: merge_node(src, dst) hands the children of dst over to src: the
    children of src become its former children without dst together with the
    children of dst, still without duplicates, and every child of dst has src
    among its parents. *)
Theorem merge_rewires_adjacency (g g' : CostGraph) (src dst : Node)
    (src_children dst_children : list Node) :
  merge_node g src dst = Ok g' →
  src ≠ dst →
  children g !! src = Some src_children →
  NoDup src_children →
  children g !! dst = Some dst_children →
  dst ∉ dst_children →
  NoDup dst_children →
  ∃ src_children',
    children g' !! src = Some src_children' ∧
    NoDup src_children' ∧
    (∀ x, x ∈ src_children' ↔ (x ∈ src_children ∧ x ≠ dst) ∨ x ∈ dst_children) ∧
    (∀ c, c ∈ dst_children → ∃ cp, parents g' !! c = Some cp ∧ src ∈ cp).
Proof.
  intros Hm Hne Hsc Hndsc Hdc Hself Hnd.
  pose proof Hm as Hst. apply merge_node_stages in Hst as (dp & _ & _ & _ & _ & _ & _ & _
    & _ & _ & _ & Hdp & _).
  destruct (merge_node_effect _ _ _ _ _ _ Hm Hne Hdp Hdc Hself Hnd)
    as (mm & X & E1 & dp' & sc & sc' & g2 & _ & _ & _ & _ & Hsc0 & Hsc' & _ & Hrew & ->).
  assert (sc = src_children) as -> by congruence.
  destruct Hrew as (_ & _ & _ & _ & (sc2 & Hch & Hsc2 & Hsc2nd) & _ & Hin & _).
  simpl in Hch. rewrite insert_insert_eq in Hch.
  destruct (list_remove_NoDup _ _ _ Hsc' Hndsc) as [Hndsc' Hdsc'].
  exists sc2. split_and!.
  - destruct (decide (dp' = [])); simpl; rewrite Hch.
    + rewrite lookup_insert_ne by done. by rewrite lookup_insert_eq.
    + by rewrite lookup_insert_eq.
  - by apply Hsc2nd.
  - intros x. rewrite Hsc2. split.
    + intros [Hx|Hx]; [|by right]. left. split; [by eapply list_remove_subseteq|].
      by intros ->.
    + intros [[Hx Hxd]|Hx]; [|by right]. left.
      by apply (list_remove_other _ _ _ x Hsc').
  - intros c Hc. destruct (Hin c Hc) as (cp & cp' & _ & Hcp' & _ & _ & Hadd & _).
    exists cp'. split; [by destruct (decide (dp' = []))|].
    apply Hadd; [by right|]. by intros _.
Qed.

Lemma merge_rewires_adjacency_witness :
  ∃ l, children (Samples.the_graph (merge_node (Samples.construct Samples.chain) 0 1))
         !! 0%nat = Some l ∧ 2%nat ∈ l ∧ 1%nat ∉ l.
Proof.
  destruct (merge_rewires_adjacency (Samples.construct Samples.chain)
              (Samples.the_graph (merge_node (Samples.construct Samples.chain) 0 1))
              0%nat 1%nat [1%nat] [2%nat])
    as (l & Hl & _ & Hmem & _).
  - vm_compute. reflexivity.
  - lia.
  - vm_compute. reflexivity.
  - apply NoDup_singleton.
  - vm_compute. reflexivity.
  - apply (bool_decide_unpack _). vm_compute. exact I.
  - apply NoDup_singleton.
  - exists l. split_and!; [exact Hl | |].
    + apply Hmem. right. left.
    + intros H1. apply Hmem in H1 as [[_ Hne]|H1]; [by apply Hne|].
      apply list_elem_of_singleton in H1. lia.
Defined.

(** ** What a merge leaves alone *)

Lemma extra_iadd_other (X X' : gmap Node (list Cost.t)) (n k : Node) (i : nat)
    (rhs : result Cost.t) :
  extra_iadd X n i rhs = Ok X' → k ≠ n → X' !! k = X !! k.
Proof.
  intros H Hk. unfold extra_iadd in H.
  apply bind_Ok in H as (l & _ & H). apply bind_Ok in H as (old & _ & H).
  apply bind_Ok in H as (v & _ & H). injection H as <-.
  by rewrite lookup_insert_ne.
Qed.

Lemma accrue_extra_costs_other (g : CostGraph) (src dst : Node) (mm : list Z)
    (X : gmap Node (list Cost.t)) (k : Node) :
  accrue_extra_costs g src dst mm = Ok X → k ≠ src → X !! k = extra_node_costs g !! k.
Proof.
  intros H Hk. unfold accrue_extra_costs in H.
  apply bind_Ok in H as (n & _ & H). apply bind_Ok in H as (src_sv & _ & H).
  revert H. apply (foldM_invariant _ (λ X, X !! k = extra_node_costs g !! k)).
  - intros X1 X2 i _ HX1 Hstep. unfold extra_cost_step in Hstep.
    apply bind_Ok in Hstep as (j & _ & Hstep).
    apply bind_Ok in Hstep as (dst_sv & _ & Hstep).
    apply bind_Ok in Hstep as (s & _ & Hstep).
    apply bind_Ok in Hstep as (X3 & H3 & Hstep).
    apply (extra_iadd_other _ _ _ k) in H3; [|done].
    destruct (X3 !! dst).
    + apply (extra_iadd_other _ _ _ k) in Hstep; [|done]. congruence.
    + injection Hstep as <-. congruence.
  - by rewrite lookup_insert_ne.
Qed.

(** X8: merge_node(src, dst) is local.  It never writes node_lens, the
    strategies, the simplify flag or the merge queue; it leaves the extra cost
    of every node but src, the ledger record of every node but dst, the
    children and the outgoing edges of every node but src and dst, and the
    parents of every node but dst and the children of dst as they were. *)
Theorem merge_node_is_local (g g' : CostGraph) (src dst : Node)
    (dst_children : list Node) :
  merge_node g src dst = Ok g' →
  src ≠ dst →
  children g !! dst = Some dst_children →
  dst ∉ dst_children →
  NoDup dst_children →
  node_lens g' = node_lens g ∧
  strategies_vector g' = strategies_vector g ∧
  simplify g' = simplify g ∧
  merge_pair g' = merge_pair g ∧
  (∀ n, n ≠ src → extra_node_costs g' !! n = extra_node_costs g !! n) ∧
  (∀ n, n ≠ dst → following_dict g' !! n = following_dict g !! n) ∧
  (∀ a, a ≠ src → a ≠ dst → children g' !! a = children g !! a) ∧
  (∀ a b, a ≠ src → a ≠ dst → edge_costs g' !! (a, b) = edge_costs g !! (a, b)) ∧
  (∀ n, n ≠ dst → (n ∉ dst_children) → parents g' !! n = parents g !! n).
Proof.
  intros Hm Hne Hdc Hself Hnd.
  destruct (merge_node_frame _ _ _ _ Hm) as (HL & Hsv & Hs & Hq).
  pose proof Hm as Hst. apply merge_node_stages in Hst as (dp & _ & _ & _ & _ & _ & _ & _
    & _ & _ & _ & Hdp & _).
  destruct (merge_node_effect _ _ _ _ _ _ Hm Hne Hdp Hdc Hself Hnd)
    as (mm & X & E1 & dp' & sc & sc' & g2 & _ & HX & HE1 & _ & _ & _ & _ & Hrew & ->).
  destruct Hrew as (_ & Hextra & Hfol & _ & (sc2 & Hch & _) & Hout & _ & Hkeep & Hpop).
  simpl in Hextra, Hfol, Hch, Hout, Hkeep, Hpop.
  split_and!; try done.
  - intros n Hn.
    assert (Hx : extra_node_costs (if decide (dp' = []) then absorbed g2 src dst else g2)
                 = X) by (by destruct (decide (dp' = []))).
    rewrite Hx. by eapply accrue_extra_costs_other.
  - intros n Hn. destruct (decide (dp' = [])); simpl; rewrite Hfol; [|done].
    by rewrite lookup_insert_ne.
  - intros a Has Had. destruct (decide (dp' = [])); simpl; rewrite Hch.
    + by rewrite !lookup_insert_ne.
    + by rewrite !lookup_insert_ne.
  - intros a b Has Had.
    assert (HE2 : edge_costs (if decide (dp' = []) then absorbed g2 src dst else g2)
                    !! (a, b)
                  = delete (src, dst) E1 !! (a, b)).
    { destruct (decide (dp' = [])) as [Hnil|Hnil]; simpl.
      - destruct (Hpop Hnil) as [_ Hkept]. apply Hkept. intros c _ Heq. congruence.
      - by rewrite (Hkeep Hnil). }
    rewrite HE2, lookup_delete_ne by congruence.
    pose proof (add_node_pairs_spec _ _ _ _ _ _ _ Hne HE1 (a, b)) as Hk.
    destruct (edge_costs g !! (a, b)) as [m|]; [done|].
    destruct Hk as [_ Hk]. apply Hk. intros c _ Heq. congruence.
  - intros n Hnd' Hn.
    assert (Hp : parents (if decide (dp' = []) then absorbed g2 src dst else g2) !! n
                 = parents g2 !! n) by (by destruct (decide (dp' = []))).
    rewrite Hp, Hout by done. by rewrite lookup_insert_ne.
Qed.

Lemma merge_node_is_local_witness :
  get_edge_cost (Samples.the_graph (merge_node (Samples.construct Samples.fan_in) 1 2)) 0 2
  = get_edge_cost (Samples.construct Samples.fan_in) 0 2.
Proof.
  destruct (merge_node_is_local (Samples.construct Samples.fan_in)
              (Samples.the_graph (merge_node (Samples.construct Samples.fan_in) 1 2))
              1%nat 2%nat [3%nat])
    as (_ & _ & _ & _ & _ & _ & _ & Hedge & _).
  - vm_compute. reflexivity.
  - lia.
  - vm_compute. reflexivity.
  - apply (bool_decide_unpack _). vm_compute. exact I.
  - apply NoDup_singleton.
  - unfold get_edge_cost, dict_get. rewrite (Hedge 0%nat 2%nat); [reflexivity | lia | lia].
Defined.

(** ** The merge map after simplification *)

(** X9: the merge map of a pair depends on the strategies only, which
    simplify_graph never writes: recomputed on the simplified graph it is the
    map the merge used, so the strategy of an absorbed node can be recovered
    from the strategy chosen for the node it was merged into. *)
Theorem merge_map_survives_simplification (depth : nat) (g g' : CostGraph)
    (src dst : Node) :
  simplify_graph depth g = Ok g' →
  build_merge_map g' src dst = build_merge_map g src dst ∧
  node_lens g' = node_lens g ∧
  strategies_vector g' = strategies_vector g.
Proof.
  intros H. destruct (simplify g) eqn:Hs.
  - apply simplify_graph_stages in H as (g2 & F & Hg2 & _ & ->); [|done].
    apply replay_frame in Hg2 as (HL & Hsv & _). simpl in *.
    split_and!; [|done..]. by apply build_merge_map_registry.
  - unfold simplify_graph in H. rewrite Hs in H. simpl in H. by injection H as <-.
Qed.

Lemma merge_map_survives_simplification_witness :
  build_merge_map (Samples.the_graph (simplify_graph 100 (Samples.construct Samples.chain2)))
    1 2 = Ok [0; 0].
Proof.
  destruct (merge_map_survives_simplification 100 (Samples.construct Samples.chain2)
              (Samples.the_graph (simplify_graph 100 (Samples.construct Samples.chain2)))
              1%nat 2%nat) as (Hmm & _).
  - vm_compute. reflexivity.
  - rewrite Hmm. vm_compute. reflexivity.
Defined.

(** ** The ledger (lines 138-145 and 154-157) *)

Lemma merge_node_ledger (g g' : CostGraph) (src dst : Node) :
  merge_node g src dst = Ok g' →
  (following_dict g' = following_dict g ∨
   following_dict g' = <[dst := src]> (following_dict g)) ∧
  ∃ l, children g !! src = Some l ∧ dst ∈ l.
Proof.
  intros H. apply merge_node_stages in H
    as (dp & mm & X & dc & E & dp' & sc & sc' & dc' & g2 & dp2 & _ & _ & _ & _ & _ & _
        & _ & Hsc & Hsc' & _ & _ & Hloop & _ & ->).
  apply rewire_loop_frame in Hloop as (_ & _ & Hf). simpl in Hf. split.
  - destruct (decide (length dp2 = 0%nat)); simpl; rewrite Hf; [by right | by left].
  - exists sc. split; [done|]. by eapply list_remove_elem_of.
Qed.

(** X10: the merges record in the ledger nothing but what they replay:
    every record (a absorbed into b) that the replay of a list of merge pairs
    adds or changes is one of the replayed pairs (b, a). *)
Theorem replay_ledger_records (g g' : CostGraph) (pairs : list (Node * Node))
    (a b : Node) :
  replay g pairs = Ok g' →
  following_dict g' !! a = Some b →
  following_dict g !! a = Some b ∨ (b, a) ∈ pairs.
Proof.
  revert g. induction pairs as [|[s d] pairs IH]; intros g H Hab; simpl in H.
  - injection H as <-. by left.
  - apply bind_Ok in H as (g1 & H1 & H). simpl in H1.
    destruct (IH _ H Hab) as [Hg1|Hin]; [|right; by right].
    apply merge_node_ledger in H1 as [[Hf|Hf] _]; rewrite Hf in Hg1; [by left|].
    apply lookup_insert_Some in Hg1 as [[<- <-]|[_ ?]]; [right; by left | by left].
Qed.

Lemma replay_ledger_records_witness :
  following_dict (Samples.construct Samples.chain2) !! 2%nat = Some 1%nat ∨
  (1%nat, 2%nat) ∈ [(1%nat, 2%nat); (0%nat, 1%nat)].
Proof.
  apply (replay_ledger_records (Samples.construct Samples.chain2)
           (Samples.the_graph (replay (Samples.construct Samples.chain2)
                                      [(1%nat, 2%nat); (0%nat, 1%nat)]))).
  - vm_compute. reflexivity.
  - vm_compute. reflexivity.
Defined.

Lemma reindexing_src_raises (depth : nat) (F : gmap Node Node) (src : Node) (e : exn) :
  _reindexing_src depth F src = Raise e → e = RecursionError.
Proof.
  revert src. induction depth as [|depth IH]; intros src H; simpl in H.
  - by injection H as <-.
  - destruct (F !! src) as [src'|]; [by eapply IH | done].
Qed.

Lemma reindexing_src_cycle (depth : nat) (F : gmap Node Node) (S : gset Node)
    (src : Node) :
  (∀ n, n ∈ S → ∃ n', F !! n = Some n' ∧ n' ∈ S) →
  src ∈ S →
  _reindexing_src depth F src = Raise RecursionError.
Proof.
  intros Hclosed. revert src. induction depth as [|depth IH]; intros src Hsrc; [done|].
  simpl. destruct (Hclosed src Hsrc) as (n' & -> & Hn'). by apply IH.
Qed.

Lemma reindex_loop_raises (h : Node → result Node) (l : list (Node * Node))
    (acc : gmap Node Node) (k0 v0 : Node) :
  (k0, v0) ∈ l →
  h v0 = Raise RecursionError →
  (∀ v e, h v = Raise e → e = RecursionError) →
  foldM (λ acc p, r ← h p.2; Ok (<[p.1 := r]> acc)) acc l = Raise RecursionError.
Proof.
  intros Hin Hv0 Honly. revert acc. induction l as [|[k v] l IH]; intros acc.
  - by apply elem_of_nil in Hin.
  - simpl. destruct (h v) as [t|e] eqn:Hv; simpl.
    + apply IH. apply elem_of_cons in Hin as [[= -> ->]|Hin]; [congruence|done].
    + by rewrite (Honly v e Hv).
Qed.

(** X11: an absorption cycle is never cut short.  When the ledger left by
    the merges has a record whose target lies in a set of absorbed nodes that
    the records never leave, the compression does not terminate within any
    allowed depth: simplify_graph raises RecursionError and returns no
    ledger. *)
Theorem simplify_graph_cycle_raises (depth : nat) (g g2 : CostGraph) (S : gset Node)
    (a b : Node) :
  simplify g = true →
  replay (set_merge_pair (reverse (merge_pair g)) g) (reverse (merge_pair g)) = Ok g2 →
  (∀ n, n ∈ S → ∃ n', following_dict g2 !! n = Some n' ∧ n' ∈ S) →
  following_dict g2 !! a = Some b →
  b ∈ S →
  simplify_graph depth g = Raise RecursionError.
Proof.
  intros Hs Hg2 Hclosed Hab Hb. unfold simplify_graph. rewrite Hs. simpl.
  fold (replay (set_merge_pair (reverse (merge_pair g)) g) (reverse (merge_pair g))).
  rewrite Hg2. simpl. unfold reindex_following_dict.
  rewrite (reindex_loop_raises _ _ _ a b); [done| | |].
  - by apply elem_of_map_to_list.
  - by eapply reindexing_src_cycle.
  - intros v e. apply reindexing_src_raises.
Qed.

Lemma simplify_graph_cycle_raises_witness :
  simplify_graph 1000
    (set_following_dict {[ 5%nat := 6%nat; 6%nat := 5%nat ]}
       (Samples.construct Samples.chain))
  = Raise RecursionError.
Proof.
  apply (simplify_graph_cycle_raises 1000 _
           (Samples.the_graph
              (merge_node (set_merge_pair [(0%nat, 1%nat)]
                             (set_following_dict {[ 5%nat := 6%nat; 6%nat := 5%nat ]}
                                (Samples.construct Samples.chain))) 0 1))
           {[ 5%nat; 6%nat ]} 5%nat 6%nat).
  - vm_compute. reflexivity.
  - vm_compute. reflexivity.
  - intros n Hn. apply elem_of_union in Hn as [Hn|Hn]; apply elem_of_singleton in Hn;
      subst n.
    + exists 6%nat. split; [vm_compute; reflexivity|].
      apply elem_of_union. right. by apply elem_of_singleton.
    + exists 5%nat. split; [vm_compute; reflexivity|].
      apply elem_of_union. left. by apply elem_of_singleton.
  - vm_compute. reflexivity.
  - apply elem_of_union. right. by apply elem_of_singleton.
Defined.

Lemma acyclic_ranked (r : Node → nat) (F : gmap Node Node) :
  (∀ a b, F !! a = Some b → (r b < r a)%nat) → acyclic F.
Proof.
  intros Hrank a Ha.
  assert (Hlt : ∀ x y, tc (follows F) x y → (r y < r x)%nat).
  { intros x y Hxy. induction Hxy as [x y Hxy|x y z Hxy _ IH].
    - by apply Hrank.
    - apply Hrank in Hxy. lia. }
  apply Hlt in Ha. lia.
Qed.

Lemma replay_ranked (r : Node → nat) (g g' : CostGraph) (pairs : list (Node * Node)) :
  well_formed r g →
  (∀ a b, following_dict g !! a = Some b → (r b < r a)%nat) →
  replay g pairs = Ok g' →
  ∀ a b, following_dict g' !! a = Some b → (r b < r a)%nat.
Proof.
  intros Hwf Hrk Hg'.
  assert (Hinv : well_formed r g' ∧
                 ∀ a b, following_dict g' !! a = Some b → (r b < r a)%nat).
  { revert Hg'.
    apply (foldM_invariant _
             (λ g, well_formed r g ∧
                   ∀ a b, following_dict g !! a = Some b → (r b < r a)%nat));
      [|by split].
    intros g1 g2 [s d] _ [Hwf1 Hrk1] Hm. simpl in Hm. split.
    - by apply (merge_node_well_formed r) in Hm as [? _].
    - apply merge_node_ledger in Hm as [[Hf|Hf] Hadj]; rewrite Hf; [done|].
      intros a b Hab. apply lookup_insert_Some in Hab as [[<- <-]|[_ Hab]].
      + destruct Hwf1 as (_ & _ & Hrank). by apply Hrank.
      + by apply Hrk1. }
  apply Hinv.
Qed.

(** X12: on a graph constructed from a registry whose edges follow a
    numbering of the nodes, the merges absorb a node only into a node that
    comes earlier in the numbering; so the ledger they leave has no cycle, and
    simplify_graph returns as soon as the merges succeed and the depth allowed
    exceeds the number of ledger records. *)
Theorem constructed_ledger_acyclic (r : Node → nat) (ls : list StrategiesVector)
    (sv_attr : gmap Node (list ShardingStrategy)) (g g2 : CostGraph) (depth : nat) :
  registry_ok r ls →
  __init__ ls true sv_attr = Ok g →
  replay (set_merge_pair (reverse (merge_pair g)) g) (reverse (merge_pair g)) = Ok g2 →
  (size (following_dict g2) < depth)%nat →
  (∀ a b, following_dict g2 !! a = Some b → (r b < r a)%nat) ∧
  acyclic (following_dict g2) ∧
  ∃ g', simplify_graph depth g = Ok g'.
Proof.
  intros Hreg Hg Hg2 Hdepth.
  destruct (init_frame _ _ _ _ Hg) as (_ & Hs & _ & HF & _).
  pose proof (init_well_formed r _ _ _ _ Hreg Hg) as Hwf.
  assert (Hrk : ∀ a b, following_dict g2 !! a = Some b → (r b < r a)%nat).
  { eapply (replay_ranked r); [| |exact Hg2].
    - exact Hwf.
    - simpl. rewrite HF. intros a b Hab. by rewrite lookup_empty in Hab. }
  assert (Hacyc : acyclic (following_dict g2)) by by apply (acyclic_ranked r).
  split_and!; [done..|].
  destruct (reindex_following_dict_returns depth _ Hacyc Hdepth) as [F HF'].
  exists (set_following_dict F (set_merge_pair (reverse (merge_pair g2)) g2)).
  apply simplify_graph_stages; [done|]. by exists g2, F.
Qed.

Lemma constructed_ledger_acyclic_witness :
  ∃ g', simplify_graph 3 (Samples.construct Samples.chain2) = Ok g'.
Proof.
  destruct (constructed_ledger_acyclic (λ n, n) Samples.chain2
              (Samples.attributes Samples.chain2) (Samples.construct Samples.chain2)
              (Samples.the_graph
                 (replay (set_merge_pair
                            (reverse (merge_pair (Samples.construct Samples.chain2)))
                            (Samples.construct Samples.chain2))
                         (reverse (merge_pair (Samples.construct Samples.chain2))))) 3)
    as (_ & _ & Hret).
  - unfold registry_ok. apply (bool_decide_unpack _). vm_compute. exact I.
  - vm_compute. reflexivity.
  - vm_compute. reflexivity.
  - vm_compute. lia.
  - exact Hret.
Defined.

(** ** Infeasible rows and derived edges (lines 84-93 and 110-115) *)

(** X13: a merge that derives a new edge needs every row to be feasible.
    When merge_node(src, dst) returns and dst has a child c with strategies
    and without an edge from src, the matrix of (dst, c) having no negative
    key, then every strategy index i of src has an entry below the infeasible
    value in its row: for a row without one merge_map[i] is -1, and line 115
    looks the key (-1, j) up in the matrix of (dst, c). *)
Theorem merge_deriving_edge_needs_feasible_rows (g g' : CostGraph) (src dst c : Node)
    (dst_children : list Node) (src_sv : list ShardingStrategy) (n_c : nat)
    (old : gmap (Z * Z) Cost.t) (i : nat) :
  merge_node g src dst = Ok g' →
  src ≠ dst →
  children g !! dst = Some dst_children →
  dst ∉ dst_children →
  NoDup dst_children →
  c ∈ dst_children →
  edge_costs g !! (src, c) = None →
  edge_costs g !! (dst, c) = Some old →
  map_Forall (λ key _, 0 ≤ key.1) old →
  strategies_vector g !! src = Some src_sv →
  node_lens g !! src = Some (length src_sv) →
  node_lens g !! c = Some n_c →
  (0 < n_c)%nat →
  (i < length src_sv)%nat →
  feasible_row g src dst i.
Proof.
  intros Hm Hne Hdc Hself Hnd Hc Hfresh Hold Hkeys Hsrc Hlen Hnc Hpos Hi.
  pose proof Hm as Hst. apply merge_node_stages in Hst as (dp & _ & _ & _ & _ & _ & _ & _
    & _ & _ & _ & Hdp & _).
  destruct (merge_node_effect _ _ _ _ _ _ Hm Hne Hdp Hdc Hself Hnd)
    as (mm & X & E1 & dp' & sc & sc' & g2 & Hmm & _ & HE1 & _).
  pose proof (add_node_pairs_spec _ _ _ _ _ _ _ Hne HE1 (src, c)) as Hk.
  rewrite Hfresh in Hk. destruct Hk as [Hk _].
  destruct (Hk c Hc eq_refl) as (ec & Hec & _).
  apply derive_edge_cost_spec in Hec as (n_src & Hns & Hrows).
  assert (n_src = length src_sv) as -> by congruence.
  destruct (Hrows i Hi) as (n_c' & Hnc' & Hrow).
  assert (n_c' = n_c) as -> by congruence.
  destruct (Hrow 0%nat Hpos) as (k & old' & v & Hmi & Hold' & Hv & _).
  assert (old' = old) as -> by congruence.
  apply Hkeys in Hv. simpl in Hv.
  destruct (build_merge_map_lookup _ _ _ _ _ _ Hmm Hsrc Hi) as (k' & Hk' & Hlow).
  assert (k' = k) as -> by congruence.
  pose proof Hlow as Hdst. unfold lowest_cost_index in Hdst.
  apply bind_Ok in Hdst as (dst_sv & Hdst & _). apply getattr_Ok in Hdst.
  destruct (lowest_cost_index_selected _ _ _ _ _ _ Hdst Hlow) as [m Hsel].
  destruct Hsel as [[Heq _] | (n & z & Heq & Hn & Hen & _)].
  - injection Heq as _ ->. lia.
  - exists dst_sv, n, (Cost.Fin z). split_and!; [done..| |done].
    by rewrite (cost_entry_nat _ _ _ _ _ _ Hdst Hn).
Qed.

Lemma merge_deriving_edge_needs_feasible_rows_witness :
  feasible_row (Samples.construct Samples.chain) 0 1 0.
Proof.
  apply (merge_deriving_edge_needs_feasible_rows (Samples.construct Samples.chain)
           (Samples.the_graph (merge_node (Samples.construct Samples.chain) 0 1))
           0%nat 1%nat 2%nat [2%nat] [Samples.strategy []; Samples.strategy []] 2
           (default ∅ (edge_costs (Samples.construct Samples.chain) !! (1%nat, 2%nat)))
           0%nat).
  - vm_compute. reflexivity.
  - lia.
  - vm_compute. reflexivity.
  - apply (bool_decide_unpack _). vm_compute. exact I.
  - apply NoDup_singleton.
  - left.
  - vm_compute. reflexivity.
  - vm_compute. reflexivity.
  - apply (bool_decide_unpack _). vm_compute. exact I.
  - vm_compute. reflexivity.
  - vm_compute. reflexivity.
  - vm_compute. reflexivity.
  - lia.
  - simpl. lia.
Defined.

(** ** The parents mirror the children (lines 46-52 and 124-140) *)

Lemma init_mirrored (r : Node → nat) (ls : list StrategiesVector) (simp : bool)
    (sv_attr : gmap Node (list ShardingStrategy)) (g : CostGraph) :
  registry_ok r ls →
  Forall (λ sv, NoDup (predecessor_nodes sv)) ls →
  __init__ ls simp sv_attr = Ok g →
  mirrored g.
Proof.
  intros [Hnd Hreg] Hpnd H. rewrite Forall_forall in Hreg, Hpnd.
  destruct (init_tables _ _ _ _ H Hnd) as [Hin Hout].
  assert (Hpar : ∀ b l, parents g !! b = Some l →
                        ∃ sv, sv ∈ ls ∧ node sv = b ∧ l = predecessor_nodes sv).
  { intros b l Hl. destruct (decide (b ∈ node <$> ls)) as [Hb|Hb].
    - apply list_elem_of_fmap in Hb as (sv & -> & Hsv). exists sv.
      destruct (Hin sv Hsv) as (Hp & _). split_and!; [done..|congruence].
    - destruct (Hout b Hb) as [Hp _]. congruence. }
  assert (Hchi : ∀ a l, children g !! a = Some l →
                        ∃ sv, sv ∈ ls ∧ node sv = a ∧ l = successor_nodes sv).
  { intros a l Hl. destruct (decide (a ∈ node <$> ls)) as [Ha|Ha].
    - apply list_elem_of_fmap in Ha as (sv & -> & Hsv). exists sv.
      destruct (Hin sv Hsv) as (_ & Hc & _). split_and!; [done..|congruence].
    - destruct (Hout a Ha) as [_ Hc]. congruence. }
  split.
  - intros a b. split.
    + intros (l & Hl & Hb). apply Hchi in Hl as (sv & Hsv & <- & ->).
      destruct (Hreg sv Hsv) as (_ & Hsucc & _). rewrite Forall_forall in Hsucc.
      destruct (Hsucc b Hb) as [_ Hex]. apply Exists_exists in Hex as (sv' & Hsv' & <- & Ha).
      exists (predecessor_nodes sv'). split; [|done]. by apply (Hin sv' Hsv').
    + intros (l & Hl & Ha). apply Hpar in Hl as (sv & Hsv & <- & ->).
      destruct (Hreg sv Hsv) as (_ & _ & Hpred). rewrite Forall_forall in Hpred.
      apply Hpred in Ha. apply Exists_exists in Ha as (sv0 & Hsv0 & <- & Hb).
      exists (successor_nodes sv0). split; [|done]. by apply (Hin sv0 Hsv0).
  - intros b l Hl. apply Hpar in Hl as (sv & Hsv & _ & ->). by apply Hpnd.
Qed.

Lemma merge_node_mirrored (r : Node → nat) (g g' : CostGraph) (src dst : Node) :
  well_formed r g → mirrored g → merge_node g src dst = Ok g' → mirrored g'.
Proof.
  intros (Hcons & Hnodup & Hrank) [Hmir Hpnd] Hm.
  pose proof Hm as Hst. apply merge_node_stages in Hst
    as (dp & _ & _ & dc & _ & _ & sc & sc' & _ & _ & _ & Hdp & _ & _ & _ & Hdc & _ & _
        & Hsc & Hsc' & _).
  assert (Hsd : adjacent g src dst).
  { exists sc. split; [done|]. by eapply list_remove_elem_of. }
  assert (Hne : src ≠ dst).
  { intros ->. apply Hrank in Hsd. lia. }
  assert (Hself : dst ∉ dc).
  { intros Hin. assert (adjacent g dst dst) as Hdd by (by exists dc).
    apply Hrank in Hdd. lia. }
  assert (Hnd : NoDup dc) by (by eapply Hnodup).
  destruct (merge_node_effect _ _ _ _ _ _ Hm Hne Hdp Hdc Hself Hnd)
    as (mm & X & E1 & dp' & sc0 & sc0' & g2 & _ & _ & _ & Hdp' & Hsc0 & Hsc0' & _ & Hrew & ->).
  assert (sc0 = sc) as -> by congruence.
  assert (sc0' = sc') as -> by congruence.
  destruct Hrew as (_ & _ & _ & Hdp2 & (sc2 & Hch & Hsc2 & _) & Hpo & Hpd & _).
  simpl in Hch, Hpo, Hpd. rewrite insert_insert_eq in Hch.
  assert (Hndp : NoDup dp) by (by eapply Hpnd).
  destruct (list_remove_NoDup _ _ _ Hdp' Hndp) as [Hndp' Hsdp'].
  assert (Hndsc : NoDup sc) by (by eapply Hnodup).
  destruct (list_remove_NoDup _ _ _ Hsc' Hndsc) as [_ Hdsc'].
  assert (Hsc2' : ∀ x, x ∈ sc2 ↔ (x ∈ sc ∧ x ≠ dst) ∨ x ∈ dc).
  { intros x. rewrite Hsc2. split.
    - intros [Hx|Hx]; [|by right]. left. split; [by eapply list_remove_subseteq|].
      by intros ->.
    - intros [[Hx Hxd]|Hx]; [|by right]. left.
      by apply (list_remove_other _ _ _ x Hsc'). }
  assert (Hin_dp' : ∀ a, a ∈ dp' ↔ a ∈ dp ∧ a ≠ src).
  { intros a. split.
    - intros Ha. split; [by eapply list_remove_subseteq|]. by intros ->.
    - intros [Ha Hne']. by apply (list_remove_other _ _ _ a Hdp'). }
  assert (Hdst_adj : ∀ x, adjacent g dst x ↔ x ∈ dc).
  { intros x. split; [intros (l & Hl & Hx); congruence | intros Hx; by exists dc]. }
  assert (Hsrc_adj : ∀ x, adjacent g src x ↔ x ∈ sc).
  { intros x. split; [intros (l & Hl & Hx); congruence | intros Hx; by exists sc]. }
  assert (Hpar_of : ∀ b l, parents g !! b = Some l → ∀ a, a ∈ l ↔ adjacent g a b).
  { intros b l Hl a. rewrite Hmir.
    split; [intros; by exists l | intros (l' & ? & ?); congruence]. }
  assert (Hex : ∀ (o : option (list Node)) l0 a,
            o = Some l0 → (∃ l, o = Some l ∧ a ∈ l) ↔ a ∈ l0).
  { intros o l0 a ->. split; [intros (l & [= <-] & ?); done | intros; by exists l0]. }
  assert (Hpar : parents (if decide (dp' = []) then absorbed g2 src dst else g2)
                 = parents g2) by (by destruct (decide (dp' = []))).
  assert (Hadj : ∀ a b,
            adjacent (if decide (dp' = []) then absorbed g2 src dst else g2) a b
            ↔ (if decide (a = dst) then dp' ≠ [] ∧ b ∈ dc
               else if decide (a = src) then b ∈ sc2
               else adjacent g a b)).
  { intros a b. unfold adjacent at 1.
    destruct (decide (dp' = [])) as [Hnil|Hnil]; simpl; rewrite Hch.
    - destruct (decide (a = dst)) as [->|Had].
      + rewrite lookup_insert_eq.
        split; [intros (l & [= <-] & Hb); by apply elem_of_nil in Hb | by intros [? _]].
      + rewrite lookup_insert_ne by done. destruct (decide (a = src)) as [->|Has].
        * rewrite lookup_insert_eq. by apply Hex.
        * by rewrite lookup_insert_ne.
    - destruct (decide (a = dst)) as [->|Had].
      + rewrite lookup_insert_ne by done. rewrite (Hex _ dc b Hdc). tauto.
      + destruct (decide (a = src)) as [->|Has].
        * rewrite lookup_insert_eq. by apply Hex.
        * by rewrite lookup_insert_ne. }
  split.
  - intros a b. rewrite Hadj, Hpar.
    destruct (decide (b = dst)) as [->|Hbd].
    { rewrite (Hex _ dp' a Hdp2), Hin_dp'.
      destruct (decide (a = dst)) as [->|Had].
      - split; [by intros [_ ?]|]. intros [Hd _].
        apply (Hpar_of dst dp Hdp) in Hd. apply Hrank in Hd. lia.
      - destruct (decide (a = src)) as [->|Has].
        + rewrite Hsc2'. split; [intros [[_ ?]|?]; done | by intros [_ ?]].
        + rewrite <- (Hpar_of dst dp Hdp). tauto. }
    destruct (decide (b ∈ dc)) as [Hb|Hb].
    { destruct (Hpd b Hb) as (cp & cp' & Hcp & Hcp' & Hnd' & Hsub & Hsup & Hnil).
      rewrite lookup_insert_ne in Hcp by done.
      rewrite (Hex _ cp' a Hcp').
      destruct (decide (a = dst)) as [->|Had].
      - split.
        + intros [Hnn _]. apply Hsup; [|done]. left.
          apply (Hpar_of b cp Hcp). by apply Hdst_adj.
        + intros Hd. split; [|done]. intros Hn.
          destruct (Hnil Hn) as [_ Hgone]. apply Hgone; [|done]. by eapply Hpnd.
      - destruct (decide (a = src)) as [->|Has].
        + rewrite Hsc2'. split; [|intros _; by right].
          intros _. apply Hsup; [by right | done].
        + rewrite <- (Hpar_of b cp Hcp). split.
          * intros Ha. apply Hsup; [by left | done].
          * intros Ha. by destruct (Hsub a Ha). }
    rewrite (Hpo b Hbd Hb), lookup_insert_ne by done. rewrite <- Hmir.
    destruct (decide (a = dst)) as [->|Had].
    + rewrite Hdst_adj. tauto.
    + destruct (decide (a = src)) as [->|Has]; [|done].
      rewrite Hsc2', Hsrc_adj. split; [intros [[? _]|?]; done|].
      intros Hbs. left. by split.
  - intros b l. rewrite Hpar.
    destruct (decide (b = dst)) as [->|Hbd].
    { rewrite Hdp2. by intros [= <-]. }
    destruct (decide (b ∈ dc)) as [Hb|Hb].
    { destruct (Hpd b Hb) as (cp & cp' & Hcp & Hcp' & Hnd' & _).
      rewrite lookup_insert_ne in Hcp by done.
      rewrite Hcp'. intros [= <-]. apply Hnd'. by eapply Hpnd. }
    rewrite (Hpo b Hbd Hb), lookup_insert_ne by done. apply Hpnd.
Qed.

(** X14: the parents mirror the children.  On a graph constructed from a
    registry whose predecessor lists have no duplicates, and after any replay
    of merges, a is among the parents of b exactly when b is among the
    children of a, and no parents list names a node twice; so merge_node(src,
    dst) on a pair that is not an edge of the current graph stops at line 82,
    with AttributeError or ValueError. *)
Theorem parents_mirror_children (r : Node → nat) (ls : list StrategiesVector)
    (simp : bool) (sv_attr : gmap Node (list ShardingStrategy))
    (g0 g : CostGraph) (pairs : list (Node * Node)) :
  registry_ok r ls →
  Forall (λ sv, NoDup (predecessor_nodes sv)) ls →
  __init__ ls simp sv_attr = Ok g0 →
  replay g0 pairs = Ok g →
  mirrored g ∧
  ∀ src dst, ¬ adjacent g src dst →
             merge_node g src dst = Raise AttributeError ∨
             merge_node g src dst = Raise ValueError.
Proof.
  intros Hreg Hpnd Hg0 Hg.
  assert (Hinv : well_formed r g ∧ mirrored g).
  { revert Hg.
    apply (foldM_invariant _ (λ g, well_formed r g ∧ mirrored g)).
    - intros g1 g2 [s d] _ [Hwf1 Hmir1] Hm. simpl in Hm. split.
      + by apply (merge_node_well_formed r) in Hm as [? _].
      + by eapply merge_node_mirrored.
    - split; [by eapply init_well_formed | by eapply init_mirrored]. }
  destruct Hinv as [_ Hmir]. split; [done|].
  intros src dst Hna. destruct (parents g !! dst) as [l|] eqn:Hl.
  - right. eapply merge_node_not_parent; [done|]. intros Hin.
    apply Hna. apply Hmir. by exists l.
  - left. unfold merge_node, getattr. by rewrite Hl.
Qed.

Lemma parents_mirror_children_witness :
  mirrored (Samples.the_graph (replay (Samples.construct Samples.triangle) [(0%nat, 1%nat)])) ∧
  merge_node (Samples.the_graph (replay (Samples.construct Samples.triangle) [(0%nat, 1%nat)]))
    1 2 = Raise ValueError.
Proof.
  destruct (parents_mirror_children (λ n, n) Samples.triangle true
              (Samples.attributes Samples.triangle) (Samples.construct Samples.triangle)
              (Samples.the_graph (replay (Samples.construct Samples.triangle) [(0%nat, 1%nat)]))
              [(0%nat, 1%nat)])
    as [Hmir Hstop].
  - unfold registry_ok. apply (bool_decide_unpack _). vm_compute. exact I.
  - apply (bool_decide_unpack _). vm_compute. exact I.
  - vm_compute. reflexivity.
  - vm_compute. reflexivity.
  - split; [exact Hmir|]. vm_compute. reflexivity.
Defined.

(** ** Matrices are written once (lines 105-122 and 127-137) *)

Lemma add_node_pairs_keep (g : CostGraph) (mm : list Z) (src dst : Node)
    (l : list Node) (E0 E1 : gmap (Node * Node) (gmap (Z * Z) Cost.t))
    (k : Node * Node) :
  foldM (add_node_pair g mm src dst) E0 l = Ok E1 →
  (∀ m, E0 !! k = Some m → E1 !! k = Some m) ∧
  (E0 !! k = None → is_Some (E1 !! k) → ∃ c, c ∈ l ∧ k = (src, c)).
Proof.
  revert E0. induction l as [|c l IH]; intros E0 H; simpl in H.
  - injection H as <-. split; [done|]. intros -> [? ?]. done.
  - apply bind_Ok in H as (Ea & Hstep & H). destruct (IH _ H) as [Hkeep Hnew].
    assert (Hstep' : Ea = E0 ∨ (E0 !! (src, c) = None ∧ ∃ ec, Ea = <[(src, c) := ec]> E0)).
    { destruct (E0 !! (src, c)) as [m0|] eqn:Hsc.
      - left. rewrite add_node_pair_existing in Hstep by (by rewrite Hsc).
        by injection Hstep as <-.
      - right. split; [done|]. apply add_node_pair_new in Hstep as (ec & _ & ->); [|done].
        by exists ec. }
    destruct Hstep' as [->|(Hsc & ec & ->)].
    + split; [done|]. intros Hnone Hsome.
      destruct (Hnew Hnone Hsome) as (c' & ? & ?). exists c'. split; [by right|done].
    + destruct (decide (k = (src, c))) as [->|Hk].
      * split; [intros m Hm; congruence|]. intros _ _. exists c. split; [by left|done].
      * rewrite lookup_insert_ne in Hkeep, Hnew by done. split; [done|].
        intros Hnone Hsome. destruct (Hnew Hnone Hsome) as (c' & ? & ?).
        exists c'. split; [by right|done].
Qed.

Lemma rewire_child_edges (src dst : Node) (g g' : CostGraph) (child : Node)
    (k : Node * Node) :
  rewire_child src dst g child = Ok g' →
  edge_costs g' !! k = edge_costs g !! k ∨
  (edge_costs g' !! k = None ∧ k = (dst, child)).
Proof.
  intros H. unfold rewire_child in H.
  apply bind_Ok in H as (sc & _ & H). apply bind_Ok in H as (cp & _ & H).
  apply bind_Ok in H as (dp & _ & H).
  destruct (decide (length dp = 0%nat)).
  - apply bind_Ok in H as (cp1 & _ & H). apply bind_Ok in H as (cp2 & _ & H).
    apply bind_Ok in H as (E & HE & H). apply dict_pop_Ok in HE as [_ ->].
    injection H as <-. simpl.
    destruct (decide (k = (dst, child))) as [->|Hk].
    + right. by rewrite lookup_delete_eq.
    + left. by rewrite lookup_delete_ne.
  - injection H as <-. by left.
Qed.

Lemma rewire_loop_edges (src dst : Node) (g g' : CostGraph) (l : list Node)
    (k : Node * Node) :
  foldM (rewire_child src dst) g l = Ok g' →
  edge_costs g' !! k = edge_costs g !! k ∨
  (edge_costs g' !! k = None ∧ ∃ c, c ∈ l ∧ k = (dst, c)).
Proof.
  apply (foldM_invariant _
           (λ s, edge_costs s !! k = edge_costs g !! k ∨
                 (edge_costs s !! k = None ∧ ∃ c, c ∈ l ∧ k = (dst, c)))).
  - intros s1 s2 x Hx Hs1 Hstep.
    destruct (rewire_child_edges _ _ _ _ _ k Hstep) as [Heq|[Hnone ->]].
    + rewrite Heq. destruct Hs1 as [?|[? ?]]; [by left | by right].
    + right. split; [done|]. by exists x.
  - by left.
Qed.

(** X15: merge_node writes a matrix once and never rewrites it.  A matrix
    that is in the table before merge_node(src, dst) is afterwards either
    there unchanged or removed, and only the edge (src, dst) and edges out of
    dst are removed; a matrix that is new after the merge belongs to an edge
    out of src that had none before.  So the accumulation of lines 118-122
    never takes place. *)
Theorem merge_never_rewrites_matrix (g g' : CostGraph) (src dst : Node)
    (k : Node * Node) :
  merge_node g src dst = Ok g' →
  (∀ m, edge_costs g !! k = Some m →
        edge_costs g' !! k = Some m ∨
        (edge_costs g' !! k = None ∧ (k = (src, dst) ∨ ∃ c, k = (dst, c)))) ∧
  (edge_costs g !! k = None → is_Some (edge_costs g' !! k) → ∃ c, k = (src, c)).
Proof.
  intros H. apply merge_node_stages in H
    as (dp & mm & X & dc & E & dp' & sc & sc' & dc' & g2 & dp2 & _ & _ & _ & _ & _ & HE
        & _ & _ & _ & _ & _ & Hloop & _ & ->).
  assert (HE' : edge_costs (if decide (length dp2 = 0%nat) then absorbed g2 src dst else g2)
                = edge_costs g2) by (by destruct (decide (length dp2 = 0%nat))).
  rewrite HE'. destruct (add_node_pairs_keep _ _ _ _ _ _ _ k HE) as [Hkeep Hnew].
  pose proof (rewire_loop_edges _ _ _ _ _ k Hloop) as Hk. simpl in Hk. split.
  - intros m Hm. apply Hkeep in Hm.
    destruct Hk as [Hk|[Hk (c & _ & ->)]]; [|right; split; [done|]; right; by exists c].
    rewrite Hk. destruct (decide (k = (src, dst))) as [->|Hne].
    + right. rewrite lookup_delete_eq. split; [done | by left].
    + left. by rewrite lookup_delete_ne.
  - intros Hnone Hsome. destruct Hk as [Hk|[Hk _]]; [|rewrite Hk in Hsome; by destruct Hsome].
    rewrite Hk in Hsome. destruct (decide (k = (src, dst))) as [->|Hne]; [by exists dst|].
    rewrite lookup_delete_ne in Hsome by done.
    destruct (Hnew Hnone Hsome) as (c & _ & ->). by exists c.
Qed.

Lemma merge_never_rewrites_matrix_witness :
  edge_costs (Samples.the_graph (merge_node (Samples.construct Samples.triangle) 0 1))
    !! (0%nat, 2%nat)
  = Some {[ (0, 0) := Cost.Fin 3 ]}.
Proof.
  destruct (merge_never_rewrites_matrix (Samples.construct Samples.triangle)
              (Samples.the_graph (merge_node (Samples.construct Samples.triangle) 0 1))
              0%nat 1%nat (0%nat, 2%nat)) as [Hkeep _].
  - vm_compute. reflexivity.
  - destruct (Hkeep {[ (0, 0) := Cost.Fin 3 ]}) as [Hsame|[_ [Hk|[c Hk]]]].
    + vm_compute. reflexivity.
    + exact Hsame.
    + discriminate Hk.
    + discriminate Hk.
Defined.

(** ** The length of the extra costs (lines 96-102) *)

Lemma extra_iadd_length (X X' : gmap Node (list Cost.t)) (n : Node) (i : nat)
    (rhs : result Cost.t) (k : nat) :
  extra_iadd X n i rhs = Ok X' →
  (∃ l, X !! n = Some l ∧ length l = k) →
  ∃ l', X' !! n = Some l' ∧ length l' = k.
Proof.
  intros H (l0 & Hl0 & Hlen). unfold extra_iadd in H.
  apply bind_Ok in H as (l & Hl & H). apply dict_get_Ok in Hl.
  apply bind_Ok in H as (old & _ & H).
  apply bind_Ok in H as (v & _ & H). injection H as <-.
  assert (l = l0) as -> by congruence.
  exists (<[i := Cost.add old v]> l0). rewrite lookup_insert_eq.
  split; [done|]. by rewrite length_insert.
Qed.

Lemma accrue_extra_costs_length (g : CostGraph) (src dst : Node) (mm : list Z)
    (X : gmap Node (list Cost.t)) :
  accrue_extra_costs g src dst mm = Ok X →
  ∃ l, X !! src = Some l ∧ node_lens g !! src = Some (length l).
Proof.
  intros H. unfold accrue_extra_costs in H.
  apply bind_Ok in H as (n & Hn & H). apply dict_get_Ok in Hn.
  apply bind_Ok in H as (src_sv & _ & H).
  assert (Hinv : ∃ l, X !! src = Some l ∧ length l = n).
  { revert H. apply (foldM_invariant _ (λ X, ∃ l, X !! src = Some l ∧ length l = n)).
    - intros X1 X2 i _ HX1 Hstep. unfold extra_cost_step in Hstep.
      apply bind_Ok in Hstep as (j & _ & Hstep).
      apply bind_Ok in Hstep as (dst_sv & _ & Hstep).
      apply bind_Ok in Hstep as (s & _ & Hstep).
      apply bind_Ok in Hstep as (X3 & H3 & Hstep).
      apply (extra_iadd_length _ _ _ _ _ n) in H3; [|done].
      destruct (X3 !! dst).
      + by apply (extra_iadd_length _ _ _ _ _ n) in Hstep.
      + by injection Hstep as <-.
    - exists (replicate n Cost.zero). rewrite lookup_insert_eq.
      split; [done|]. by rewrite length_replicate. }
  destruct Hinv as (l & Hl & <-). by exists l.
Qed.

(** X16: the extra costs of a node have one entry per strategy.  On a
    constructed graph, after any replay of merges, the list that
    extra_node_costs holds for a node has the length that node_lens records
    for it. *)
Theorem extra_costs_cover_strategies (ls : list StrategiesVector) (simp : bool)
    (sv_attr : gmap Node (list ShardingStrategy)) (g0 g : CostGraph)
    (pairs : list (Node * Node)) (n : Node) (l : list Cost.t) :
  __init__ ls simp sv_attr = Ok g0 →
  replay g0 pairs = Ok g →
  extra_node_costs g !! n = Some l →
  node_lens g !! n = Some (length l).
Proof.
  intros Hg0 Hg. revert n l. revert Hg.
  apply (foldM_invariant _
           (λ g, ∀ n l, extra_node_costs g !! n = Some l →
                        node_lens g !! n = Some (length l))).
  - intros g1 g2 [s d] _ Hg1 Hm n l Hl. simpl in Hm.
    pose proof (merge_node_frame _ _ _ _ Hm) as (HL & _). rewrite HL.
    apply merge_node_extra_node_costs in Hm as (mm & _ & HX).
    destruct (decide (n = s)) as [->|Hns].
    + apply accrue_extra_costs_length in HX as (l' & Hl' & Hlen). congruence.
    + rewrite (accrue_extra_costs_other _ _ _ _ _ n HX Hns) in Hl. by apply Hg1.
  - intros n l Hl. destruct (init_frame _ _ _ _ Hg0) as (_ & _ & HX & _).
    rewrite HX in Hl. by rewrite lookup_empty in Hl.
Qed.

Lemma extra_costs_cover_strategies_witness :
  node_lens (Samples.the_graph (replay (Samples.construct Samples.chain) [(0%nat, 1%nat)]))
    !! 0%nat
  = Some (length [Cost.Fin 2; Cost.Fin 1]).
Proof.
  apply (extra_costs_cover_strategies Samples.chain true (Samples.attributes Samples.chain)
           (Samples.construct Samples.chain)
           (Samples.the_graph (replay (Samples.construct Samples.chain) [(0%nat, 1%nat)]))
           [(0%nat, 1%nat)] 0%nat [Cost.Fin 2; Cost.Fin 1]).
  - vm_compute. reflexivity.
  - vm_compute. reflexivity.
  - vm_compute. reflexivity.
Defined.

(** ** Absorbed nodes (lines 134-140) *)

Lemma merge_node_isolated (r : Node → nat) (g g' : CostGraph) (src dst : Node) :
  well_formed r g → mirrored g →
  (∀ d s, following_dict g !! d = Some s →
          parents g !! d = Some [] ∧ children g !! d = Some []) →
  merge_node g src dst = Ok g' →
  ∀ d s, following_dict g' !! d = Some s →
         parents g' !! d = Some [] ∧ children g' !! d = Some [].
Proof.
  intros (Hcons & Hnodup & Hrank) [Hmir Hpnd] Hiso Hm.
  pose proof Hm as Hst. apply merge_node_stages in Hst
    as (dp & _ & _ & dc & _ & _ & sc & sc' & _ & _ & _ & Hdp & Hsdp & _ & _ & Hdc & _ & _
        & Hsc & Hsc' & _).
  assert (Hsd : adjacent g src dst).
  { exists sc. split; [done|]. by eapply list_remove_elem_of. }
  assert (Hne : src ≠ dst).
  { intros ->. apply Hrank in Hsd. lia. }
  assert (Hself : dst ∉ dc).
  { intros Hin. assert (adjacent g dst dst) as Hdd by (by exists dc).
    apply Hrank in Hdd. lia. }
  assert (Hnd : NoDup dc) by (by eapply Hnodup).
  destruct (merge_node_effect _ _ _ _ _ _ Hm Hne Hdp Hdc Hself Hnd)
    as (mm & X & E1 & dp' & sc0 & sc0' & g2 & _ & _ & _ & Hdp' & Hsc0 & Hsc0' & _ & Hrew & ->).
  destruct Hrew as (_ & _ & Hfol & Hdp2 & (sc2 & Hch & _) & Hpo & _).
  simpl in Hfol, Hch, Hpo. rewrite insert_insert_eq in Hch.
  assert (Hold : ∀ d s, following_dict g !! d = Some s →
                        d ≠ dst ∧ parents g2 !! d = Some [] ∧
                        <[src := sc2]> (children g) !! d = Some []).
  { intros d s Hd. destruct (Hiso d s Hd) as [Hp Hc].
    assert (Hdd : d ≠ dst).
    { intros ->. rewrite Hdp in Hp. injection Hp as ->. by apply elem_of_nil in Hsdp. }
    assert (Hds : d ≠ src).
    { intros ->. destruct Hsd as (l & Hl & Hin). rewrite Hc in Hl. injection Hl as <-.
      by apply elem_of_nil in Hin. }
    assert (Hddc : d ∉ dc).
    { intros Hin. assert (adjacent g dst d) as Hadj by (by exists dc).
      apply Hmir in Hadj as (l & Hl & Hin'). rewrite Hp in Hl. injection Hl as <-.
      by apply elem_of_nil in Hin'. }
    split_and!; [done| |].
    - by rewrite (Hpo d Hdd Hddc), lookup_insert_ne.
    - by rewrite lookup_insert_ne. }
  intros d s. destruct (decide (dp' = [])) as [Hnil|Hnil]; simpl.
  - rewrite Hfol, Hch. destruct (decide (d = dst)) as [->|Hdd].
    + intros _. rewrite lookup_insert_eq. split; [|done]. by rewrite Hdp2, Hnil.
    + rewrite lookup_insert_ne by done. intros Hd.
      destruct (Hold d s Hd) as (_ & ? & ?). by rewrite lookup_insert_ne.
  - rewrite Hfol, Hch. intros Hd. by destruct (Hold d s Hd) as (_ & ? & ?).
Qed.

(** X17: an absorbed node stays out of the graph.  On a graph constructed
    from a registry, after any replay of merges, a node with a ledger record
    has no parent and no child, no edge to or from it is in the table, and it
    can take part in no further merge: merge_node raises at line 82 whether
    the node is given as src or as dst. *)
Theorem absorbed_nodes_stay_isolated (r : Node → nat) (ls : list StrategiesVector)
    (simp : bool) (sv_attr : gmap Node (list ShardingStrategy))
    (g0 g : CostGraph) (pairs : list (Node * Node)) (d s : Node) :
  registry_ok r ls →
  Forall (λ sv, NoDup (predecessor_nodes sv)) ls →
  __init__ ls simp sv_attr = Ok g0 →
  replay g0 pairs = Ok g →
  following_dict g !! d = Some s →
  parents g !! d = Some [] ∧ children g !! d = Some [] ∧
  ∀ n, get_edge_cost g d n = Raise KeyError ∧
       get_edge_cost g n d = Raise KeyError ∧
       merge_node g n d = Raise ValueError ∧
       (merge_node g d n = Raise AttributeError ∨ merge_node g d n = Raise ValueError).
Proof.
  intros Hreg Hpnd Hg0 Hg Hd.
  assert (Hinv : well_formed r g ∧ mirrored g ∧
                 ∀ d s, following_dict g !! d = Some s →
                        parents g !! d = Some [] ∧ children g !! d = Some []).
  { revert Hg.
    apply (foldM_invariant _
             (λ g, well_formed r g ∧ mirrored g ∧
                   ∀ d s, following_dict g !! d = Some s →
                          parents g !! d = Some [] ∧ children g !! d = Some [])).
    - intros g1 g2 [a b] _ (Hwf1 & Hmir1 & Hiso1) Hm. simpl in Hm. split_and!.
      + by apply (merge_node_well_formed r) in Hm as [? _].
      + by eapply merge_node_mirrored.
      + by eapply merge_node_isolated.
    - split_and!; [by eapply init_well_formed | by eapply init_mirrored |].
      intros d' s' Hd'. destruct (init_frame _ _ _ _ Hg0) as (_ & _ & _ & HF & _).
      rewrite HF in Hd'. by rewrite lookup_empty in Hd'. }
  destruct Hinv as ((Hcons & _) & [Hmir _] & Hiso).
  destruct (Hiso d s Hd) as [Hp Hc]. split_and!; [done..|].
  assert (Hout : ∀ n, ¬ adjacent g d n).
  { intros n (l & Hl & Hin). rewrite Hc in Hl. injection Hl as <-.
    by apply elem_of_nil in Hin. }
  assert (Hinto : ∀ n, ¬ adjacent g n d).
  { intros n Hadj. apply Hmir in Hadj as (l & Hl & Hin). rewrite Hp in Hl.
    injection Hl as <-. by apply elem_of_nil in Hin. }
  assert (Hoff : ∀ a b, ¬ adjacent g a b → get_edge_cost g a b = Raise KeyError).
  { intros a b Hab. unfold get_edge_cost, dict_get.
    destruct (edge_costs g !! (a, b)) as [m|] eqn:Hm; [|done].
    exfalso. apply Hab. apply Hcons. by rewrite Hm. }
  intros n. split_and!.
  - by apply Hoff.
  - by apply Hoff.
  - eapply merge_node_not_parent; [done|]. apply not_elem_of_nil.
  - destruct (parents g !! n) as [l|] eqn:Hl.
    + right. eapply merge_node_not_parent; [done|]. intros Hin.
      apply (Hout n). apply Hmir. by exists l.
    + left. unfold merge_node, getattr. by rewrite Hl.
Qed.

Lemma absorbed_nodes_stay_isolated_witness :
  children (Samples.the_graph (replay (Samples.construct Samples.chain2)
                                      [(1%nat, 2%nat); (0%nat, 1%nat)])) !! 2%nat
  = Some [] ∧
  merge_node (Samples.the_graph (replay (Samples.construct Samples.chain2)
                                        [(1%nat, 2%nat); (0%nat, 1%nat)])) 1 2
  = Raise ValueError.
Proof.
  destruct (absorbed_nodes_stay_isolated (λ n, n) Samples.chain2 true
              (Samples.attributes Samples.chain2) (Samples.construct Samples.chain2)
              (Samples.the_graph (replay (Samples.construct Samples.chain2)
                                         [(1%nat, 2%nat); (0%nat, 1%nat)]))
              [(1%nat, 2%nat); (0%nat, 1%nat)] 2%nat 1%nat)
    as (_ & Hc & Hn).
  - unfold registry_ok. apply (bool_decide_unpack _). vm_compute. exact I.
  - apply (bool_decide_unpack _). vm_compute. exact I.
  - vm_compute. reflexivity.
  - vm_compute. reflexivity.
  - vm_compute. reflexivity.
  - split; [exact Hc|]. by destruct (Hn 1%nat) as (_ & _ & Hm & _).
Defined.

(** ** The extra costs of src start afresh (line 96) *)

Lemma accrue_extra_costs_reset (g : CostGraph) (src dst : Node) (mm : list Z)
    (l0 : list Cost.t) :
  accrue_extra_costs (set_extra_node_costs (<[src := l0]> (extra_node_costs g)) g)
    src dst mm
  = accrue_extra_costs g src dst mm.
Proof.
  unfold accrue_extra_costs. simpl.
  destruct (dict_get (node_lens g) src) as [n|]; [simpl|done].
  destruct (getattr (strategies_vector g) src) as [src_sv|]; [simpl|done].
  by rewrite insert_insert_eq.
Qed.

(** X18: merge_node(src, dst) starts the extra costs of src afresh at line
    96.  What src had accrued from an earlier merge is overwritten before it
    is read, so the merge gives the same result, and the same extra costs for
    src, whatever list src held before. *)
Theorem merge_node_resets_extra_cost (g : CostGraph) (src dst : Node) (l0 : list Cost.t) :
  merge_node (set_extra_node_costs (<[src := l0]> (extra_node_costs g)) g) src dst
  = merge_node g src dst.
Proof.
  unfold merge_node.
  change (parents (set_extra_node_costs (<[src := l0]> (extra_node_costs g)) g))
    with (parents g).
  destruct (getattr (parents g) dst) as [dst_parents|]; [simpl|done].
  destruct (list_index dst_parents src) as [k|]; [simpl|done].
  change (build_merge_map (set_extra_node_costs (<[src := l0]> (extra_node_costs g)) g)
            src dst)
    with (build_merge_map g src dst).
  destruct (build_merge_map g src dst) as [mm|]; [simpl|done].
  rewrite accrue_extra_costs_reset.
  destruct (accrue_extra_costs g src dst mm) as [X|]; [simpl|done].
  reflexivity.
Qed.
